(** * NodeModal: path-indexed JSON editing helpers

    A shallow embedding of [src/features/modals/NodeModal/index.tsx]:
    the row normaliser, the path formatter, the immutable path
    reader/writer, the primitive-field merger, path equality and the
    [Save] click handler of the modal.

    Modelling conventions.
    - A JavaScript value is a [jsval].  Numbers are modelled by their
      integer value: the helpers never compute with numbers, they copy
      them and print them.  The engine holds every integer up to 2^53
      in magnitude and prints it as its decimal numeral; the statements
      on printed text are made for numbers in that range
      ([safe_value]).  Numbers with a fraction have no term.  Strings
      are sequences of 8-bit code units.
    - An object is its own-property table, a list of key/value pairs kept
      in the order in which the engine enumerates it: canonical array
      indices first, in ascending numeric order, then the other keys in
      insertion order.
    - An array is the list of its elements; a hole reads as [undefined]
      in every operation used here and is modelled as [VUndefined].
    - A path segment is a non-negative integer or a string, as in the
      data model of the specification.

    The source is read twice.  The first reading takes it on JSON data:
    a property access is a lookup in the own-property table, an
    assignment stores into it, and every non-negative integer extends
    an array ([getValueByPath], [setValueByPath],
    [mergePrimitivesAtPath], [normalizeNodeData]).  The second reading
    adds what the engine does besides: the members that a plain object
    inherits from [Object.prototype], the setter behind [__proto__], and
    the bound 2^32 - 1 on array indices ([engine_getValueByPath],
    [engine_setValueByPath], [engine_mergePrimitivesAtPath],
    [engine_normalizeNodeData]).  The two readings agree on paths and
    keys that stay away from those names and that bound, which is
    proved below; where they differ, the statements are made on the
    second. *)

From Stdlib Require Import List String Ascii ZArith Arith Lia Bool DecimalString.
Import ListNotations.
Local Open Scope string_scope.

(* ================================================================= *)
(** ** Values and paths *)

#[warnings="-register-all"]
Inductive jsval : Type :=
| VUndefined
| VNull
| VBool (b : bool)
| VNum (n : Z)
| VStr (s : string)
| VArr (elems : list jsval)
| VObj (fields : list (string * jsval)).

(** Modelled from the spec: the type of [NodeData["path"]] is declared
    in [types/graph], which is not part of the sources.  A path is an
    ordered sequence of segments, each a non-negative integer (an array
    index) or a string (an object key). *)
Inductive segment : Type :=
| SNum (n : nat)
| SKey (k : string).

Definition Path := list segment.

(** [typeof v], [Array.isArray(v)] and the truthiness test used by
    [!v] and [v && ...]. *)
Definition typeof (v : jsval) : string :=
  match v with
  | VUndefined => "undefined"
  | VNull => "object"
  | VBool _ => "boolean"
  | VNum _ => "number"
  | VStr _ => "string"
  | VArr _ | VObj _ => "object"
  end.

Definition Array_isArray (v : jsval) : bool :=
  match v with VArr _ => true | _ => false end.

Definition truthy (v : jsval) : bool :=
  match v with
  | VUndefined | VNull => false
  | VBool b => b
  | VNum n => negb (n =? 0)%Z
  | VStr s => negb (s =? "")
  | VArr _ | VObj _ => true
  end.

(** [v === null] and [v === undefined]. *)
Definition is_null (v : jsval) : bool :=
  match v with VNull => true | _ => false end.

Definition is_undefined (v : jsval) : bool :=
  match v with VUndefined => true | _ => false end.

(** [[...v]] and [{...v}], on the values the guards of the source let
    through (an array, respectively a plain object). *)
Definition spread_elems (v : jsval) : list jsval :=
  match v with VArr l => l | _ => [] end.

Definition spread_props (v : jsval) : list (string * jsval) :=
  match v with VObj o => o | _ => [] end.

(* ================================================================= *)
(** ** Array elements and object properties

    [arr[idx]], [arr[idx] = v], [obj[key]] and [obj[key] = v], on the
    element list of an array and the property table of an object.  They
    are generic in the type of the stored values, which are [jsval]s in
    the functional model and heap values in the model with references. *)

(** A key is a canonical array index when it is the decimal numeral of
    an integer below 2^32 - 1.  Such keys are enumerated first. *)
Definition array_index (k : string) : option N :=
  match NilZero.uint_of_string k with
  | Some d =>
      let n := N.of_uint d in
      if (NilZero.string_of_uint (N.to_uint n) =? k) && (n <? 4294967295)%N
      then Some n else None
  | None => None
  end.

Section Containers.
Context {A : Type}.
(** What a read of a missing element or property returns. *)
Variable undef : A.

Definition arr_get (l : list A) (idx : nat) : A :=
  nth idx l undef.

(** Writing past the end extends the array; the skipped positions read
    as [undefined]. *)
Fixpoint arr_set (l : list A) (idx : nat) (v : A) : list A :=
  match idx, l with
  | O, [] => [v]
  | O, _ :: t => v :: t
  | S i, [] => undef :: arr_set [] i v
  | S i, x :: t => x :: arr_set t i v
  end.

Fixpoint obj_lookup (o : list (string * A)) (k : string) : option A :=
  match o with
  | [] => None
  | (k', v) :: o' => if k' =? k then Some v else obj_lookup o' k
  end.

Definition obj_get (o : list (string * A)) (k : string) : A :=
  match obj_lookup o k with
  | Some v => v
  | None => undef
  end.

Fixpoint obj_replace (o : list (string * A)) (k : string) (v : A)
  : list (string * A) :=
  match o with
  | [] => []
  | (k', v') :: o' =>
      if k' =? k then (k, v) :: o' else (k', v') :: obj_replace o' k v
  end.

Fixpoint obj_insert_index (o : list (string * A)) (n : N) (k : string)
  (v : A) : list (string * A) :=
  match o with
  | [] => [(k, v)]
  | (k', v') :: o' =>
      match array_index k' with
      | Some n' =>
          if (n' <? n)%N then (k', v') :: obj_insert_index o' n k v
          else (k, v) :: o
      | None => (k, v) :: o
      end
  end.

(** An existing property keeps its position; a new one goes to its
    place among the array indices, or to the end. *)
Definition obj_set (o : list (string * A)) (k : string) (v : A)
  : list (string * A) :=
  match obj_lookup o k with
  | Some _ => obj_replace o k v
  | None =>
      match array_index k with
      | Some n => obj_insert_index o n k v
      | None => o ++ [(k, v)]
      end
  end.
End Containers.

(* ================================================================= *)
(** ** Conversion to text *)

Definition dquote : string := String "034"%char EmptyString.
Definition newline : string := String "010"%char EmptyString.

Definition number_to_string (n : Z) : string :=
  NilZero.string_of_int (Z.to_int n).

(** [ToString], as applied by a template literal and by
    [Array.prototype.join]. *)
Fixpoint to_string (v : jsval) : string :=
  match v with
  | VUndefined => "undefined"
  | VNull => "null"
  | VBool true => "true"
  | VBool false => "false"
  | VNum n => number_to_string n
  | VStr s => s
  | VArr l =>
      (fix join (l : list jsval) : string :=
         match l with
         | [] => ""
         | x :: t =>
             let sx := match x with
                       | VUndefined | VNull => ""
                       | _ => to_string x
                       end in
             match t with
             | [] => sx
             | _ :: _ => sx ++ "," ++ join t
             end
         end) l
  | VObj _ => "[object Object]"
  end.

Definition join_elem (x : jsval) : string :=
  match x with
  | VUndefined | VNull => ""
  | _ => to_string x
  end.

(** [arr.join(sep)] *)
Fixpoint array_join (sep : string) (l : list jsval) : string :=
  match l with
  | [] => ""
  | x :: t =>
      match t with
      | [] => join_elem x
      | _ :: _ => join_elem x ++ sep ++ array_join sep t
      end
  end.

(** [QuoteJSONString] *)
Definition hex_digit (n : nat) : string :=
  String (nth n ["0"; "1"; "2"; "3"; "4"; "5"; "6"; "7"; "8"; "9";
                 "a"; "b"; "c"; "d"; "e"; "f"]%char "0"%char) EmptyString.

Definition quote_char (c : ascii) : string :=
  let n := nat_of_ascii c in
  if (n =? 34)%nat then "\" ++ dquote
  else if (n =? 92)%nat then "\\"
  else if (n =? 8)%nat then "\b"
  else if (n =? 12)%nat then "\f"
  else if (n =? 10)%nat then "\n"
  else if (n =? 13)%nat then "\r"
  else if (n =? 9)%nat then "\t"
  else if (n <? 32)%nat then "\u00" ++ hex_digit (n / 16) ++ hex_digit (n mod 16)
  else String c EmptyString.

Fixpoint quote_body (s : string) : string :=
  match s with
  | EmptyString => EmptyString
  | String c s' => quote_char c ++ quote_body s'
  end.

Definition quote_json_string (s : string) : string :=
  dquote ++ quote_body s ++ dquote.

Fixpoint join_strings (sep : string) (l : list string) : string :=
  match l with
  | [] => ""
  | x :: t =>
      match t with
      | [] => x
      | _ :: _ => x ++ sep ++ join_strings sep t
      end
  end.

(** The text of an array or object from the texts of its members
    ([SerializeJSONArray] and [SerializeJSONObject] share this shape). *)
Definition wrap_members (opening closing gap indent : string)
  (members : list string) : string :=
  match members with
  | [] => opening ++ closing
  | _ :: _ =>
      if gap =? "" then opening ++ join_strings "," members ++ closing
      else
        let inner := indent ++ gap in
        opening ++ newline ++ inner
          ++ join_strings ("," ++ newline ++ inner) members
          ++ newline ++ indent ++ closing
  end.

Definition member (gap k s : string) : string :=
  quote_json_string k ++ ":" ++ (if gap =? "" then "" else " ") ++ s.

(** [SerializeJSONProperty]: [None] stands for [undefined]. *)
Fixpoint stringify_value (gap indent : string) (v : jsval) : option string :=
  match v with
  | VUndefined => None
  | VNull => Some "null"
  | VBool true => Some "true"
  | VBool false => Some "false"
  | VNum n => Some (number_to_string n)
  | VStr s => Some (quote_json_string s)
  | VArr l =>
      Some (wrap_members "[" "]" gap indent
              (map (fun x =>
                      match stringify_value gap (indent ++ gap) x with
                      | Some s => s
                      | None => "null"
                      end) l))
  | VObj o =>
      Some (wrap_members "{" "}" gap indent
              (flat_map (fun kx =>
                           match stringify_value gap (indent ++ gap) (snd kx) with
                           | Some s => [member gap (fst kx) s]
                           | None => []
                           end) o))
  end.

Fixpoint spaces (n : nat) : string :=
  match n with
  | O => ""
  | S n' => " " ++ spaces n'
  end.

(** [JSON.stringify(v, null, space)] for a numeric [space]. *)
Definition JSON_stringify (v : jsval) (space : nat) : option string :=
  stringify_value (spaces (Nat.min space 10)) "" v.

(** [JSON.stringify(obj, null, space)] for a plain object [obj]: always a
    string. *)
Definition JSON_stringify_object (o : list (string * jsval)) (space : nat)
  : string :=
  let gap := spaces (Nat.min space 10) in
  wrap_members "{" "}" gap ""
    (flat_map (fun kx =>
                 match stringify_value gap gap (snd kx) with
                 | Some s => [member gap (fst kx) s]
                 | None => []
                 end) o).

(* ================================================================= *)
(** ** Node rows *)

(** Modelled from the spec: the row type [NodeData["text"][i]] is declared
    in [types/graph], which is not part of the sources.  A row has an
    optional key, a value and a type tag; the tag is the string the
    source compares it with. *)
Record NodeRow : Type := mkRow {
  key : option string;
  value : jsval;
  type : string
}.

(** Truthiness of [row.key]: an absent key and the empty string are
    both falsy. *)
Definition key_truthy (k : option string) : bool :=
  match k with
  | Some s => negb (s =? "")
  | None => false
  end.

(** The key of a row whose key is truthy. *)
Definition key_string (k : option string) : string :=
  match k with
  | Some s => s
  | None => ""
  end.

(** The body of the [forEach] callback of [normalizeNodeData]. *)
Definition normalize_step (obj : list (string * jsval)) (row : NodeRow)
  : list (string * jsval) :=
  if negb (type row =? "array") && negb (type row =? "object") then
    if key_truthy (key row) then obj_set obj (key_string (key row)) (value row)
    else obj
  else obj.

Definition normalizeNodeData (nodeRows : option (list NodeRow)) : string :=
  match nodeRows with
  | None => "{}"
  | Some rows =>
      if (List.length rows =? 0)%nat then "{}"
      else
        match rows with
        | [row0] =>
            if negb (key_truthy (key row0)) then to_string (value row0)
            else JSON_stringify_object (fold_left normalize_step rows []) 2
        | _ => JSON_stringify_object (fold_left normalize_step rows []) 2
        end
  end.

(* ================================================================= *)
(** ** jsonPathToString *)

(** The callback of [path.map]: a number stays a number, a string is
    wrapped in double quotes. *)
Definition path_segment_text (seg : segment) : jsval :=
  match seg with
  | SNum n => VNum (Z.of_nat n)
  | SKey s => VStr (dquote ++ s ++ dquote)
  end.

Definition jsonPathToString (path : option Path) : string :=
  match path with
  | None => "$"
  | Some p =>
      if (List.length p =? 0)%nat then "$"
      else
        let segments := map path_segment_text p in
        "$[" ++ array_join "][" segments ++ "]"
  end.

(* ================================================================= *)
(** ** getValueByPath and setValueByPath *)

(** The [for ... of] loop of [getValueByPath]. *)
Fixpoint get_loop (cur : jsval) (path : Path) : jsval :=
  match path with
  | [] => cur
  | seg :: rest =>
      if is_undefined cur || is_null cur then VUndefined
      else
        match seg with
        | SNum n =>
            if negb (Array_isArray cur) then VUndefined
            else get_loop (arr_get VUndefined (spread_elems cur) n) rest
        | SKey k =>
            if negb (typeof cur =? "object") || Array_isArray cur then VUndefined
            else get_loop (obj_get VUndefined (spread_props cur) k) rest
        end
  end.

Definition getValueByPath (root : jsval) (path : option Path) : jsval :=
  match path with
  | None => root
  | Some p => if (List.length p =? 0)%nat then root else get_loop root p
  end.

(** The local function [setAt] of [setValueByPath], applied to a node
    and to the non-empty list [head :: rest]. *)
Fixpoint setAt (value : jsval) (node : jsval) (head : segment) (rest : Path)
  : jsval :=
  match head with
  | SNum idx =>
      let arr := if Array_isArray node then spread_elems node else [] in
      let current := arr_get VUndefined arr idx in
      VArr (arr_set VUndefined arr idx
              match rest with
              | [] => value
              | head' :: rest' => setAt value current head' rest'
              end)
  | SKey key =>
      let obj :=
        if truthy node && (typeof node =? "object") && negb (Array_isArray node)
        then spread_props node else [] in
      VObj (obj_set obj key
              match rest with
              | [] => value
              | head' :: rest' => setAt value (obj_get VUndefined obj key) head' rest'
              end)
  end.

(** What [setAt] stores at the addressed position: the expression
    [isLast ? value : setAt(current, rest)]. *)
Definition setAt_stored (value current : jsval) (rest : Path) : jsval :=
  match rest with
  | [] => value
  | head' :: rest' => setAt value current head' rest'
  end.

Definition setValueByPath (root : jsval) (path : option Path) (value : jsval)
  : jsval :=
  match path with
  | None => value
  | Some [] => value
  | Some (head :: rest) => setAt value root head rest
  end.

(* ================================================================= *)
(** ** mergePrimitivesAtPath *)

(** The body of the loop over [Object.entries(partial)]: objects and
    arrays are skipped, everything else (null included) is assigned. *)
Definition merge_step (base : list (string * jsval)) (kv : string * jsval)
  : list (string * jsval) :=
  let (k, v) := kv in
  if negb (is_null v) && (typeof v =? "object") then base
  else obj_set base k v.

Definition mergePrimitivesAtPath (root : jsval) (path : option Path)
  (partial : list (string * jsval)) : jsval :=
  let target := getValueByPath root path in
  let base :=
    if truthy target && (typeof target =? "object") && negb (Array_isArray target)
    then spread_props target else [] in
  setValueByPath root path (VObj (fold_left merge_step partial base)).

(* ================================================================= *)
(** ** pathsEqual *)

(** A path held by a node is an array, compared by identity by [===].
    An argument of [pathsEqual] is therefore a reference (or [None] for
    [undefined]); [path_store] gives the array behind each reference. *)
Definition path_ref := nat.
Definition path_store := path_ref -> Path.

(** [a === b] on optional references. *)
Definition same_reference (a b : option path_ref) : bool :=
  match a, b with
  | None, None => true
  | Some la, Some lb => (la =? lb)%nat
  | _, _ => false
  end.

(** [x !== y] on the results of indexing a path: [None] is the
    [undefined] read past the end. *)
Definition strict_neq (x y : option segment) : bool :=
  match x, y with
  | None, None => false
  | Some (SNum n), Some (SNum m) => negb (n =? m)%nat
  | Some (SKey s), Some (SKey t) => negb (s =? t)
  | _, _ => true
  end.

(** The [for] loop of [pathsEqual], from index [i], with [n] iterations
    left. *)
Fixpoint pathsEqual_loop (a b : Path) (i n : nat) : bool :=
  match n with
  | O => true
  | S n' =>
      if strict_neq (nth_error a i) (nth_error b i) then false
      else pathsEqual_loop a b (S i) n'
  end.

Definition pathsEqual (st : path_store) (a b : option path_ref) : bool :=
  if same_reference a b then true
  else
    match a, b with
    | Some la, Some lb =>
        if negb (List.length (st la) =? List.length (st lb))%nat then false
        else pathsEqual_loop (st la) (st lb) 0 (List.length (st la))
    | _, _ => false
    end.

(* ================================================================= *)
(** ** setValueByPath on a heap

    The functional model above cannot say that [setValueByPath] leaves
    its argument alone.  Here arrays and objects live in a heap and are
    passed by reference; [[...node]] and [{...node}] allocate a copy and
    [arr[idx] = x], [obj[key] = x] write into a cell of the heap. *)

Definition loc := nat.

Inductive hval : Type :=
| HUndefined
| HNull
| HBool (b : bool)
| HNum (n : Z)
| HStr (s : string)
| HRef (l : loc).

Inductive cell : Type :=
| CArr (elems : list hval)
| CObj (fields : list (string * hval)).

(** Location [l] is the [l]-th cell; allocation appends a cell. *)
Definition heap := list cell.

Definition alloc (h : heap) (c : cell) : heap * loc :=
  ((h ++ [c])%list, List.length h).

Fixpoint heap_store (h : heap) (l : loc) (c : cell) : heap :=
  match h, l with
  | [], _ => []
  | _ :: t, O => c :: t
  | x :: t, S l' => x :: heap_store t l' c
  end.

(** The elements of [node] when [Array.isArray(node)], else none. *)
Definition heap_elems (h : heap) (node : hval) : list hval :=
  match node with
  | HRef l =>
      match nth_error h l with
      | Some (CArr es) => es
      | _ => []
      end
  | _ => []
  end.

(** The properties of [node] when it is a plain object, else none. *)
Definition heap_props (h : heap) (node : hval) : list (string * hval) :=
  match node with
  | HRef l =>
      match nth_error h l with
      | Some (CObj fs) => fs
      | _ => []
      end
  | _ => []
  end.

(** [arr[idx] = x] and [obj[key] = x] through a reference. *)
Definition heap_arr_set (h : heap) (arr : loc) (idx : nat) (x : hval) : heap :=
  heap_store h arr (CArr (arr_set HUndefined (heap_elems h (HRef arr)) idx x)).

Definition heap_obj_set (h : heap) (obj : loc) (key : string) (x : hval)
  : heap :=
  heap_store h obj (CObj (obj_set (heap_props h (HRef obj)) key x)).

(** [setAt]: the copy is allocated first, the recursive call runs on the
    heap that holds the copy, and the copy is written last. *)
Fixpoint heap_setAt (value : hval) (h : heap) (node : hval) (head : segment)
  (rest : Path) : heap * hval :=
  match head with
  | SNum idx =>
      let (h1, arr) := alloc h (CArr (heap_elems h node)) in
      let current := arr_get HUndefined (heap_elems h1 (HRef arr)) idx in
      let (h2, x) :=
        match rest with
        | [] => (h1, value)
        | head' :: rest' => heap_setAt value h1 current head' rest'
        end in
      (heap_arr_set h2 arr idx x, HRef arr)
  | SKey key =>
      let (h1, obj) := alloc h (CObj (heap_props h node)) in
      let (h2, x) :=
        match rest with
        | [] => (h1, value)
        | head' :: rest' =>
            heap_setAt value h1
              (obj_get HUndefined (heap_props h1 (HRef obj)) key) head' rest'
        end in
      (heap_obj_set h2 obj key x, HRef obj)
  end.

Definition heap_setValueByPath (h : heap) (root : hval) (path : option Path)
  (value : hval) : heap * hval :=
  match path with
  | None => (h, value)
  | Some [] => (h, value)
  | Some (head :: rest) => heap_setAt value h root head rest
  end.

(** Reading a heap value back as a [jsval].  The fuel bounds the nesting
    depth followed through references. *)
Fixpoint mapM {A B : Type} (f : A -> option B) (l : list A) : option (list B) :=
  match l with
  | [] => Some []
  | x :: t =>
      match f x, mapM f t with
      | Some y, Some ys => Some (y :: ys)
      | _, _ => None
      end
  end.

Definition on_snd {A B : Type} (f : A -> option B) (kx : string * A)
  : option (string * B) :=
  match f (snd kx) with
  | Some y => Some (fst kx, y)
  | None => None
  end.

Fixpoint reify (fuel : nat) (h : heap) (v : hval) : option jsval :=
  match v with
  | HUndefined => Some VUndefined
  | HNull => Some VNull
  | HBool b => Some (VBool b)
  | HNum n => Some (VNum n)
  | HStr s => Some (VStr s)
  | HRef l =>
      match fuel with
      | O => None
      | S fuel' =>
          match nth_error h l with
          | Some (CArr es) => option_map VArr (mapM (reify fuel' h) es)
          | Some (CObj fs) => option_map VObj (mapM (on_snd (reify fuel' h)) fs)
          | None => None
          end
      end
  end.

(** Every cell of [h] is still there, unchanged, in [h']. *)
Definition heap_extends (h h' : heap) : Prop :=
  forall l c, nth_error h l = Some c -> nth_error h' l = Some c.

(* ================================================================= *)
(** ** The Save handler *)

(** Modelled from the spec: [NodeData] is declared in [types/graph],
    which is not part of the sources.  The handler reads its row list
    and its path, both optional. *)
Record NodeData : Type := mkNode {
  text : option (list NodeRow);
  path : option path_ref
}.

(** What [JSON.parse] does with a text: a value, or a [SyntaxError]
    with its message. *)
Inductive parse_result : Type :=
| Parsed (v : jsval)
| SyntaxError (message : string).

(** The state the handler reads and writes: the document store
    ([useFile]), the graph store ([useGraph]), the component state
    ([isEditing], [draft]) and what the user was shown.  A [contents] of
    [None] is the [undefined] that [JSON.stringify] returns for an
    undefined root. *)
Record World : Type := mkWorld {
  contents : option string;
  hasChanges : bool;
  nodes : list NodeData;
  selectedNode : option NodeData;
  paths : path_store;
  isEditing : bool;
  draft : string;
  alerts : list string;
  setContents_calls : list (option string * bool)
}.

Definition alert (msg : string) (w : World) : World :=
  mkWorld (contents w) (hasChanges w) (nodes w) (selectedNode w) (paths w)
    (isEditing w) (draft w) (alerts w ++ [msg]) (setContents_calls w).

Definition setIsEditing (b : bool) (w : World) : World :=
  mkWorld (contents w) (hasChanges w) (nodes w) (selectedNode w) (paths w)
    b (draft w) (alerts w) (setContents_calls w).

Definition setSelectedNode (n : NodeData) (w : World) : World :=
  mkWorld (contents w) (hasChanges w) (nodes w) (Some n) (paths w)
    (isEditing w) (draft w) (alerts w) (setContents_calls w).

(** [String(x)] of what [getContents()] returned. *)
Definition contents_text (c : option string) : string :=
  match c with
  | Some s => s
  | None => "undefined"
  end.

(** [nodeData.path], dereferenced. *)
Definition node_path (w : World) (nodeData : NodeData) : option Path :=
  option_map (paths w) (path nodeData).

Section SaveHandler.
(** [JSON.parse] belongs to the runtime. *)
Variable JSON_parse : string -> parse_result.
(** The document store rebuilds the graph from the new contents;
    that pipeline is not part of this component. *)
Variable pipeline :
  option string -> list NodeData * path_store -> list NodeData * path_store.

(** [useFile.getState().setContents({ contents, hasChanges })] *)
Definition setContents (c : option string) (changed : bool) (w : World)
  : World :=
  let (nodes', paths') := pipeline c (nodes w, paths w) in
  mkWorld c changed nodes' (selectedNode w) paths'
    (isEditing w) (draft w) (alerts w)
    (setContents_calls w ++ [(c, changed)]).

(** The tail of the handler, once [newRoot] is known: write back,
    leave edit mode, reselect the node by its path. *)
Definition save_commit (nodeData : NodeData) (newRoot : jsval) (w : World)
  : World :=
  let w1 := setContents (JSON_stringify newRoot 2) true w in
  let w2 := setIsEditing false w1 in
  let latestNodes := nodes w2 in
  match find (fun n => pathsEqual (paths w2) (path n) (path nodeData))
             latestNodes with
  | Some matched => setSelectedNode matched w2
  | None => w2
  end.

Definition isPrimitiveNode (nodeData : NodeData) : bool :=
  match text nodeData with
  | Some rows =>
      (List.length rows =? 1)%nat
      && negb (key_truthy (match rows with
                           | row0 :: _ => key row0
                           | [] => None
                           end))
  | None => false
  end.

(** The [onClick] callback of the Save button. *)
Definition save_onClick (w : World) : World :=
  match selectedNode w with
  | None => w
  | Some nodeData =>
      let jsonStr := contents w in
      match JSON_parse (contents_text jsonStr) with
      | SyntaxError message => alert ("App JSON is invalid: " ++ message) w
      | Parsed root =>
          match JSON_parse (draft w) with
          | SyntaxError message =>
              alert ("Invalid JSON in editor: " ++ message) w
          | Parsed parsed =>
              if isPrimitiveNode nodeData then
                if negb (is_null parsed) && (typeof parsed =? "object") then
                  alert "Expected a primitive value for this node (string, number, boolean, or null)" w
                else
                  save_commit nodeData
                    (setValueByPath root (node_path w nodeData) parsed) w
              else
                if negb (truthy parsed) || negb (typeof parsed =? "object")
                   || Array_isArray parsed then
                  alert "Expected an object for this node" w
                else
                  save_commit nodeData
                    (mergePrimitivesAtPath root (node_path w nodeData)
                       (spread_props parsed)) w
          end
      end
  end.
End SaveHandler.

(* ================================================================= *)
(** ** A JSON reader

    The handler is verified for every [JSON_parse].  To run it on
    concrete documents, this reader implements the JSON grammar for the
    values of the model (integer numbers, 8-bit code units).  It is a
    stand-in for the engine's [JSON.parse], used in examples only: it
    rejects fractions and exponents, keeps every integer exact, and has
    its own two error texts. *)

Definition is_ws (c : ascii) : bool :=
  let n := nat_of_ascii c in
  (n =? 32)%nat || (n =? 9)%nat || (n =? 10)%nat || (n =? 13)%nat.

Fixpoint skip_ws (s : string) : string :=
  match s with
  | String c s' => if is_ws c then skip_ws s' else s
  | EmptyString => s
  end.

Definition digit_of (c : ascii) : option Z :=
  let n := nat_of_ascii c in
  if (48 <=? n)%nat && (n <=? 57)%nat then Some (Z.of_nat (n - 48)) else None.

Definition hex_of (c : ascii) : option nat :=
  let n := nat_of_ascii c in
  if (48 <=? n)%nat && (n <=? 57)%nat then Some (n - 48)
  else if (97 <=? n)%nat && (n <=? 102)%nat then Some (n - 87)
  else if (65 <=? n)%nat && (n <=? 70)%nat then Some (n - 55)
  else None.

(** The digits at the front of [s], accumulated onto [acc]. *)
Fixpoint read_digits (acc : Z) (s : string) : Z * string :=
  match s with
  | String c s' =>
      match digit_of c with
      | Some d => read_digits (10 * acc + d) s'
      | None => (acc, s)
      end
  | EmptyString => (acc, s)
  end.

(** An integer literal: [0], or a non-zero digit followed by digits.  A
    fraction or exponent is outside the model and rejected. *)
Definition read_int (s : string) : option (Z * string) :=
  match s with
  | String c s' =>
      match digit_of c with
      | Some d =>
          let (n, rest) := if (d =? 0)%Z then (0%Z, s') else read_digits d s' in
          match rest with
          | String c' _ =>
              if (nat_of_ascii c' =? 46)%nat || (nat_of_ascii c' =? 101)%nat
                 || (nat_of_ascii c' =? 69)%nat
              then None else Some (n, rest)
          | EmptyString => Some (n, rest)
          end
      | None => None
      end
  | EmptyString => None
  end.

Definition read_number (s : string) : option (Z * string) :=
  match s with
  | String "-" s' =>
      match read_int s' with
      | Some (n, rest) => Some ((- n)%Z, rest)
      | None => None
      end
  | _ => read_int s
  end.

(** The characters of a string literal after its opening quote. *)
Fixpoint read_string (s : string) : option (string * string) :=
  match s with
  | EmptyString => None
  | String c s' =>
      let n := nat_of_ascii c in
      if (n =? 34)%nat then Some (EmptyString, s')
      else if (n <? 32)%nat then None
      else if (n =? 92)%nat then
        match s' with
        | String e s'' =>
            let simple (x : nat) :=
              match read_string s'' with
              | Some (body, rest) => Some (String (ascii_of_nat x) body, rest)
              | None => None
              end in
            match e with
            | "034"%char => simple 34
            | "\"%char => simple 92
            | "/"%char => simple 47
            | "b"%char => simple 8
            | "f"%char => simple 12
            | "n"%char => simple 10
            | "r"%char => simple 13
            | "t"%char => simple 9
            | "u"%char =>
                match s'' with
                | String h1 (String h2 (String h3 (String h4 s5))) =>
                    match hex_of h1, hex_of h2, hex_of h3, hex_of h4 with
                    | Some 0, Some 0, Some a, Some b =>
                        match read_string s5 with
                        | Some (body, rest) =>
                            Some (String (ascii_of_nat (16 * a + b)) body, rest)
                        | None => None
                        end
                    | _, _, _, _ => None
                    end
                | _ => None
                end
            | _ => None
            end
        | EmptyString => None
        end
      else
        match read_string s' with
        | Some (body, rest) => Some (String c body, rest)
        | None => None
        end
  end.

Definition expect (word : string) (v : jsval) (s : string)
  : option (jsval * string) :=
  if prefix word s
  then Some (v, substring (String.length word) (String.length s - String.length word) s)
  else None.

Fixpoint read_value (fuel : nat) (s : string) : option (jsval * string) :=
  match fuel with
  | O => None
  | S fuel' =>
      match skip_ws s with
      | String "n" _ as s1 => expect "null" VNull s1
      | String "t" _ as s1 => expect "true" (VBool true) s1
      | String "f" _ as s1 => expect "false" (VBool false) s1
      | String "034" s1 =>
          match read_string s1 with
          | Some (str, rest) => Some (VStr str, rest)
          | None => None
          end
      | String "[" s1 =>
          match skip_ws s1 with
          | String "]" rest => Some (VArr [], rest)
          | s2 => read_elements fuel' [] s2
          end
      | String "{" s1 =>
          match skip_ws s1 with
          | String "}" rest => Some (VObj [], rest)
          | s2 => read_members fuel' [] s2
          end
      | s1 =>
          match read_number s1 with
          | Some (n, rest) => Some (VNum n, rest)
          | None => None
          end
      end
  end

with read_elements (fuel : nat) (acc : list jsval) (s : string)
  : option (jsval * string) :=
  match fuel with
  | O => None
  | S fuel' =>
      match read_value fuel' s with
      | Some (v, rest) =>
          match skip_ws rest with
          | String "," rest' => read_elements fuel' (acc ++ [v]) rest'
          | String "]" rest' => Some (VArr (acc ++ [v]), rest')
          | _ => None
          end
      | None => None
      end
  end

with read_members (fuel : nat) (acc : list (string * jsval)) (s : string)
  : option (jsval * string) :=
  match fuel with
  | O => None
  | S fuel' =>
      match skip_ws s with
      | String "034" s1 =>
          match read_string s1 with
          | Some (k, rest) =>
              match skip_ws rest with
              | String ":" rest1 =>
                  match read_value fuel' rest1 with
                  | Some (v, rest2) =>
                      match skip_ws rest2 with
                      | String "," rest3 =>
                          read_members fuel' (obj_set acc k v) rest3
                      | String "}" rest3 => Some (VObj (obj_set acc k v), rest3)
                      | _ => None
                      end
                  | None => None
                  end
              | _ => None
              end
          | None => None
          end
      | _ => None
      end
  end.

Definition read_json (s : string) : parse_result :=
  match read_value (S (String.length s)) s with
  | Some (v, rest) =>
      match skip_ws rest with
      | EmptyString => Parsed v
      | String _ _ => SyntaxError "Unexpected non-whitespace character after JSON"
      end
  | None => SyntaxError "Unexpected token in JSON"
  end.

(* ================================================================= *)
(** ** The specification's vocabulary

    Definitions that follow the words of the specification, to be
    compared with the definitions taken from the source. *)

(** "An object or array". *)
Definition is_container (v : jsval) : bool :=
  match v with
  | VArr _ | VObj _ => true
  | _ => false
  end.

(** "The current value at P, taken as the empty object when that value
    is absent or not a non-array object". *)
Definition object_or_empty (v : jsval) : list (string * jsval) :=
  match v with
  | VObj o => o
  | _ => []
  end.

(** Field [k] of the object at path [P] of [R], if there is such an
    object and it has the field. *)
Definition field_at (R : jsval) (P : option Path) (k : string)
  : option jsval :=
  match getValueByPath R P with
  | VObj o => obj_lookup o k
  | _ => None
  end.

(** The merged object in the specification's words: the entries of [M]
    whose value is not an object or array overwrite their field, in
    order; the other entries are dropped beforehand. *)
Definition overwrite (b : list (string * jsval)) (kv : string * jsval)
  : list (string * jsval) :=
  obj_set b (fst kv) (snd kv).

Definition merged_object (current : jsval) (M : list (string * jsval))
  : list (string * jsval) :=
  fold_left overwrite
    (filter (fun kv => negb (is_container (snd kv))) M)
    (object_or_empty current).

(** Segments of the same kind: both integers or both strings. *)
Definition same_kind (p q : segment) : bool :=
  match p, q with
  | SNum _, SNum _ => true
  | SKey _, SKey _ => true
  | _, _ => false
  end.

Definition segment_eqb (p q : segment) : bool :=
  match p, q with
  | SNum n, SNum m => (n =? m)%nat
  | SKey s, SKey t => s =? t
  | _, _ => false
  end.

(** [Q] diverges from [P] at a segment where both are defined: they
    agree up to some position where both have a segment and the two
    segments differ. *)
Fixpoint diverges (P Q : Path) : bool :=
  match P, Q with
  | p :: P', q :: Q' => if segment_eqb p q then diverges P' Q' else true
  | _, _ => false
  end.

(** The same, with the two differing segments of the same kind. *)
Fixpoint diverges_alike (P Q : Path) : bool :=
  match P, Q with
  | p :: P', q :: Q' =>
      if segment_eqb p q then diverges_alike P' Q' else same_kind p q
  | _, _ => false
  end.

(** The same, with the two differing segments of different kinds. *)
Fixpoint diverges_across (P Q : Path) : bool :=
  match P, Q with
  | p :: P', q :: Q' =>
      if segment_eqb p q then diverges_across P' Q' else negb (same_kind p q)
  | _, _ => false
  end.

(** A row "has a key and is not tagged array or object". *)
Definition row_kept (row : NodeRow) : bool :=
  key_truthy (key row)
  && negb ((type row =? "array") || (type row =? "object")).

Definition row_entry (row : NodeRow) : string * jsval :=
  (key_string (key row), value row).

(** "The object built, in row order, from every row that has a key and
    is not tagged array or object". *)
Definition rows_object (rows : list NodeRow) : list (string * jsval) :=
  fold_left overwrite (map row_entry (filter row_kept rows)) [].

(** One bracketed segment: an integer as a bare number, a string
    between double quotes. *)
Definition bracketed (seg : segment) : string :=
  match seg with
  | SNum n => "[" ++ number_to_string (Z.of_nat n) ++ "]"
  | SKey s => "[" ++ dquote ++ s ++ dquote ++ "]"
  end.

Fixpoint bracketed_segments (p : Path) : string :=
  match p with
  | [] => ""
  | seg :: p' => bracketed seg ++ bracketed_segments p'
  end.

(** Two segments "compare equal by value": numbers to numbers, strings
    to strings, never a number to a string. *)
Definition equal_by_value (p q : segment) : Prop :=
  match p, q with
  | SNum n, SNum m => n = m
  | SKey s, SKey t => s = t
  | _, _ => False
  end.

(** A draft of the wrong shape for the node kind, as the handler tells
    the kinds: a node whose single row has a falsy key (absent or
    empty) given a non-null object or array, or any other node given an
    array or a non-object. *)
Definition single_keyless_row (nodeData : NodeData) : bool :=
  match text nodeData with
  | Some [row] => negb (key_truthy (key row))
  | _ => false
  end.

Definition plain_object (v : jsval) : bool :=
  match v with
  | VObj _ => true
  | _ => false
  end.

Definition shape_mismatch (nodeData : NodeData) (parsed : jsval) : bool :=
  if single_keyless_row nodeData then is_container parsed
  else negb (plain_object parsed).

(** The cells below [length h] are those of [h]. *)
Definition agree_below (h h' : heap) : Prop :=
  List.length h <= List.length h'
  /\ forall l, l < List.length h -> nth_error h' l = nth_error h l.

(** What an aborted save leaves behind: the same world, with one more
    message shown. *)
Definition aborted (w w' : World) : Prop :=
  setContents_calls w' = setContents_calls w
  /\ contents w' = contents w
  /\ hasChanges w' = hasChanges w
  /\ isEditing w' = isEditing w
  /\ draft w' = draft w
  /\ selectedNode w' = selectedNode w
  /\ nodes w' = nodes w
  /\ exists msg, alerts w' = (alerts w ++ [msg])%list.

(** A text between double quotes. *)
Definition quoted (s : string) : string := dquote ++ s ++ dquote.

(* ================================================================= *)
(** ** The rest of the component *)

(** The path [p] exists in [cur]: every segment finds a container of its
    kind, an index within the array, a key among the properties. *)
Fixpoint path_present (cur : jsval) (p : Path) : bool :=
  match p with
  | [] => true
  | SNum n :: rest =>
      match cur with
      | VArr l =>
          (n <? List.length l)%nat
          && path_present (arr_get VUndefined l n) rest
      | _ => false
      end
  | SKey k :: rest =>
      match cur with
      | VObj o =>
          match obj_lookup o k with
          | Some v => path_present v rest
          | None => false
          end
      | _ => false
      end
  end.

(** The entries of a proposal that the merge loop assigns. *)
Definition assigned (M : list (string * jsval)) : list (string * jsval) :=
  filter (fun kv => negb (is_container (snd kv))) M.

Definition setDraft (d : string) (w : World) : World :=
  mkWorld (contents w) (hasChanges w) (nodes w) (selectedNode w) (paths w)
    (isEditing w) d (alerts w) (setContents_calls w).

(** [nodeData?.text ?? []] *)
Definition text_or_empty (nodeData : option NodeData) : list NodeRow :=
  match nodeData with
  | Some nd =>
      match text nd with
      | Some rows => rows
      | None => []
      end
  | None => []
  end.

(** The memo [normalized]. *)
Definition normalized (w : World) : string :=
  normalizeNodeData (Some (text_or_empty (selectedNode w))).

(** The memo [isEditable]. *)
Definition isEditable (st : path_store) (nodeData : option NodeData) : bool :=
  match nodeData with
  | None => false
  | Some nd =>
      match path nd with
      | None => false
      | Some l =>
          if (List.length (st l) =? 0)%nat then false
          else
            match text nd with
            | None => false
            | Some rows =>
                if (List.length rows =? 0)%nat then false
                else
                  let onlyContainers :=
                    forallb (fun r => (type r =? "array") || (type r =? "object"))
                            rows in
                  if onlyContainers then false else true
            end
      end
  end.

(** The [onClick] callback of the Edit button. *)
Definition edit_onClick (w : World) : World :=
  if isEditable (paths w) (selectedNode w) then setIsEditing true w else w.

(** The [onClick] callback of the Cancel button. *)
Definition cancel_onClick (w : World) : World :=
  setIsEditing false (setDraft (normalized w) w).

(** The [onChange] callback of the text area. *)
Definition draft_onChange (text_value : string) (w : World) : World :=
  setDraft text_value w.

Section SyncEffect.
(** [a !== b] on two nodes compares references. *)
Variable same_node : NodeData -> NodeData -> bool.
(** [JSON.stringify(text ?? [])] on a row list; the rows carry fields
    that the component does not read. *)
Variable rows_text : list NodeRow -> string.

(** The effect that keeps the selected node in sync with the graph. *)
Definition sync_selection (w : World) : World :=
  match selectedNode w with
  | None => w
  | Some nodeData =>
      match path nodeData with
      | None => w
      | Some _ =>
          if (List.length (nodes w) =? 0)%nat then w
          else
            match find (fun n => pathsEqual (paths w) (path n) (path nodeData))
                       (nodes w) with
            | None => w
            | Some matched =>
                let currentText := rows_text (text_or_empty (Some nodeData)) in
                let nextText := rows_text (text_or_empty (Some matched)) in
                if negb (same_node nodeData matched)
                   || negb (currentText =? nextText)
                then setSelectedNode matched w
                else w
            end
      end
  end.
End SyncEffect.

(** The effect that resets the session when [normalized] changes. *)
Definition reset_effect (w : World) : World :=
  setIsEditing false (setDraft (normalized w) w).

(** What happens in the modal: what the user does, and the two effects,
    which the framework runs after a render. *)
Inductive ui_event : Type :=
| ClickEdit
| ClickCancel
| ChangeDraft (text_value : string)
| ClickSave
| EffectReset
| EffectSync.

Section Session.
Variable JSON_parse : string -> parse_result.
Variable pipeline :
  option string -> list NodeData * path_store -> list NodeData * path_store.
(** [String.prototype.trim] belongs to the runtime. *)
Variable trim : string -> string.
Variable same_node : NodeData -> NodeData -> bool.
Variable rows_text : list NodeRow -> string.

Definition isDraftNonEmpty (w : World) : bool :=
  (0 <? String.length (trim (draft w)))%nat.

Definition isDraftParseable (w : World) : bool :=
  if negb (isDraftNonEmpty w) then false
  else
    match JSON_parse (draft w) with
    | Parsed _ => true
    | SyntaxError _ => false
    end.

(** The [disabled] attribute of the Save button. *)
Definition save_disabled (w : World) : bool :=
  negb (isDraftNonEmpty w) || negb (isDraftParseable w).

(** An event reaches its callback only when its control is rendered and
    enabled: the Edit button outside edit mode, the Save and Cancel
    buttons and the text area in edit mode, the Save button unless
    disabled. *)
Definition handle (w : World) (ev : ui_event) : World :=
  match ev with
  | ClickEdit => if isEditing w then w else edit_onClick w
  | ClickCancel => if isEditing w then cancel_onClick w else w
  | ChangeDraft text_value =>
      if isEditing w then draft_onChange text_value w else w
  | ClickSave =>
      if isEditing w && negb (save_disabled w)
      then save_onClick JSON_parse pipeline w else w
  | EffectReset => reset_effect w
  | EffectSync => sync_selection same_node rows_text w
  end.

Definition run (evs : list ui_event) (w : World) : World :=
  fold_left handle evs w.
End Session.

(** The new root a save commits, from the parsed document and draft. *)
Definition committed_root (w : World) (nodeData : NodeData)
  (root parsed : jsval) : jsval :=
  if single_keyless_row nodeData
  then setValueByPath root (node_path w nodeData) parsed
  else mergePrimitivesAtPath root (node_path w nodeData) (spread_props parsed).

Definition is_save (ev : ui_event) : bool :=
  match ev with
  | ClickSave => true
  | _ => false
  end.

(** The message of the defensive branch for an unparseable draft. *)
Definition draft_message (msg : string) : Prop :=
  exists message, msg = "Invalid JSON in editor: " ++ message.

(** What one event adds to the log of calls and to the messages. *)
Definition step_summary (w w' : World) (budget : nat) : Prop :=
  exists calls msgs,
    setContents_calls w' = (setContents_calls w ++ calls)%list
    /\ List.length calls <= budget
    /\ Forall (fun cb => snd cb = true) calls
    /\ contents w' = last (map fst calls) (contents w)
    /\ alerts w' = (alerts w ++ msgs)%list
    /\ Forall (fun msg => ~ draft_message msg) msgs.

(* ================================================================= *)
(** ** Property access in the engine

    The functions above read the source on JSON data: an object is its
    own-property table, [obj[key]] looks the key up in it and
    [obj[key] = v] stores into it.  The engine does more for the names
    that a plain object inherits from [Object.prototype].  A read of a
    key that is not an own property yields the inherited member when
    there is one: a built-in function, or [Object.prototype] itself for
    [__proto__].  An assignment to [__proto__], when the object has no
    own property of that name, reaches the inherited setter: it creates
    no property; a primitive value is ignored, [null] or an object
    replaces the prototype of the receiver.  Every other assignment
    creates or updates an own property.

    The functions below follow the source with these rules.  The two
    readings agree on paths and keys that do not name an inherited
    member; what the difference breaks is stated on the functions
    below.  A write returns [None] when its result is no
    value of the model: an object whose prototype has been replaced, or
    an array that has got an ordinary property because an integer
    segment was no array index. *)

Definition object_prototype_members : list string :=
  ["constructor"; "__defineGetter__"; "__defineSetter__"; "hasOwnProperty";
   "__lookupGetter__"; "__lookupSetter__"; "isPrototypeOf";
   "propertyIsEnumerable"; "toString"; "valueOf"; "__proto__";
   "toLocaleString"].

Definition inherited_name (k : string) : bool :=
  existsb (String.eqb k) object_prototype_members.

(** What a read yields: a value of the model, or the member [k] that a
    plain object inherits ([Object.prototype] for [__proto__], a
    built-in function for the other names). *)
Inductive read_result : Type :=
| Found (v : jsval)
| Inherited (k : string).

(** [obj[key]] on a plain object with own properties [o]. *)
Definition prop_read (o : list (string * jsval)) (k : string) : read_result :=
  match obj_lookup o k with
  | Some v => Found v
  | None => if inherited_name k then Inherited k else Found VUndefined
  end.

(** [Object.prototype[key]]: its own members; its [__proto__] is
    [null]. *)
Definition prototype_read (k : string) : read_result :=
  if k =? "__proto__" then Found VNull
  else if inherited_name k then Inherited k
  else Found VUndefined.

(** The loop of [getValueByPath].  On [Object.prototype] the loop goes
    on as on any object that is not an array; on a function [typeof] is
    not ["object"] and [Array.isArray] fails. *)
Fixpoint engine_get_loop (cur : read_result) (path : Path) : read_result :=
  match path with
  | [] => cur
  | seg :: rest =>
      match cur with
      | Found v =>
          if is_undefined v || is_null v then Found VUndefined
          else
            match seg with
            | SNum n =>
                if negb (Array_isArray v) then Found VUndefined
                else engine_get_loop
                       (Found (arr_get VUndefined (spread_elems v) n)) rest
            | SKey k =>
                if negb (typeof v =? "object") || Array_isArray v
                then Found VUndefined
                else engine_get_loop (prop_read (spread_props v) k) rest
            end
      | Inherited m =>
          if m =? "__proto__" then
            match seg with
            | SNum _ => Found VUndefined
            | SKey k => engine_get_loop (prototype_read k) rest
            end
          else Found VUndefined
      end
  end.

Definition engine_getValueByPath (root : jsval) (path : option Path)
  : read_result :=
  match path with
  | None => Found root
  | Some p =>
      if (List.length p =? 0)%nat then Found root
      else engine_get_loop (Found root) p
  end.

(** [obj[key] = v] on a plain object with own properties [o].  [None]:
    the assignment has replaced the prototype of the object, which is
    then no value of the model. *)
Definition engine_assign (o : list (string * jsval)) (k : string) (v : jsval)
  : option (list (string * jsval)) :=
  match obj_lookup o k with
  | Some _ => Some (obj_set o k v)
  | None =>
      if k =? "__proto__" then
        if is_null v || (typeof v =? "object") then None else Some o
      else Some (obj_set o k v)
  end.

(** What the guards of [setAt] see in the result of a read: an
    inherited function is neither an array nor of type ["object"], and
    [{...Object.prototype}] has no property, so either is taken as
    [undefined] is. *)
Definition as_node (r : read_result) : jsval :=
  match r with
  | Found v => v
  | Inherited _ => VUndefined
  end.

(** An integer is an array index of the engine when it is below
    2^32 - 1; [arr[idx] = v] extends the array for such an index only. *)
Definition is_array_index (idx : nat) : bool :=
  (N.of_nat idx <? 4294967295)%N.

(** The local function [setAt].  [None]: the result is no value of the
    model, because an assignment has replaced a prototype, or because an
    integer segment is not an array index, so that the assignment has
    created an ordinary property on the array. *)
Fixpoint engine_setAt (value : jsval) (node : jsval) (head : segment)
  (rest : Path) : option jsval :=
  match head with
  | SNum idx =>
      let arr := if Array_isArray node then spread_elems node else [] in
      let current := arr_get VUndefined arr idx in
      match
        match rest with
        | [] => Some value
        | head' :: rest' => engine_setAt value current head' rest'
        end
      with
      | Some x =>
          if is_array_index idx
          then Some (VArr (arr_set VUndefined arr idx x))
          else None
      | None => None
      end
  | SKey key =>
      let obj :=
        if truthy node && (typeof node =? "object") && negb (Array_isArray node)
        then spread_props node else [] in
      match
        match rest with
        | [] => Some value
        | head' :: rest' =>
            engine_setAt value (as_node (prop_read obj key)) head' rest'
        end
      with
      | Some x => option_map VObj (engine_assign obj key x)
      | None => None
      end
  end.

Definition engine_setValueByPath (root : jsval) (path : option Path)
  (value : jsval) : option jsval :=
  match path with
  | None => Some value
  | Some [] => Some value
  | Some (head :: rest) => engine_setAt value root head rest
  end.

(** The loop of [mergePrimitivesAtPath]; once the prototype of [base]
    has been replaced the result stays outside the model. *)
Definition engine_merge_step (base : option (list (string * jsval)))
  (kv : string * jsval) : option (list (string * jsval)) :=
  match base with
  | None => None
  | Some b =>
      let (k, v) := kv in
      if negb (is_null v) && (typeof v =? "object") then Some b
      else engine_assign b k v
  end.

Definition engine_mergePrimitivesAtPath (root : jsval) (path : option Path)
  (partial : list (string * jsval)) : option jsval :=
  let target := as_node (engine_getValueByPath root path) in
  let base :=
    if truthy target && (typeof target =? "object") && negb (Array_isArray target)
    then spread_props target else [] in
  match fold_left engine_merge_step partial (Some base) with
  | Some merged => engine_setValueByPath root path (VObj merged)
  | None => None
  end.

(** The body of the [forEach] callback of [normalizeNodeData], on the
    fresh object [{}]. *)
Definition engine_normalize_step (obj : option (list (string * jsval)))
  (row : NodeRow) : option (list (string * jsval)) :=
  match obj with
  | None => None
  | Some o =>
      if negb (type row =? "array") && negb (type row =? "object") then
        if key_truthy (key row)
        then engine_assign o (key_string (key row)) (value row)
        else Some o
      else Some o
  end.

Definition engine_normalizeNodeData (nodeRows : option (list NodeRow))
  : option string :=
  match nodeRows with
  | None => Some "{}"
  | Some rows =>
      if (List.length rows =? 0)%nat then Some "{}"
      else
        let serialised :=
          option_map (fun obj => JSON_stringify_object obj 2)
            (fold_left engine_normalize_step rows (Some [])) in
        match rows with
        | [row0] =>
            if negb (key_truthy (key row0)) then Some (to_string (value row0))
            else serialised
        | _ => serialised
        end
  end.

(** An assignment of the entry, in the engine. *)
Definition engine_overwrite (acc : option (list (string * jsval)))
  (kv : string * jsval) : option (list (string * jsval)) :=
  match acc with
  | None => None
  | Some o => engine_assign o (fst kv) (snd kv)
  end.

(** The entry can replace the prototype of the object it is assigned
    to: its key is [__proto__] and its value is [null] or an object. *)
Definition replaces_prototype (kv : string * jsval) : bool :=
  (fst kv =? "__proto__") && (is_null (snd kv) || (typeof (snd kv) =? "object")).

(** No string segment of the path is [__proto__]. *)
Definition proto_free (P : Path) : bool :=
  forallb (fun seg => match seg with
                      | SKey k => negb (k =? "__proto__")
                      | SNum _ => true
                      end) P.

Definition path_proto_free (P : option Path) : bool :=
  match P with
  | Some p => proto_free p
  | None => true
  end.

(** No string segment of the path names a member of
    [Object.prototype]. *)
Definition inherit_free (P : Path) : bool :=
  forallb (fun seg => match seg with
                      | SKey k => negb (inherited_name k)
                      | SNum _ => true
                      end) P.

(** Every integer segment is an array index of the engine, below
    2^32 - 1. *)
Definition indices_bounded (P : Path) : bool :=
  forallb (fun seg => match seg with
                      | SNum n => is_array_index n
                      | SKey _ => true
                      end) P.

(** A path that the writer can follow within the model: no segment
    [__proto__], and array indices for integers. *)
Definition writable (P : Path) : bool :=
  proto_free P && indices_bounded P.

Definition path_writable (P : option Path) : bool :=
  match P with
  | Some p => writable p
  | None => true
  end.

(** The integers that a number of the engine holds exactly and prints
    as their decimal numeral: up to 2^53 in magnitude. *)
Definition safe_integer (n : Z) : bool :=
  (Z.abs n <=? 9007199254740992)%Z.

Fixpoint safe_value (v : jsval) : bool :=
  match v with
  | VNum n => safe_integer n
  | VArr l => forallb safe_value l
  | VObj o => forallb (fun kx => safe_value (snd kx)) o
  | _ => true
  end.

(** The values that a template literal renders as [to_string] does:
    the conversion of an object to text calls its [toString], which
    must not be hidden by an own property of that name, and a number
    is printed as its numeral. *)
Fixpoint text_safe (v : jsval) : bool :=
  match v with
  | VNum n => safe_integer n
  | VArr l => forallb text_safe l
  | VObj o => negb (existsb (fun kx => fst kx =? "toString") o)
  | _ => true
  end.

(** The element or property of [node] that a segment addresses, as
    [setAt] and [getValueByPath] both find it. *)
Definition child (node : jsval) (seg : segment) : jsval :=
  match seg with
  | SNum n => arr_get VUndefined (spread_elems node) n
  | SKey k => obj_get VUndefined (object_or_empty node) k
  end.

(** [node] is a container of the kind that [q] addresses. *)
Definition holds_kind (node : jsval) (q : segment) : bool :=
  match q, node with
  | SNum _, VArr _ => true
  | SKey _, VObj _ => true
  | _, _ => false
  end.

(** Where [P] and [Q] part, their segments are of different kinds and
    the document holds a container of the kind [Q] addresses: a write
    through [P] replaces that container by one of the other kind. *)
Fixpoint clobbers (node : jsval) (P Q : Path) : bool :=
  match P, Q with
  | p :: P', q :: Q' =>
      if segment_eqb p q then clobbers (child node p) P' Q'
      else negb (same_kind p q) && holds_kind node q
  | _, _ => false
  end.

(** A row "has a key", read as: its key is present. *)
Definition row_listed (row : NodeRow) : bool :=
  match key row with
  | Some _ => negb ((type row =? "array") || (type row =? "object"))
  | None => false
  end.

Definition listed_object (rows : list NodeRow) : list (string * jsval) :=
  fold_left overwrite (map row_entry (filter row_listed rows)) [].

(* ================================================================= *)
(** * Properties *)

(** ** Arrays and property tables *)

Section ContainerFacts.
Context {A : Type}.
Variable undef : A.

Lemma arr_get_set_same (l : list A) (idx : nat) (v : A) :
  arr_get undef (arr_set undef l idx v) idx = v.
Proof.
  unfold arr_get. revert l.
  induction idx as [|i IH]; intros [|x t]; simpl; auto.
Qed.

Lemma nth_nil_undef (j : nat) : nth j (@nil A) undef = undef.
Proof. destruct j; reflexivity. Qed.

Lemma arr_get_set_other (l : list A) (i j : nat) (v : A) :
  i <> j -> arr_get undef (arr_set undef l i v) j = arr_get undef l j.
Proof.
  unfold arr_get. revert l j.
  induction i as [|i IH]; intros [|x t] [|j] Hij; simpl; try congruence.
  - now destruct j.
  - rewrite IH by congruence. apply nth_nil_undef.
  - apply IH. congruence.
Qed.

Lemma obj_lookup_replace_same (o : list (string * A)) k v :
  obj_lookup o k <> None -> obj_lookup (obj_replace o k v) k = Some v.
Proof.
  induction o as [|[k' v'] o IH]; simpl; intros H; [congruence|].
  destruct (k' =? k) eqn:E; simpl.
  - now rewrite String.eqb_refl.
  - rewrite E. auto.
Qed.

Lemma obj_lookup_replace_other (o : list (string * A)) k k' v :
  k <> k' -> obj_lookup (obj_replace o k v) k' = obj_lookup o k'.
Proof.
  intros Hk. induction o as [|[k0 v0] o IH]; simpl; [reflexivity|].
  destruct (k0 =? k) eqn:E; simpl.
  - apply String.eqb_eq in E. subst k0.
    apply String.eqb_neq in Hk. now rewrite Hk.
  - now rewrite IH.
Qed.

Lemma obj_lookup_insert_same (o : list (string * A)) n k v :
  obj_lookup o k = None -> obj_lookup (obj_insert_index o n k v) k = Some v.
Proof.
  induction o as [|[k' v'] o IH]; simpl; intros H.
  - now rewrite String.eqb_refl.
  - destruct (k' =? k) eqn:E; [discriminate|].
    destruct (array_index k') as [n'|]; [destruct (n' <? n)%N|]; simpl;
      rewrite ?E, ?String.eqb_refl; auto.
Qed.

Lemma obj_lookup_insert_other (o : list (string * A)) n k k' v :
  k <> k' -> obj_lookup (obj_insert_index o n k v) k' = obj_lookup o k'.
Proof.
  intros Hk. apply String.eqb_neq in Hk.
  induction o as [|[k0 v0] o IH]; simpl.
  - now rewrite Hk.
  - destruct (array_index k0) as [n'|]; [destruct (n' <? n)%N|]; simpl;
      rewrite ?Hk, ?IH; reflexivity.
Qed.

Lemma obj_lookup_app (o : list (string * A)) k v k' :
  obj_lookup (o ++ [(k, v)]) k' =
  match obj_lookup o k' with
  | Some x => Some x
  | None => if k =? k' then Some v else None
  end.
Proof.
  induction o as [|[k0 v0] o IH]; simpl; [reflexivity|].
  destruct (k0 =? k'); auto.
Qed.

Lemma obj_lookup_set_same (o : list (string * A)) k v :
  obj_lookup (obj_set o k v) k = Some v.
Proof.
  unfold obj_set. destruct (obj_lookup o k) eqn:E.
  - apply obj_lookup_replace_same. congruence.
  - destruct (array_index k).
    + now apply obj_lookup_insert_same.
    + rewrite obj_lookup_app, E. now rewrite String.eqb_refl.
Qed.

Lemma obj_lookup_set_other (o : list (string * A)) k k' v :
  k <> k' -> obj_lookup (obj_set o k v) k' = obj_lookup o k'.
Proof.
  intros Hk. unfold obj_set. destruct (obj_lookup o k).
  - now apply obj_lookup_replace_other.
  - destruct (array_index k).
    + now apply obj_lookup_insert_other.
    + rewrite obj_lookup_app. apply String.eqb_neq in Hk. rewrite Hk.
      now destruct (obj_lookup o k').
Qed.

Lemma obj_get_set_same (o : list (string * A)) k v :
  obj_get undef (obj_set o k v) k = v.
Proof. unfold obj_get. now rewrite obj_lookup_set_same. Qed.

Lemma obj_get_set_other (o : list (string * A)) k k' v :
  k <> k' -> obj_get undef (obj_set o k v) k' = obj_get undef o k'.
Proof. intros H. unfold obj_get. now rewrite obj_lookup_set_other. Qed.
End ContainerFacts.

(* ================================================================= *)
(** ** Reading and writing by path *)

Lemma get_loop_undefined (Q : Path) : get_loop VUndefined Q = VUndefined.
Proof. destruct Q; reflexivity. Qed.

Lemma arr_get_nil (j : nat) : arr_get VUndefined [] j = VUndefined.
Proof. apply nth_nil_undef. Qed.

Lemma segment_eqb_eq (p q : segment) : segment_eqb p q = true <-> p = q.
Proof.
  destruct p as [n|s], q as [m|t]; simpl; split; intros H;
    try discriminate; try (inversion H; subst).
  - apply Nat.eqb_eq in H. now subst.
  - apply Nat.eqb_refl.
  - apply String.eqb_eq in H. now subst.
  - apply String.eqb_refl.
Qed.

Lemma segment_eqb_neq (p q : segment) : segment_eqb p q = false <-> p <> q.
Proof.
  split; intros H.
  - intros E. apply segment_eqb_eq in E. congruence.
  - destruct (segment_eqb p q) eqn:E; [|reflexivity].
    apply segment_eqb_eq in E. contradiction.
Qed.

(** The guard of [setAt] and of [mergePrimitivesAtPath] selects the
    plain objects. *)
Lemma plain_object_guard (node : jsval) :
  (if truthy node && (typeof node =? "object") && negb (Array_isArray node)
   then spread_props node else []) = object_or_empty node.
Proof. destruct node as [| |[|]|n|s|l|o]; try reflexivity.
  - simpl. now destruct (n =? 0)%Z.
  - simpl. now destruct (s =? "").
Qed.

Lemma array_guard (node : jsval) :
  (if Array_isArray node then spread_elems node else []) = spread_elems node.
Proof. now destruct node. Qed.

(** The skip test of the merge loop selects the objects and arrays. *)
Lemma container_guard (v : jsval) :
  negb (is_null v) && (typeof v =? "object") = is_container v.
Proof. now destruct v as [| |[|]|n|s|l|o]. Qed.

(** The equations of [get_loop] and [setAt] used below. *)
Lemma get_loop_arr (l : list jsval) (n : nat) (rest : Path) :
  get_loop (VArr l) (SNum n :: rest) = get_loop (arr_get VUndefined l n) rest.
Proof. reflexivity. Qed.

Lemma get_loop_obj (o : list (string * jsval)) (k : string) (rest : Path) :
  get_loop (VObj o) (SKey k :: rest) = get_loop (obj_get VUndefined o k) rest.
Proof. reflexivity. Qed.

Lemma get_loop_not_arr (node : jsval) (n : nat) (rest : Path) :
  Array_isArray node = false -> get_loop node (SNum n :: rest) = VUndefined.
Proof. now destruct node. Qed.

Lemma get_loop_not_obj (node : jsval) (k : string) (rest : Path) :
  plain_object node = false -> get_loop node (SKey k :: rest) = VUndefined.
Proof. now destruct node. Qed.

Lemma setAt_num (value node : jsval) (idx : nat) (rest : Path) :
  setAt value node (SNum idx) rest =
  VArr (arr_set VUndefined (spread_elems node) idx
          (setAt_stored value (arr_get VUndefined (spread_elems node) idx) rest)).
Proof. destruct rest; cbn -[arr_get arr_set]; now rewrite array_guard. Qed.

Lemma setAt_key (value node : jsval) (k : string) (rest : Path) :
  setAt value node (SKey k) rest =
  VObj (obj_set (object_or_empty node) k
          (setAt_stored value (obj_get VUndefined (object_or_empty node) k) rest)).
Proof.
  destruct rest; cbn -[obj_get obj_set truthy]; now rewrite plain_object_guard.
Qed.

Lemma get_loop_setAt (rest : Path) :
  forall value node head,
    get_loop (setAt value node head rest) (head :: rest) = value.
Proof.
  induction rest as [|h r IH]; intros value node [idx|k];
    rewrite ?setAt_num, ?setAt_key, ?get_loop_arr, ?get_loop_obj,
      ?arr_get_set_same, ?obj_get_set_same; cbn [setAt_stored];
    auto.
Qed.

Lemma get_loop_setAt_differ (P' Q' : Path) (p q : segment) (value node : jsval) :
  p <> q -> same_kind p q = true ->
  get_loop (setAt value node p P') (q :: Q') = get_loop node (q :: Q').
Proof.
  intros Hpq Hk. destruct p as [i|k], q as [j|k']; try discriminate.
  - rewrite setAt_num, get_loop_arr, arr_get_set_other by congruence.
    destruct node; try (rewrite get_loop_not_arr by reflexivity);
      cbn [spread_elems]; rewrite ?arr_get_nil, ?get_loop_undefined;
      reflexivity.
  - rewrite setAt_key, get_loop_obj, obj_get_set_other by congruence.
    destruct node; try (rewrite get_loop_not_obj by reflexivity);
      cbn [object_or_empty]; unfold obj_get; cbn [obj_lookup];
      rewrite ?get_loop_undefined; reflexivity.
Qed.

Lemma get_loop_setAt_frame :
  forall (P' : Path) (p : segment) (Q : Path) (value node : jsval),
    diverges_alike (p :: P') Q = true ->
    get_loop (setAt value node p P') Q = get_loop node Q.
Proof.
  induction P' as [|p' P'' IH]; intros p [|q Q'] value node H;
    simpl in H; try discriminate;
    destruct (segment_eqb p q) eqn:E; try discriminate;
    try (apply segment_eqb_neq in E; now apply get_loop_setAt_differ).
  apply segment_eqb_eq in E. subst q.
  destruct p as [i|k].
  - rewrite setAt_num, get_loop_arr, arr_get_set_same.
    cbn [setAt_stored]. rewrite (IH _ _ _ _ H).
    destruct node; try (rewrite get_loop_not_arr by reflexivity);
      cbn [spread_elems]; rewrite ?arr_get_nil, ?get_loop_undefined;
      reflexivity.
  - rewrite setAt_key, get_loop_obj, obj_get_set_same.
    cbn [setAt_stored]. rewrite (IH _ _ _ _ H).
    destruct node; try (rewrite get_loop_not_obj by reflexivity);
      cbn [object_or_empty]; unfold obj_get; cbn [obj_lookup];
      rewrite ?get_loop_undefined; reflexivity.
Qed.

Lemma get_set_roundtrip (root : jsval) (path : option Path) (value : jsval) :
  getValueByPath (setValueByPath root path value) path = value.
Proof.
  destruct path as [[|head rest]|]; try reflexivity.
  apply get_loop_setAt.
Qed.

Lemma get_set_frame (root value : jsval) (P Q : Path) :
  diverges_alike P Q = true ->
  getValueByPath (setValueByPath root (Some P) value) (Some Q)
  = getValueByPath root (Some Q).
Proof.
  intros H. destruct P as [|p P']; [discriminate|].
  destruct Q as [|q Q']; [discriminate|].
  now apply get_loop_setAt_frame.
Qed.

(** Across kinds the writer installs a container of the kind of its own
    segment, so the read through the other path finds nothing. *)
Lemma get_loop_setAt_across :
  forall (P' : Path) (p : segment) (Q : Path) (value node : jsval),
    diverges_across (p :: P') Q = true ->
    get_loop (setAt value node p P') Q = VUndefined.
Proof.
  induction P' as [|p' P'' IH]; intros p [|q Q'] value node H;
    simpl in H; try discriminate;
    destruct (segment_eqb p q) eqn:E; try discriminate.
  - destruct p, q; try discriminate;
      now rewrite ?setAt_num, ?setAt_key.
  - apply segment_eqb_eq in E. subst q.
    destruct p as [i|k];
      rewrite ?setAt_num, ?setAt_key, ?get_loop_arr, ?get_loop_obj,
        ?arr_get_set_same, ?obj_get_set_same;
      cbn [setAt_stored]; now apply IH.
  - destruct p, q; try discriminate;
      now rewrite ?setAt_num, ?setAt_key.
Qed.

Lemma diverges_split (P Q : Path) :
  diverges P Q = diverges_alike P Q || diverges_across P Q.
Proof.
  revert Q. induction P as [|p P IH]; intros [|q Q]; try reflexivity.
  cbn [diverges diverges_alike diverges_across].
  destruct (segment_eqb p q); [apply IH|]. now destruct (same_kind p q).
Qed.

(* ================================================================= *)
(** ** The merge loop *)

Lemma merge_step_skip (base : list (string * jsval)) k v :
  is_container v = true -> merge_step base (k, v) = base.
Proof. intros H. unfold merge_step. now rewrite container_guard, H. Qed.

Lemma merge_step_assign (base : list (string * jsval)) k v :
  is_container v = false -> merge_step base (k, v) = obj_set base k v.
Proof. intros H. unfold merge_step. now rewrite container_guard, H. Qed.

Lemma merge_loop_filter (M : list (string * jsval)) :
  forall base,
    fold_left merge_step M base
    = fold_left overwrite (filter (fun kv => negb (is_container (snd kv))) M) base.
Proof.
  induction M as [|[k v] M IH]; intros base; [reflexivity|].
  cbn [fold_left filter snd]. destruct (is_container v) eqn:E; cbn [negb].
  - rewrite merge_step_skip by assumption. apply IH.
  - rewrite merge_step_assign by assumption. cbn [fold_left]. apply IH.
Qed.

Lemma merge_unfold (R : jsval) (P : option Path) (M : list (string * jsval)) :
  mergePrimitivesAtPath R P M
  = setValueByPath R P
      (VObj (fold_left merge_step M (object_or_empty (getValueByPath R P)))).
Proof. unfold mergePrimitivesAtPath. now rewrite plain_object_guard. Qed.

Lemma merge_loop_keeps (M : list (string * jsval)) (k : string) :
  forall base,
    obj_lookup base k <> None ->
    obj_lookup (fold_left merge_step M base) k <> None.
Proof.
  induction M as [|[k' v] M IH]; intros base H; [exact H|].
  cbn [fold_left]. apply IH.
  destruct (is_container v) eqn:E.
  - now rewrite merge_step_skip.
  - rewrite merge_step_assign by assumption.
    destruct (String.eqb_spec k' k) as [->|Hne].
    + now rewrite obj_lookup_set_same.
    + now rewrite obj_lookup_set_other.
Qed.

Lemma merge_loop_skips (M : list (string * jsval)) (k : string) :
  (forall v, In (k, v) M -> is_container v = true) ->
  forall base,
    obj_lookup (fold_left merge_step M base) k = obj_lookup base k.
Proof.
  induction M as [|[k' v] M IH]; intros H base; [reflexivity|].
  cbn [fold_left]. rewrite IH by (intros v' Hin; apply H; now right).
  destruct (is_container v) eqn:E.
  - now rewrite merge_step_skip.
  - rewrite merge_step_assign by assumption.
    apply obj_lookup_set_other. intros ->.
    rewrite (H v) in E; [discriminate|now left].
Qed.

Lemma field_at_merge (R : jsval) (P : option Path) (M : list (string * jsval))
  (k : string) :
  field_at (mergePrimitivesAtPath R P M) P k
  = obj_lookup (fold_left merge_step M (object_or_empty (getValueByPath R P))) k.
Proof. unfold field_at. now rewrite merge_unfold, get_set_roundtrip. Qed.

Lemma field_at_current (R : jsval) (P : option Path) (k : string) :
  field_at R P k = obj_lookup (object_or_empty (getValueByPath R P)) k.
Proof. unfold field_at. now destruct (getValueByPath R P). Qed.

(* ================================================================= *)
(** ** Where the engine and the JSON reading agree *)

Lemma engine_assign_plain (o : list (string * jsval)) (k : string) (v : jsval) :
  k <> "__proto__" -> engine_assign o k v = Some (obj_set o k v).
Proof.
  intros Hk. unfold engine_assign. apply String.eqb_neq in Hk.
  rewrite Hk. now destruct (obj_lookup o k).
Qed.

Lemma as_node_prop_read (o : list (string * jsval)) (k : string) :
  as_node (prop_read o k) = obj_get VUndefined o k.
Proof.
  unfold prop_read, obj_get. destruct (obj_lookup o k); [reflexivity|].
  now destruct (inherited_name k).
Qed.

Lemma prop_read_plain (o : list (string * jsval)) (k : string) :
  inherited_name k = false -> prop_read o k = Found (obj_get VUndefined o k).
Proof.
  intros Hk. unfold prop_read, obj_get. rewrite Hk.
  now destruct (obj_lookup o k).
Qed.

Lemma prop_read_set_same (o : list (string * jsval)) (k : string) (v : jsval) :
  prop_read (obj_set o k v) k = Found v.
Proof. unfold prop_read. now rewrite obj_lookup_set_same. Qed.

Lemma proto_free_cons (seg : segment) (P : Path) :
  proto_free (seg :: P) = true ->
  (forall k, seg = SKey k -> k <> "__proto__") /\ proto_free P = true.
Proof.
  cbn [proto_free forallb]. intros H. apply andb_true_iff in H.
  destruct H as [Hseg HP]. split; [|exact HP].
  intros k ->. apply negb_true_iff in Hseg. now apply String.eqb_neq.
Qed.

Lemma inherit_free_cons (seg : segment) (P : Path) :
  inherit_free (seg :: P) = true ->
  (forall k, seg = SKey k -> inherited_name k = false)
  /\ inherit_free P = true.
Proof.
  cbn [inherit_free forallb]. intros H. apply andb_true_iff in H.
  destruct H as [Hseg HP]. split; [|exact HP].
  intros k ->. now apply negb_true_iff in Hseg.
Qed.

(** The equations of the engine's loop. *)
Lemma engine_get_loop_arr (l : list jsval) (n : nat) (rest : Path) :
  engine_get_loop (Found (VArr l)) (SNum n :: rest)
  = engine_get_loop (Found (arr_get VUndefined l n)) rest.
Proof. reflexivity. Qed.

Lemma engine_get_loop_obj (o : list (string * jsval)) (k : string)
  (rest : Path) :
  engine_get_loop (Found (VObj o)) (SKey k :: rest)
  = engine_get_loop (prop_read o k) rest.
Proof. reflexivity. Qed.

Lemma engine_get_loop_undefined (Q : Path) :
  engine_get_loop (Found VUndefined) Q = Found VUndefined.
Proof. destruct Q; reflexivity. Qed.

Lemma engine_get_loop_function (k : string) (seg : segment) (rest : Path) :
  k <> "__proto__" ->
  engine_get_loop (Inherited k) (seg :: rest) = Found VUndefined.
Proof.
  intros Hk. apply String.eqb_neq in Hk. cbn [engine_get_loop].
  now rewrite Hk.
Qed.

Lemma indices_bounded_cons (seg : segment) (P : Path) :
  indices_bounded (seg :: P) = true ->
  (forall n, seg = SNum n -> is_array_index n = true)
  /\ indices_bounded P = true.
Proof.
  cbn [indices_bounded forallb]. intros H. apply andb_true_iff in H.
  destruct H as [Hseg HP]. split; [|exact HP]. now intros n ->.
Qed.

Lemma writable_split (P : Path) :
  writable P = true -> proto_free P = true /\ indices_bounded P = true.
Proof. intros H. now apply andb_true_iff in H. Qed.

Lemma path_writable_proto_free (P : option Path) :
  path_writable P = true -> path_proto_free P = true.
Proof.
  destruct P as [p|]; [|reflexivity]. intros H.
  now apply writable_split in H.
Qed.

(** The engine's write is the write of the JSON reading on a path
    without [__proto__] whose integers are array indices. *)
Lemma engine_setAt_agrees (value : jsval) :
  forall (rest : Path) (head : segment) (node : jsval),
    proto_free (head :: rest) = true ->
    indices_bounded (head :: rest) = true ->
    engine_setAt value node head rest = Some (setAt value node head rest).
Proof.
  induction rest as [|head' rest' IH]; intros head node H Hb;
    apply proto_free_cons in H; destruct H as [Hhead Hrest];
    apply indices_bounded_cons in Hb; destruct Hb as [Hidx Hb].
  - destruct head as [idx|key]; cbn [engine_setAt setAt].
    + now rewrite (Hidx idx eq_refl).
    + now rewrite engine_assign_plain by now apply Hhead.
  - destruct head as [idx|key]; cbn [engine_setAt setAt].
    + now rewrite IH, (Hidx idx eq_refl).
    + rewrite as_node_prop_read, IH by assumption.
      now rewrite engine_assign_plain by now apply Hhead.
Qed.

Lemma engine_setValueByPath_agrees (R V : jsval) (P : option Path) :
  path_writable P = true ->
  engine_setValueByPath R P V = Some (setValueByPath R P V).
Proof.
  destruct P as [[|head rest]|]; try reflexivity.
  intros H. apply writable_split in H. destruct H as [Hp Hb].
  now apply engine_setAt_agrees.
Qed.

(** The engine's read is the read of the JSON reading on a path without
    inherited names. *)
Lemma engine_get_loop_agrees :
  forall (P : Path) (R : jsval),
    inherit_free P = true ->
    engine_get_loop (Found R) P = Found (get_loop R P).
Proof.
  induction P as [|[n|k] P IH]; intros R H; [reflexivity| |];
    apply inherit_free_cons in H; destruct H as [Hseg HP].
  - destruct R; try reflexivity.
    rewrite engine_get_loop_arr, get_loop_arr. now apply IH.
  - destruct R; try reflexivity.
    rewrite engine_get_loop_obj, get_loop_obj,
      prop_read_plain by now apply Hseg.
    now apply IH.
Qed.

Lemma engine_getValueByPath_agrees (R : jsval) (P : Path) :
  inherit_free P = true ->
  engine_getValueByPath R (Some P) = Found (getValueByPath R (Some P)).
Proof.
  intros H. destruct P as [|seg P]; [reflexivity|].
  now apply engine_get_loop_agrees.
Qed.

(** On a path without [__proto__] the two reads differ by inherited
    functions only, which the guards that follow treat as
    [undefined]. *)
Lemma engine_get_loop_as_node :
  forall (P : Path) (R : jsval),
    proto_free P = true ->
    as_node (engine_get_loop (Found R) P) = get_loop R P.
Proof.
  induction P as [|[n|k] P IH]; intros R H; [reflexivity| |];
    apply proto_free_cons in H; destruct H as [Hseg HP].
  - destruct R; try reflexivity.
    rewrite engine_get_loop_arr, get_loop_arr. now apply IH.
  - destruct R; try reflexivity.
    rewrite engine_get_loop_obj, get_loop_obj.
    unfold prop_read, obj_get.
    destruct (obj_lookup fields k) as [v|]; [now apply IH|].
    destruct (inherited_name k).
    + destruct P as [|seg P]; [reflexivity|].
      rewrite engine_get_loop_function by now apply Hseg.
      now rewrite get_loop_undefined.
    + now rewrite engine_get_loop_undefined, get_loop_undefined.
Qed.

Lemma engine_target_agrees (R : jsval) (P : option Path) :
  path_proto_free P = true ->
  as_node (engine_getValueByPath R P) = getValueByPath R P.
Proof.
  destruct P as [[|seg P]|]; try reflexivity.
  apply engine_get_loop_as_node.
Qed.

(** The engine reads back what it wrote, whatever the names. *)
Lemma engine_get_loop_setAt (rest : Path) :
  forall value node head,
    engine_get_loop (Found (setAt value node head rest)) (head :: rest)
    = Found value.
Proof.
  induction rest as [|h r IH]; intros value node [idx|k];
    rewrite ?setAt_num, ?setAt_key, ?engine_get_loop_arr,
      ?engine_get_loop_obj, ?arr_get_set_same, ?prop_read_set_same;
    cbn [setAt_stored]; auto.
Qed.

Lemma engine_get_loop_app (P Q : Path) :
  forall cur,
    engine_get_loop cur (P ++ Q)%list
    = engine_get_loop (engine_get_loop cur P) Q.
Proof.
  induction P as [|seg P IH]; intros cur; [reflexivity|].
  cbn [app engine_get_loop]. destruct cur as [v|m].
  - destruct (is_undefined v || is_null v);
      [now rewrite engine_get_loop_undefined|].
    destruct seg as [n|k].
    + destruct (negb (Array_isArray v));
        [now rewrite engine_get_loop_undefined|apply IH].
    + destruct (negb (typeof v =? "object") || Array_isArray v);
        [now rewrite engine_get_loop_undefined|apply IH].
  - destruct (m =? "__proto__");
      [|now rewrite engine_get_loop_undefined].
    destruct seg as [n|k];
      [now rewrite engine_get_loop_undefined|apply IH].
Qed.

(** The engine's merge is the merge of the JSON reading when no entry
    that the loop assigns has the key [__proto__]. *)
Lemma engine_merge_loop_agrees (M : list (string * jsval)) :
  (forall k v, In (k, v) M -> is_container v = false -> k <> "__proto__") ->
  forall b,
    fold_left engine_merge_step M (Some b) = Some (fold_left merge_step M b).
Proof.
  induction M as [|[k v] M IH]; intros H b; [reflexivity|].
  cbn [fold_left]. unfold engine_merge_step at 2. rewrite container_guard.
  destruct (is_container v) eqn:E.
  - rewrite merge_step_skip by assumption.
    apply IH. intros k0 v0 Hin. apply H. now right.
  - rewrite merge_step_assign by assumption.
    rewrite engine_assign_plain by (apply (H k v); [now left|assumption]).
    apply IH. intros k0 v0 Hin. apply H. now right.
Qed.

Lemma engine_merge_agrees (R : jsval) (P : option Path)
  (M : list (string * jsval)) :
  path_writable P = true ->
  (forall k v, In (k, v) M -> is_container v = false -> k <> "__proto__") ->
  engine_mergePrimitivesAtPath R P M = Some (mergePrimitivesAtPath R P M).
Proof.
  intros HP HM. unfold engine_mergePrimitivesAtPath.
  rewrite engine_target_agrees, plain_object_guard
    by now apply path_writable_proto_free.
  rewrite engine_merge_loop_agrees by assumption.
  rewrite merge_unfold. now apply engine_setValueByPath_agrees.
Qed.

(** A write through a path that exists in the document meets own
    properties only: the engine does what the JSON reading does, for
    every name. *)
Lemma engine_assign_own (o : list (string * jsval)) (k : string) (v w : jsval) :
  obj_lookup o k = Some w -> engine_assign o k v = Some (obj_set o k v).
Proof. intros H. unfold engine_assign. now rewrite H. Qed.

Lemma engine_setAt_present (value : jsval) :
  forall (rest : Path) (head : segment) (node : jsval),
    path_present node (head :: rest) = true ->
    indices_bounded (head :: rest) = true ->
    engine_setAt value node head rest = Some (setAt value node head rest).
Proof.
  induction rest as [|head' rest' IH]; intros [idx|k] node H Hb;
    apply indices_bounded_cons in Hb; destruct Hb as [Hidx Hb];
    cbn [path_present] in H; destruct node as [| | | | |l|o];
    try discriminate.
  - cbn [engine_setAt setAt]. now rewrite (Hidx idx eq_refl).
  - destruct (obj_lookup o k) as [w|] eqn:E; [|discriminate].
    cbn [engine_setAt setAt truthy typeof Array_isArray spread_props
         String.eqb Ascii.eqb Bool.eqb andb negb].
    now rewrite (engine_assign_own o k value w E).
  - apply andb_true_iff in H. destruct H as [_ H].
    cbn [engine_setAt setAt Array_isArray spread_elems].
    now rewrite (IH _ _ H Hb), (Hidx idx eq_refl).
  - destruct (obj_lookup o k) as [w|] eqn:E; [|discriminate].
    cbn [engine_setAt setAt truthy typeof Array_isArray spread_props
         String.eqb Ascii.eqb Bool.eqb andb negb].
    unfold prop_read, obj_get. rewrite E. cbn [as_node].
    rewrite (IH _ _ H Hb). cbn [option_map].
    now rewrite (engine_assign_own o k _ w E).
Qed.

Lemma engine_setValueByPath_present (R V : jsval) (P : Path) :
  path_present R P = true -> indices_bounded P = true ->
  engine_setValueByPath R (Some P) V = Some (setValueByPath R (Some P) V).
Proof.
  destruct P as [|head rest]; [reflexivity|]. apply engine_setAt_present.
Qed.

Lemma prop_read_set_other (o : list (string * jsval)) (k k' : string)
  (v : jsval) :
  k <> k' -> prop_read (obj_set o k v) k' = prop_read o k'.
Proof. intros H. unfold prop_read. now rewrite obj_lookup_set_other. Qed.

(** After a write through an existing path, every read that parts from
    it finds what it found before, inherited members included. *)
Lemma engine_get_loop_setAt_present (value : jsval) :
  forall (P' : Path) (p : segment) (Q : Path) (node : jsval),
    path_present node (p :: P') = true ->
    diverges (p :: P') Q = true ->
    engine_get_loop (Found (setAt value node p P')) Q
    = engine_get_loop (Found node) Q.
Proof.
  induction P' as [|p' P'' IH]; intros p [|q Q'] node Hp Hd;
    cbn [diverges] in Hd; try discriminate;
    destruct (segment_eqb p q) eqn:E; try discriminate.
  - apply segment_eqb_neq in E.
    destruct p as [i|k], q as [j|k']; cbn [path_present] in Hp;
      destruct node as [| | | | |l|o]; try discriminate;
      rewrite ?setAt_num, ?setAt_key; cbn [spread_elems object_or_empty];
      try reflexivity.
    + rewrite !engine_get_loop_arr, arr_get_set_other by congruence.
      reflexivity.
    + rewrite !engine_get_loop_obj, prop_read_set_other by congruence.
      reflexivity.
  - apply segment_eqb_eq in E. subst q.
    destruct p as [i|k]; cbn [path_present] in Hp;
      destruct node as [| | | | |l|o]; try discriminate.
    + apply andb_true_iff in Hp. destruct Hp as [_ Hp].
      rewrite setAt_num. cbn [spread_elems setAt_stored].
      rewrite !engine_get_loop_arr, arr_get_set_same. now apply IH.
    + destruct (obj_lookup o k) as [w|] eqn:Ew; [|discriminate].
      rewrite setAt_key. cbn [object_or_empty setAt_stored].
      rewrite !engine_get_loop_obj, prop_read_set_same.
      unfold obj_get, prop_read. rewrite Ew. now apply IH.
  - apply segment_eqb_neq in E.
    destruct p as [i|k], q as [j|k']; cbn [path_present] in Hp;
      destruct node as [| | | | |l|o]; try discriminate;
      rewrite ?setAt_num, ?setAt_key; cbn [spread_elems object_or_empty];
      try reflexivity.
    + rewrite !engine_get_loop_arr, arr_get_set_other by congruence.
      reflexivity.
    + rewrite !engine_get_loop_obj, prop_read_set_other by congruence.
      reflexivity.
Qed.

Lemma engine_get_set_present (R V : jsval) (P Q : Path) :
  path_present R P = true -> diverges P Q = true ->
  engine_getValueByPath (setValueByPath R (Some P) V) (Some Q)
  = engine_getValueByPath R (Some Q).
Proof.
  intros Hp Hd. destruct P as [|p P']; [discriminate|].
  destruct Q as [|q Q']; [discriminate|].
  now apply engine_get_loop_setAt_present.
Qed.

(** The two loops of assignments, entry by entry. *)
Lemma engine_overwrite_none (es : list (string * jsval)) :
  fold_left engine_overwrite es None = None.
Proof. induction es as [|kv es IH]; [reflexivity|exact IH]. Qed.

Lemma engine_merge_loop_filter (M : list (string * jsval)) :
  forall acc,
    fold_left engine_merge_step M acc
    = fold_left engine_overwrite (assigned M) acc.
Proof.
  induction M as [|[k v] M IH]; intros acc; [reflexivity|].
  cbn [fold_left]. rewrite IH. unfold assigned. cbn [filter snd].
  destruct acc as [b|].
  - cbn [engine_merge_step]. rewrite container_guard.
    now destruct (is_container v).
  - cbn [engine_merge_step]. destruct (is_container v); [reflexivity|].
    cbn [negb fold_left engine_overwrite]. reflexivity.
Qed.

Lemma engine_normalize_loop_filter (rows : list NodeRow) :
  forall acc,
    fold_left engine_normalize_step rows acc
    = fold_left engine_overwrite (map row_entry (filter row_kept rows)) acc.
Proof.
  induction rows as [|row rows IH]; intros acc; [reflexivity|].
  cbn [fold_left filter]. rewrite IH. unfold row_kept at 2.
  destruct acc as [o|]; cbn [engine_normalize_step].
  - destruct (type row =? "array"), (type row =? "object"),
      (key_truthy (key row)); reflexivity.
  - destruct (key_truthy (key row)
              && negb ((type row =? "array") || (type row =? "object")));
      reflexivity.
Qed.

Lemma engine_assign_lookup (o o' : list (string * jsval)) (k0 k : string)
  (v : jsval) :
  engine_assign o k0 v = Some o' -> k <> "__proto__" ->
  obj_lookup o' k = obj_lookup (obj_set o k0 v) k.
Proof.
  unfold engine_assign. intros H Hk.
  destruct (obj_lookup o k0) eqn:E; [now inversion H|].
  destruct (String.eqb_spec k0 "__proto__") as [->|Hne]; [|now inversion H].
  destruct (is_null v || (typeof v =? "object")); [discriminate|].
  inversion H. subst o'. symmetry. apply obj_lookup_set_other. congruence.
Qed.

Lemma obj_lookup_set_congr (b b' : list (string * jsval)) (k0 k : string)
  (v : jsval) :
  obj_lookup b k = obj_lookup b' k ->
  obj_lookup (obj_set b k0 v) k = obj_lookup (obj_set b' k0 v) k.
Proof.
  intros H. destruct (String.eqb_spec k0 k) as [->|Hne].
  - now rewrite !obj_lookup_set_same.
  - now rewrite !obj_lookup_set_other.
Qed.

(** Whatever happens to the key [__proto__], the other keys end as in
    the JSON reading. *)
Lemma engine_overwrite_lookup (k : string) :
  k <> "__proto__" ->
  forall (es : list (string * jsval)) (b b' r : list (string * jsval)),
    obj_lookup b k = obj_lookup b' k ->
    fold_left engine_overwrite es (Some b) = Some r ->
    obj_lookup r k = obj_lookup (fold_left overwrite es b') k.
Proof.
  intros Hk. induction es as [|[k0 v] es IH]; intros b b' r Hb H.
  - inversion H. now subst.
  - cbn [fold_left engine_overwrite fst snd] in H.
    destruct (engine_assign b k0 v) as [b1|] eqn:E;
      [|now rewrite engine_overwrite_none in H].
    cbn [fold_left]. apply (IH b1); [|exact H].
    rewrite (engine_assign_lookup b b1 k0 k v E Hk).
    unfold overwrite. cbn [fst snd]. now apply obj_lookup_set_congr.
Qed.

Lemma engine_assign_total (o : list (string * jsval)) (k : string) (v : jsval) :
  replaces_prototype (k, v) = false -> exists o', engine_assign o k v = Some o'.
Proof.
  unfold replaces_prototype, engine_assign. cbn [fst snd]. intros H.
  destruct (obj_lookup o k); [eauto|].
  destruct (k =? "__proto__"); [|eauto].
  cbn [andb] in H. rewrite H. eauto.
Qed.

Lemma engine_overwrite_total (es : list (string * jsval)) :
  (forall kv, In kv es -> replaces_prototype kv = false) ->
  forall b, exists r, fold_left engine_overwrite es (Some b) = Some r.
Proof.
  induction es as [|[k v] es IH]; intros H b; [now exists b|].
  cbn [fold_left engine_overwrite fst snd].
  destruct (engine_assign_total b k v (H (k, v) (or_introl eq_refl)))
    as [b1 ->].
  apply IH. intros kv Hin. apply H. now right.
Qed.

Lemma engine_overwrite_agrees (es : list (string * jsval)) :
  (forall kv, In kv es -> fst kv <> "__proto__") ->
  forall b,
    fold_left engine_overwrite es (Some b) = Some (fold_left overwrite es b).
Proof.
  induction es as [|[k v] es IH]; intros H b; [reflexivity|].
  cbn [fold_left engine_overwrite fst snd].
  rewrite engine_assign_plain by (apply (H (k, v)); now left).
  apply IH. intros kv Hin. apply H. now right.
Qed.

(** What the engine's merge returns once its loop has ended with the
    object [merged]. *)
Lemma engine_merge_result (R : jsval) (P : option Path)
  (M merged : list (string * jsval)) :
  path_writable P = true ->
  fold_left engine_merge_step M
    (Some (object_or_empty (getValueByPath R P))) = Some merged ->
  engine_mergePrimitivesAtPath R P M
  = Some (setValueByPath R P (VObj merged)).
Proof.
  intros HP H. unfold engine_mergePrimitivesAtPath.
  rewrite engine_target_agrees, plain_object_guard, H
    by now apply path_writable_proto_free.
  now apply engine_setValueByPath_agrees.
Qed.

Lemma assigned_not_null_proto (M : list (string * jsval)) :
  ~ In ("__proto__", VNull) M ->
  forall kv, In kv (assigned M) -> replaces_prototype kv = false.
Proof.
  intros H [k v] Hin. apply filter_In in Hin. destruct Hin as [Hin Hv].
  cbn [snd] in Hv. unfold replaces_prototype. cbn [fst snd].
  destruct (String.eqb_spec k "__proto__") as [->|Hne]; [|reflexivity].
  destruct v; try reflexivity; try discriminate. contradiction.
Qed.

Lemma engine_getValueByPath_loop (R : jsval) (p : Path) :
  engine_getValueByPath R (Some p) = engine_get_loop (Found R) p.
Proof. now destruct p. Qed.

Lemma engine_get_set_roundtrip (R V : jsval) (P : Path) :
  engine_getValueByPath (setValueByPath R (Some P) V) (Some P) = Found V.
Proof.
  destruct P as [|head rest]; [reflexivity|]. apply engine_get_loop_setAt.
Qed.

(* ================================================================= *)
(** ** Claims on the path reader and writer *)

(** C1.  The round trip fails in the code for the key [__proto__]: on
    the root [{}], the path [["__proto__"]] and the value [5], the
    assignment on the copy creates no property, so [setValueByPath]
    returns [{}], and the read at the same path returns
    [Object.prototype], not [5]. *)
Theorem write_then_read_fails_on_proto :
  engine_setValueByPath (VObj []) (Some [SKey "__proto__"]) (VNum 5)
  = Some (VObj [])
  /\ engine_getValueByPath (VObj []) (Some [SKey "__proto__"])
     = Inherited "__proto__"
  /\ Inherited "__proto__" <> Found (VNum 5).
Proof. split; [reflexivity|]. split; [reflexivity|discriminate]. Qed.

(** C8.  The absent path and the empty path both denote the whole
    document: reading returns the root, writing returns the new value. *)
Theorem empty_path_is_document (R V : jsval) :
  getValueByPath R None = R /\ getValueByPath R (Some []) = R /\
  setValueByPath R None V = V /\ setValueByPath R (Some []) V = V.
Proof. repeat split. Qed.

(* ================================================================= *)
(** ** Claims on the merge *)

(** C2, as stated, fails: a field whose current value is an array is
    overwritten when the proposed mapping holds a primitive for its
    key.  Document [{"a":{"y":[1,2]}}], path [["a"]], proposal
    [{"y":5}]. *)
Lemma merge_overwrites_container_field :
  ~ (forall (R : jsval) (P : option Path) (M : list (string * jsval))
            (k : string),
        (forall w, field_at R P k = Some w -> is_container w = true ->
                   field_at (mergePrimitivesAtPath R P M) P k = Some w)
        /\ (forall v, field_at R P k = None -> obj_lookup M k = Some v ->
                      is_container v = true ->
                      field_at (mergePrimitivesAtPath R P M) P k = None)).
Proof.
  intros H.
  destruct (H (VObj [("a", VObj [("y", VArr [VNum 1; VNum 2])])])
              (Some [SKey "a"]) [("y", VNum 5)] "y") as [Hkeep _].
  specialize (Hkeep (VArr [VNum 1; VNum 2]) eq_refl eq_refl).
  vm_compute in Hkeep. discriminate.
Qed.

(** C2, amended.  The merge never removes a field of the object at [P];
    it leaves a field as it is (present with the same value, or absent)
    whenever every value proposed for its key is an object or array, in
    particular when none is proposed.  So a field holding an object or
    array survives unless a primitive or null is proposed for its key,
    and no field is introduced from a proposed object or array. *)
Theorem merge_frame (R : jsval) (P : option Path) (M : list (string * jsval))
  (k : string) :
  (field_at R P k <> None ->
   field_at (mergePrimitivesAtPath R P M) P k <> None)
  /\ ((forall v, In (k, v) M -> is_container v = true) ->
      field_at (mergePrimitivesAtPath R P M) P k = field_at R P k).
Proof.
  rewrite field_at_merge, field_at_current. split.
  - apply merge_loop_keeps.
  - intros H. now apply merge_loop_skips.
Qed.

Lemma merge_frame_witness :
  let R := VObj [("a", VObj [("x", VNum 1); ("y", VArr [VNum 1; VNum 2])])] in
  let M := [("x", VNum 5); ("y", VObj []); ("w", VArr [])] in
  field_at (mergePrimitivesAtPath R (Some [SKey "a"]) M) (Some [SKey "a"]) "x"
    <> None
  /\ field_at (mergePrimitivesAtPath R (Some [SKey "a"]) M) (Some [SKey "a"]) "y"
     = Some (VArr [VNum 1; VNum 2])
  /\ field_at (mergePrimitivesAtPath R (Some [SKey "a"]) M) (Some [SKey "a"]) "w"
     = None.
Proof.
  intros R M. split; [|split].
  - apply (proj1 (merge_frame R (Some [SKey "a"]) M "x")). discriminate.
  - apply (proj2 (merge_frame R (Some [SKey "a"]) M "y")).
    intros v [E|[E|[E|[]]]]; inversion E; reflexivity.
  - apply (proj2 (merge_frame R (Some [SKey "a"]) M "w")).
    intros v [E|[E|[E|[]]]]; inversion E; reflexivity.
Defined.

(** C3.  The contract fails in the code for a proposed entry
    [__proto__]: on the document [{"a":{"x":0}}], the path [["a"]] and
    the proposal [{"__proto__":5,"x":1}], the assignment
    [base["__proto__"] = 5] stores nothing and the result is
    [{"a":{"x":1}}], while the copy in which every entry that is not an
    object or array overwrites its field has the field [__proto__]. *)
Theorem merge_drops_proto_entry :
  engine_mergePrimitivesAtPath (VObj [("a", VObj [("x", VNum 0)])])
    (Some [SKey "a"]) [("__proto__", VNum 5); ("x", VNum 1)]
  = Some (VObj [("a", VObj [("x", VNum 1)])])
  /\ setValueByPath (VObj [("a", VObj [("x", VNum 0)])]) (Some [SKey "a"])
       (VObj (merged_object (VObj [("x", VNum 0)])
                [("__proto__", VNum 5); ("x", VNum 1)]))
     = VObj [("a", VObj [("x", VNum 1); ("__proto__", VNum 5)])].
Proof. split; reflexivity. Qed.

(* ================================================================= *)
(** ** The heap model: what a call leaves untouched *)

Lemma heap_store_length (h : heap) (l : loc) (c : cell) :
  List.length (heap_store h l c) = List.length h.
Proof.
  revert l. induction h as [|x t IH]; intros [|l]; simpl; auto.
Qed.

Lemma heap_store_other (h : heap) (l l' : loc) (c : cell) :
  l <> l' -> nth_error (heap_store h l c) l' = nth_error h l'.
Proof.
  revert l l'.
  induction h as [|x t IH]; intros [|l] [|l'] H; simpl; auto; try congruence.
Qed.

Lemma heap_store_same (h : heap) (l : loc) (c : cell) :
  l < List.length h -> nth_error (heap_store h l c) l = Some c.
Proof.
  revert l. induction h as [|x t IH]; intros [|l] H; simpl in *;
    try lia; auto. apply IH. lia.
Qed.

Lemma alloc_fresh (h : heap) (c : cell) :
  nth_error (h ++ [c]) (List.length h) = Some c.
Proof. rewrite nth_error_app2 by lia. now rewrite Nat.sub_diag. Qed.

Lemma alloc_old (h : heap) (c : cell) (l : loc) :
  l < List.length h -> nth_error (h ++ [c]) l = nth_error h l.
Proof. intros H. now apply nth_error_app1. Qed.

Lemma agree_below_extends (h h' : heap) :
  agree_below h h' -> heap_extends h h'.
Proof.
  intros [_ H] l c Hl. rewrite H; [assumption|].
  apply nth_error_Some. congruence.
Qed.

Lemma heap_setAt_agree (rest : Path) :
  forall value h node head,
    agree_below h (fst (heap_setAt value h node head rest))
    /\ List.length h < List.length (fst (heap_setAt value h node head rest)).
Proof.
  induction rest as [|head' rest' IH]; intros value h node head.
  - destruct head as [idx|k]; cbn [heap_setAt alloc fst];
      unfold heap_arr_set, heap_obj_set, agree_below;
      rewrite heap_store_length, length_app; cbn [List.length];
      (split; [split|]; try lia);
      intros l Hl; rewrite heap_store_other by lia; now apply alloc_old.
  - destruct head as [idx|k]; cbn [heap_setAt alloc].
    + match goal with
      | |- context [heap_setAt ?v ?h1 ?n head' rest'] =>
          destruct (IH v h1 n head') as [[Hlen Hag] Hlt];
          destruct (heap_setAt v h1 n head' rest') as [h2 x]
      end.
      cbn [fst] in *. rewrite length_app in *. cbn [List.length] in *.
      unfold heap_arr_set, agree_below. rewrite heap_store_length.
      split; [split|]; try lia.
      intros l Hl. rewrite heap_store_other by lia.
      rewrite Hag by lia. now apply alloc_old.
    + match goal with
      | |- context [heap_setAt ?v ?h1 ?n head' rest'] =>
          destruct (IH v h1 n head') as [[Hlen Hag] Hlt];
          destruct (heap_setAt v h1 n head' rest') as [h2 x]
      end.
      cbn [fst] in *. rewrite length_app in *. cbn [List.length] in *.
      unfold heap_obj_set, agree_below. rewrite heap_store_length.
      split; [split|]; try lia.
      intros l Hl. rewrite heap_store_other by lia.
      rewrite Hag by lia. now apply alloc_old.
Qed.

Lemma heap_setValueByPath_extends (h : heap) (root : hval) (path : option Path)
  (value : hval) :
  heap_extends h (fst (heap_setValueByPath h root path value)).
Proof.
  destruct path as [[|head rest]|]; cbn [heap_setValueByPath fst];
    try (intros l c H; exact H).
  apply agree_below_extends, heap_setAt_agree.
Qed.

(** ** Reading back from the heap *)

Lemma mapM_impl {A B : Type} (f g : A -> option B) (l : list A) :
  (forall x y, f x = Some y -> g x = Some y) ->
  forall ys, mapM f l = Some ys -> mapM g l = Some ys.
Proof.
  intros Hfg. induction l as [|x t IH]; intros ys H; [exact H|].
  cbn [mapM] in *. destruct (f x) as [y|] eqn:Ex; [|discriminate].
  rewrite (Hfg _ _ Ex).
  destruct (mapM f t) as [ys'|]; [|discriminate].
  now rewrite (IH _ eq_refl).
Qed.

Lemma on_snd_impl {A B : Type} (f g : A -> option B) :
  (forall x y, f x = Some y -> g x = Some y) ->
  forall kx ky, on_snd f kx = Some ky -> on_snd g kx = Some ky.
Proof.
  intros Hfg kx ky. unfold on_snd.
  destruct (f (snd kx)) as [y|] eqn:E; [|discriminate].
  now rewrite (Hfg _ _ E).
Qed.

Lemma reify_extends (h h' : heap) :
  heap_extends h h' ->
  forall n v r, reify n h v = Some r -> reify n h' v = Some r.
Proof.
  intros Hext. induction n as [|n IH]; intros [| |b|z|s|l] r H;
    try exact H; cbn [reify] in *; try discriminate.
  destruct (nth_error h l) as [[es|fs]|] eqn:E; [| |discriminate];
    rewrite (Hext _ _ E).
  - destruct (mapM (reify n h) es) as [vs|] eqn:Em; [|discriminate].
    now rewrite (mapM_impl _ _ _ IH _ Em).
  - destruct (mapM (on_snd (reify n h)) fs) as [os|] eqn:Em; [|discriminate].
    now rewrite (mapM_impl _ _ _ (on_snd_impl _ _ IH) _ Em).
Qed.

Lemma reify_fuel_S (h : heap) :
  forall n v r, reify n h v = Some r -> reify (S n) h v = Some r.
Proof.
  induction n as [|n IH]; intros [| |b|z|s|l] r H;
    try exact H; try discriminate.
  change (reify (S n) h (HRef l)) with
    (match nth_error h l with
     | Some (CArr es) => option_map VArr (mapM (reify n h) es)
     | Some (CObj fs) => option_map VObj (mapM (on_snd (reify n h)) fs)
     | None => None
     end) in H.
  change (reify (S (S n)) h (HRef l)) with
    (match nth_error h l with
     | Some (CArr es) => option_map VArr (mapM (reify (S n) h) es)
     | Some (CObj fs) => option_map VObj (mapM (on_snd (reify (S n) h)) fs)
     | None => None
     end).
  destruct (nth_error h l) as [[es|fs]|]; [| |discriminate].
  - destruct (mapM (reify n h) es) as [vs|] eqn:Em; [|discriminate].
    now rewrite (mapM_impl _ _ _ IH _ Em).
  - destruct (mapM (on_snd (reify n h)) fs) as [os|] eqn:Em; [|discriminate].
    now rewrite (mapM_impl _ _ _ (on_snd_impl _ _ IH) _ Em).
Qed.

Lemma reify_fuel_le (h : heap) (n n' : nat) (v : hval) (r : jsval) :
  n <= n' -> reify n h v = Some r -> reify n' h v = Some r.
Proof.
  induction 1 as [|n' _ IH]; intros H; [exact H|].
  apply reify_fuel_S. now apply IH.
Qed.

(** ** Array and object operations commute with reading back *)

Section ReadBack.
Context {A B : Type}.
Variable f : A -> option B.
Variables (ua : A) (ub : B).
Hypothesis f_undef : f ua = Some ub.

Lemma mapM_arr_get (es : list A) (vs : list B) (idx : nat) :
  mapM f es = Some vs ->
  f (arr_get ua es idx) = Some (arr_get ub vs idx).
Proof.
  unfold arr_get. revert vs idx.
  induction es as [|x t IH]; intros vs idx H; cbn [mapM] in H.
  - inversion H. now rewrite !nth_nil_undef.
  - destruct (f x) as [y|] eqn:Ex; [|discriminate].
    destruct (mapM f t) as [ys|]; [|discriminate].
    inversion H. destruct idx; cbn [nth]; auto.
Qed.

Lemma mapM_arr_set (es : list A) (vs : list B) (idx : nat) (x : A) (y : B) :
  mapM f es = Some vs -> f x = Some y ->
  mapM f (arr_set ua es idx x) = Some (arr_set ub vs idx y).
Proof.
  intros H Hx. revert es vs H.
  induction idx as [|i IH]; intros [|e t] vs H; cbn [mapM] in H.
  - inversion H. cbn. now rewrite Hx.
  - destruct (f e) as [y'|]; [|discriminate].
    destruct (mapM f t) as [ys|] eqn:Et; [|discriminate].
    inversion H. cbn [arr_set mapM]. now rewrite Hx, Et.
  - inversion H. cbn [arr_set mapM]. rewrite f_undef.
    now rewrite (IH [] [] eq_refl).
  - destruct (f e) as [y'|] eqn:Ee; [|discriminate].
    destruct (mapM f t) as [ys|] eqn:Et; [|discriminate].
    inversion H. cbn [arr_set mapM]. rewrite Ee.
    now rewrite (IH t ys Et).
Qed.

Lemma mapM_on_snd_cons (k : string) (x : A) (fs : list (string * A))
  (os : list (string * B)) :
  mapM (on_snd f) ((k, x) :: fs) = Some os ->
  exists y os', f x = Some y /\ mapM (on_snd f) fs = Some os'
                /\ os = (k, y) :: os'.
Proof.
  cbn [mapM]. unfold on_snd at 1. cbn [fst snd].
  destruct (f x) as [y|]; [|discriminate].
  destruct (mapM (on_snd f) fs) as [os'|]; [|discriminate].
  intros H. inversion H. eauto.
Qed.

Lemma mapM_on_snd_build (k : string) (x : A) (y : B)
  (fs : list (string * A)) (os : list (string * B)) :
  f x = Some y -> mapM (on_snd f) fs = Some os ->
  mapM (on_snd f) ((k, x) :: fs) = Some ((k, y) :: os).
Proof.
  intros Hx Hfs. cbn [mapM]. unfold on_snd at 1. cbn [fst snd].
  now rewrite Hx, Hfs.
Qed.

Lemma mapM_obj_lookup (fs : list (string * A)) (os : list (string * B))
  (k : string) :
  mapM (on_snd f) fs = Some os ->
  match obj_lookup fs k with
  | Some x => exists y, f x = Some y /\ obj_lookup os k = Some y
  | None => obj_lookup os k = None
  end.
Proof.
  revert os. induction fs as [|[k' x] fs IH]; intros os H.
  - inversion H. reflexivity.
  - apply mapM_on_snd_cons in H. destruct H as (y & os' & Hy & Hos & ->).
    cbn [obj_lookup]. destruct (k' =? k); [eauto|]. now apply IH.
Qed.

Lemma mapM_obj_get (fs : list (string * A)) (os : list (string * B))
  (k : string) :
  mapM (on_snd f) fs = Some os ->
  f (obj_get ua fs k) = Some (obj_get ub os k).
Proof.
  intros H. apply (mapM_obj_lookup _ _ k) in H. unfold obj_get.
  destruct (obj_lookup fs k).
  - destruct H as (y & Hy & ->). exact Hy.
  - now rewrite H.
Qed.

Lemma mapM_obj_replace (fs : list (string * A)) (os : list (string * B))
  (k : string) (x : A) (y : B) :
  mapM (on_snd f) fs = Some os -> f x = Some y ->
  mapM (on_snd f) (obj_replace fs k x) = Some (obj_replace os k y).
Proof.
  intros H Hx. revert os H.
  induction fs as [|[k' x'] fs IH]; intros os H.
  - inversion H. reflexivity.
  - apply mapM_on_snd_cons in H. destruct H as (y' & os' & Hy' & Hos & ->).
    cbn [obj_replace]. destruct (k' =? k).
    + now apply mapM_on_snd_build.
    + apply mapM_on_snd_build; auto.
Qed.

Lemma mapM_obj_insert (fs : list (string * A)) (os : list (string * B))
  (n : N) (k : string) (x : A) (y : B) :
  mapM (on_snd f) fs = Some os -> f x = Some y ->
  mapM (on_snd f) (obj_insert_index fs n k x)
  = Some (obj_insert_index os n k y).
Proof.
  intros H Hx. revert os H.
  induction fs as [|[k' x'] fs IH]; intros os H.
  - inversion H. now apply mapM_on_snd_build.
  - pose proof H as H0.
    apply mapM_on_snd_cons in H. destruct H as (y' & os' & Hy' & Hos & ->).
    cbn [obj_insert_index].
    destruct (array_index k') as [n'|]; [destruct (n' <? n)%N|].
    + apply mapM_on_snd_build; auto.
    + now apply mapM_on_snd_build.
    + now apply mapM_on_snd_build.
Qed.

Lemma mapM_obj_app (fs : list (string * A)) (os : list (string * B))
  (k : string) (x : A) (y : B) :
  mapM (on_snd f) fs = Some os -> f x = Some y ->
  mapM (on_snd f) (fs ++ [(k, x)])%list = Some (os ++ [(k, y)])%list.
Proof.
  intros H Hx. revert os H.
  induction fs as [|[k' x'] fs IH]; intros os H.
  - inversion H. now apply mapM_on_snd_build.
  - apply mapM_on_snd_cons in H. destruct H as (y' & os' & Hy' & Hos & ->).
    cbn [app]. apply mapM_on_snd_build; auto.
Qed.

Lemma mapM_obj_set (fs : list (string * A)) (os : list (string * B))
  (k : string) (x : A) (y : B) :
  mapM (on_snd f) fs = Some os -> f x = Some y ->
  mapM (on_snd f) (obj_set fs k x) = Some (obj_set os k y).
Proof.
  intros H Hx. unfold obj_set.
  pose proof (mapM_obj_lookup _ _ k H) as Hl.
  destruct (obj_lookup fs k).
  - destruct Hl as (y' & _ & ->). now apply mapM_obj_replace.
  - rewrite Hl. destruct (array_index k).
    + now apply mapM_obj_insert.
    + now apply mapM_obj_app.
Qed.
End ReadBack.

(** ** The heap model computes what the functional model computes *)

Lemma reify_undefined (k : nat) (h : heap) :
  reify k h HUndefined = Some VUndefined.
Proof. now destruct k. Qed.

Lemma reify_ref (k : nat) (h : heap) (l : loc) :
  reify (S k) h (HRef l) =
  match nth_error h l with
  | Some (CArr es) => option_map VArr (mapM (reify k h) es)
  | Some (CObj fs) => option_map VObj (mapM (on_snd (reify k h)) fs)
  | None => None
  end.
Proof. reflexivity. Qed.

Lemma heap_extends_trans (h1 h2 h3 : heap) :
  heap_extends h1 h2 -> heap_extends h2 h3 -> heap_extends h1 h3.
Proof. intros H12 H23 l c H. auto. Qed.

Lemma heap_extends_alloc (h : heap) (c : cell) :
  heap_extends h (h ++ [c])%list.
Proof.
  intros l c' H. rewrite alloc_old; [assumption|].
  apply nth_error_Some. congruence.
Qed.

Lemma heap_elems_at (h : heap) (l : loc) (es : list hval) :
  nth_error h l = Some (CArr es) -> heap_elems h (HRef l) = es.
Proof. intros H. cbn [heap_elems]. now rewrite H. Qed.

Lemma heap_props_at (h : heap) (l : loc) (fs : list (string * hval)) :
  nth_error h l = Some (CObj fs) -> heap_props h (HRef l) = fs.
Proof. intros H. cbn [heap_props]. now rewrite H. Qed.

(** Moving a read-back to more fuel and a larger heap. *)
Lemma reify_lift (g hs : heap) (n k : nat) :
  heap_extends g hs -> n <= k ->
  forall x y, reify n g x = Some y -> reify k hs x = Some y.
Proof.
  intros Hext Hle x y H.
  apply (reify_extends _ _ Hext). now apply (reify_fuel_le _ n).
Qed.

Lemma elems_related (g h : heap) (node : hval) (n : nat) (r : jsval) :
  heap_extends g h -> reify n g node = Some r ->
  mapM (reify n g) (heap_elems h node) = Some (spread_elems r).
Proof.
  intros Hext H. destruct node as [| |b|z|s|l];
    try (destruct n; inversion H; reflexivity).
  destruct n as [|n]; [discriminate|]. rewrite reify_ref in H.
  cbn [heap_elems].
  destruct (nth_error g l) as [[es|fs]|] eqn:E; [| |discriminate];
    rewrite (Hext _ _ E).
  - destruct (mapM (reify n g) es) as [vs|] eqn:Em; [|discriminate].
    inversion H. cbn [spread_elems].
    apply (mapM_impl (reify n g)); [apply reify_fuel_S|assumption].
  - destruct (mapM (on_snd (reify n g)) fs) as [os|]; [|discriminate].
    now inversion H.
Qed.

Lemma props_related (g h : heap) (node : hval) (n : nat) (r : jsval) :
  heap_extends g h -> reify n g node = Some r ->
  mapM (on_snd (reify n g)) (heap_props h node) = Some (object_or_empty r).
Proof.
  intros Hext H. destruct node as [| |b|z|s|l];
    try (destruct n; inversion H; reflexivity).
  destruct n as [|n]; [discriminate|]. rewrite reify_ref in H.
  cbn [heap_props].
  destruct (nth_error g l) as [[es|fs]|] eqn:E; [| |discriminate];
    rewrite (Hext _ _ E).
  - destruct (mapM (reify n g) es) as [vs|]; [|discriminate].
    now inversion H.
  - destruct (mapM (on_snd (reify n g)) fs) as [os|] eqn:Em; [|discriminate].
    inversion H. cbn [object_or_empty].
    apply (mapM_impl (on_snd (reify n g))); [|assumption].
    apply on_snd_impl, reify_fuel_S.
Qed.

Lemma heap_setAt_sim (g : heap) (value : hval) (v : jsval) (m : nat) :
  reify m g value = Some v ->
  forall (rest : Path) (h : heap) (node : hval) (r : jsval) (n : nat)
         (head : segment),
    heap_extends g h -> reify n g node = Some r ->
    exists k, forall hs,
      heap_extends g hs ->
      (forall l, List.length h <= l ->
                 nth_error hs l
                 = nth_error (fst (heap_setAt value h node head rest)) l) ->
      reify k hs (snd (heap_setAt value h node head rest))
      = Some (setAt v r head rest).
Proof.
  intros Hv. induction rest as [|head' rest' IH];
    intros h node r n head Hgh Hnode.
  - (* the last segment *)
    exists (S (Nat.max n m)). intros hs Hghs Hag.
    specialize (Hag (List.length h) (le_n _)).
    destruct head as [idx|key];
      cbn [heap_setAt alloc fst snd] in *;
      unfold heap_arr_set, heap_obj_set in Hag;
      rewrite heap_store_same in Hag
        by (rewrite length_app; cbn [List.length]; lia);
      rewrite reify_ref, Hag.
    + rewrite (heap_elems_at _ _ _ (alloc_fresh h _)).
      rewrite (mapM_arr_set _ _ _ (reify_undefined _ _) _
                 (spread_elems r) idx value v).
      * now rewrite setAt_num.
      * apply (mapM_impl (reify n g)); [|now apply elems_related].
        apply reify_lift; [assumption|lia].
      * apply (reify_lift g hs m); [assumption|lia|assumption].
    + rewrite (heap_props_at _ _ _ (alloc_fresh h _)).
      rewrite (mapM_obj_set _ _ (object_or_empty r) key value v).
      * now rewrite setAt_key.
      * apply (mapM_impl (on_snd (reify n g))); [|now apply props_related].
        apply on_snd_impl, reify_lift; [assumption|lia].
      * apply (reify_lift g hs m); [assumption|lia|assumption].
  - (* an inner segment *)
    destruct head as [idx|key]; cbn [heap_setAt alloc].
    + rewrite (heap_elems_at _ _ _ (alloc_fresh h _)).
      set (es := heap_elems h node).
      set (h1 := (h ++ [CArr es])%list).
      set (current := arr_get HUndefined es idx).
      assert (Hes : mapM (reify n g) es = Some (spread_elems r))
        by now apply elems_related.
      assert (Hgh1 : heap_extends g h1)
        by (eapply heap_extends_trans; [eassumption|apply heap_extends_alloc]).
      assert (Hcur : reify n g current
                     = Some (arr_get VUndefined (spread_elems r) idx))
        by (apply mapM_arr_get; [apply reify_undefined|assumption]).
      destruct (IH h1 current _ n head' Hgh1 Hcur) as [k1 Hin].
      destruct (heap_setAt_agree rest' value h1 current head')
        as [[Hlen Hbelow] Hlt].
      destruct (heap_setAt value h1 current head' rest') as [h2 x].
      cbn [fst snd] in *.
      assert (Hl1 : List.length h1 = S (List.length h))
        by (unfold h1; rewrite length_app; cbn [List.length]; lia).
      assert (Harr : nth_error h2 (List.length h) = Some (CArr es))
        by (rewrite Hbelow by lia; apply alloc_fresh).
      exists (S (Nat.max (Nat.max n m) k1)). intros hs Hghs Hag.
      unfold heap_arr_set in Hag. rewrite (heap_elems_at _ _ _ Harr) in Hag.
      rewrite reify_ref, (Hag (List.length h) (le_n _)),
        heap_store_same by lia.
      rewrite (mapM_arr_set _ _ _ (reify_undefined _ _) _
                 (spread_elems r) idx x
                 (setAt v (arr_get VUndefined (spread_elems r) idx)
                    head' rest')).
      * now rewrite setAt_num.
      * apply (mapM_impl (reify n g)); [|assumption].
        apply reify_lift; [assumption|lia].
      * apply (reify_fuel_le _ k1); [lia|].
        apply Hin; [assumption|].
        intros l Hl. rewrite Hag by lia. apply heap_store_other. lia.
    + rewrite (heap_props_at _ _ _ (alloc_fresh h _)).
      set (fs := heap_props h node).
      set (h1 := (h ++ [CObj fs])%list).
      set (current := obj_get HUndefined fs key).
      assert (Hfs : mapM (on_snd (reify n g)) fs = Some (object_or_empty r))
        by now apply props_related.
      assert (Hgh1 : heap_extends g h1)
        by (eapply heap_extends_trans; [eassumption|apply heap_extends_alloc]).
      assert (Hcur : reify n g current
                     = Some (obj_get VUndefined (object_or_empty r) key))
        by (apply mapM_obj_get; [apply reify_undefined|assumption]).
      destruct (IH h1 current _ n head' Hgh1 Hcur) as [k1 Hin].
      destruct (heap_setAt_agree rest' value h1 current head')
        as [[Hlen Hbelow] Hlt].
      destruct (heap_setAt value h1 current head' rest') as [h2 x].
      cbn [fst snd] in *.
      assert (Hl1 : List.length h1 = S (List.length h))
        by (unfold h1; rewrite length_app; cbn [List.length]; lia).
      assert (Hobj : nth_error h2 (List.length h) = Some (CObj fs))
        by (rewrite Hbelow by lia; apply alloc_fresh).
      exists (S (Nat.max (Nat.max n m) k1)). intros hs Hghs Hag.
      unfold heap_obj_set in Hag. rewrite (heap_props_at _ _ _ Hobj) in Hag.
      rewrite reify_ref, (Hag (List.length h) (le_n _)),
        heap_store_same by lia.
      rewrite (mapM_obj_set _ _ (object_or_empty r) key x
                 (setAt v (obj_get VUndefined (object_or_empty r) key)
                    head' rest')).
      * now rewrite setAt_key.
      * apply (mapM_impl (on_snd (reify n g))); [|assumption].
        apply on_snd_impl, reify_lift; [assumption|lia].
      * apply (reify_fuel_le _ k1); [lia|].
        apply Hin; [assumption|].
        intros l Hl. rewrite Hag by lia. apply heap_store_other. lia.
Qed.

Lemma heap_setValueByPath_sim (h : heap) (root value : hval) (r v : jsval)
  (n m : nat) (P : option Path) :
  reify n h root = Some r -> reify m h value = Some v ->
  exists k,
    reify k (fst (heap_setValueByPath h root P value))
            (snd (heap_setValueByPath h root P value))
    = Some (setValueByPath r P v).
Proof.
  intros Hr Hv. destruct P as [[|head rest]|];
    try (exists m; exact Hv).
  cbn [heap_setValueByPath setValueByPath].
  destruct (heap_setAt_sim h value v m Hv rest h root r n head
              (fun l c H => H) Hr) as [k Hk].
  exists k. apply Hk; [|reflexivity].
  apply agree_below_extends, heap_setAt_agree.
Qed.

(* ================================================================= *)
(** ** Claims on what setValueByPath leaves alone *)

(** C4, as stated, fails: when the two paths part at segments of
    different kinds, the writer replaces the container that the other
    path reads by a fresh container of the other kind.  Root [[1,2]],
    written path [["b"]], read path [[0]]: the read gave [1] before and
    gives [undefined] after. *)
Lemma frame_fails_across_kinds :
  ~ (forall (R V : jsval) (P Q : Path),
        diverges P Q = true ->
        getValueByPath (setValueByPath R (Some P) V) (Some Q)
        = getValueByPath R (Some Q)).
Proof.
  intros H.
  specialize (H (VArr [VNum 1; VNum 2]) (VNum 0) [SKey "b"] [SNum 0] eq_refl).
  vm_compute in H. discriminate.
Qed.

Lemma get_loop_child (node : jsval) (seg : segment) (rest : Path) :
  get_loop node (seg :: rest) = get_loop (child node seg) rest.
Proof.
  destruct seg as [n|k]; cbn [child].
  - destruct node; try (rewrite get_loop_not_arr by reflexivity);
      cbn [spread_elems]; rewrite ?arr_get_nil, ?get_loop_undefined;
      reflexivity.
  - destruct node; try (rewrite get_loop_not_obj by reflexivity);
      cbn [object_or_empty]; unfold obj_get; cbn [obj_lookup];
      rewrite ?get_loop_undefined; reflexivity.
Qed.

Lemma get_loop_setAt_unclobbered :
  forall (P' : Path) (p : segment) (Q : Path) (value node : jsval),
    diverges (p :: P') Q = true ->
    clobbers node (p :: P') Q = false ->
    get_loop (setAt value node p P') Q = get_loop node Q.
Proof.
  induction P' as [|p' P'' IH]; intros p [|q Q'] value node Hd Hc;
    cbn [diverges clobbers] in Hd, Hc; try discriminate;
    destruct (segment_eqb p q) eqn:E; try discriminate.
  - destruct (same_kind p q) eqn:Ek.
    + apply segment_eqb_neq in E. now apply get_loop_setAt_differ.
    + cbn [negb andb] in Hc.
      destruct p as [i|k], q as [j|k']; try discriminate.
      * rewrite setAt_num, !get_loop_not_obj; try reflexivity.
        now destruct node.
      * rewrite setAt_key, !get_loop_not_arr; try reflexivity.
        now destruct node.
  - apply segment_eqb_eq in E. subst q.
    rewrite (get_loop_child node p).
    destruct p as [i|k]; cbn [child] in *.
    + rewrite setAt_num, get_loop_arr, arr_get_set_same. cbn [setAt_stored].
      now apply IH.
    + rewrite setAt_key, get_loop_obj, obj_get_set_same. cbn [setAt_stored].
      now apply IH.
  - destruct (same_kind p q) eqn:Ek.
    + apply segment_eqb_neq in E. now apply get_loop_setAt_differ.
    + cbn [negb andb] in Hc.
      destruct p as [i|k], q as [j|k']; try discriminate.
      * rewrite setAt_num, !get_loop_not_obj; try reflexivity.
        now destruct node.
      * rewrite setAt_key, !get_loop_not_arr; try reflexivity.
        now destruct node.
Qed.

Lemma get_set_unclobbered (root value : jsval) (P Q : Path) :
  diverges P Q = true -> clobbers root P Q = false ->
  getValueByPath (setValueByPath root (Some P) value) (Some Q)
  = getValueByPath root (Some Q).
Proof.
  intros Hd Hc. destruct P as [|p P']; [discriminate|].
  destruct Q as [|q Q']; [discriminate|].
  now apply get_loop_setAt_unclobbered.
Qed.

(** A write through an existing path replaces no container by one of
    another kind. *)
Lemma present_never_clobbers :
  forall (P Q : Path) (node : jsval),
    path_present node P = true -> clobbers node P Q = false.
Proof.
  induction P as [|p P IH]; intros [|q Q] node H; try reflexivity.
  cbn [clobbers]. destruct (segment_eqb p q) eqn:E.
  - apply IH. destruct p as [i|k]; cbn [path_present child] in *.
    + destruct node; try discriminate.
      apply andb_true_iff in H. now destruct H.
    + destruct node; try discriminate. cbn [object_or_empty].
      unfold obj_get. now destruct (obj_lookup fields k).
  - destruct p as [i|k], q as [j|k']; try reflexivity;
      cbn [path_present] in H; now destruct node.
Qed.

(** Where the write replaces the container that [Q] reads through, the
    read finds a container of the other kind and returns [undefined]. *)
Lemma engine_get_loop_setAt_clobbered :
  forall (P' : Path) (p : segment) (Q : Path) (value node : jsval),
    diverges (p :: P') Q = true ->
    clobbers node (p :: P') Q = true ->
    engine_get_loop (Found (setAt value node p P')) Q = Found VUndefined.
Proof.
  induction P' as [|p' P'' IH]; intros p [|q Q'] value node Hd Hc;
    cbn [diverges clobbers] in Hd, Hc; try discriminate;
    destruct (segment_eqb p q) eqn:E; try discriminate.
  - apply andb_true_iff in Hc. destruct Hc as [Hk _].
    destruct p as [i|k], q as [j|k']; try discriminate;
      rewrite ?setAt_num, ?setAt_key; reflexivity.
  - apply segment_eqb_eq in E. subst q.
    destruct p as [i|k]; cbn [child] in Hc.
    + rewrite setAt_num, engine_get_loop_arr, arr_get_set_same.
      cbn [setAt_stored]. now apply IH.
    + rewrite setAt_key, engine_get_loop_obj, prop_read_set_same.
      cbn [setAt_stored]. now apply IH.
  - apply andb_true_iff in Hc. destruct Hc as [Hk _].
    destruct p as [i|k], q as [j|k']; try discriminate;
      rewrite ?setAt_num, ?setAt_key; reflexivity.
Qed.

Lemma engine_get_set_clobbered (root value : jsval) (P Q : Path) :
  diverges P Q = true -> clobbers root P Q = true ->
  engine_getValueByPath (setValueByPath root (Some P) value) (Some Q)
  = Found VUndefined.
Proof.
  intros Hd Hc. destruct P as [|p P']; [discriminate|].
  destruct Q as [|q Q']; [discriminate|].
  now apply engine_get_loop_setAt_clobbered.
Qed.

(** The frame of a write as the engine reads it. *)
Lemma engine_frame (root value : jsval) (P Q : Path) :
  diverges P Q = true ->
  path_present root P = true
  \/ (inherit_free Q = true /\ clobbers root P Q = false) ->
  engine_getValueByPath (setValueByPath root (Some P) value) (Some Q)
  = engine_getValueByPath root (Some Q).
Proof.
  intros Hd [Hp|[HQ Hc]].
  - now apply engine_get_set_present.
  - rewrite !engine_getValueByPath_agrees by assumption.
    now rewrite get_set_unclobbered.
Qed.

Lemma engine_get_set_roundtrip_opt (R V : jsval) (P : option Path) :
  engine_getValueByPath (setValueByPath R P V) P = Found V.
Proof.
  destruct P as [[|head rest]|]; try reflexivity.
  apply engine_get_loop_setAt.
Qed.

(** C4, amended.  [setValueByPath] does not mutate its root: every cell
    of the heap it was called on is unchanged afterwards, so the root
    reads back as the same value.  A read through a path [Q] that parts
    from the written path [P] at a segment where both are defined
    returns what it returned on the root, unless the two segments where
    they part are of different kinds and the root holds there a
    container of the kind that [Q] addresses: the write replaces it by a
    container of the other kind, and the read returns [undefined].  In
    particular the read is unchanged, for every such [Q], whenever [P]
    exists in the root.  When [P] does not exist in the root, this is
    stated for a path [P] without segment [__proto__] and a path [Q]
    without names inherited from [Object.prototype]; the other cases
    are left out, as are integer segments that are no array indices
    (2^32 - 1 or more).  The value returned is the one the functional
    reading computes. *)
Theorem setValueByPath_frame (h : heap) (root value : hval) (r v : jsval)
  (n m : nat) (P : option Path) :
  reify n h root = Some r -> reify m h value = Some v ->
  heap_extends h (fst (heap_setValueByPath h root P value))
  /\ reify n (fst (heap_setValueByPath h root P value)) root = Some r
  /\ (path_writable P = true ->
      engine_setValueByPath r P v = Some (setValueByPath r P v)
      /\ exists k,
           reify k (fst (heap_setValueByPath h root P value))
                   (snd (heap_setValueByPath h root P value))
           = Some (setValueByPath r P v))
  /\ (forall P' Q, P = Some P' -> path_present r P' = true ->
         indices_bounded P' = true -> diverges P' Q = true ->
         engine_setValueByPath r P v = Some (setValueByPath r P v)
         /\ engine_getValueByPath (setValueByPath r P v) (Some Q)
            = engine_getValueByPath r (Some Q))
  /\ (forall P' Q, P = Some P' -> writable P' = true ->
         diverges P' Q = true ->
         engine_setValueByPath r P v = Some (setValueByPath r P v)
         /\ (clobbers r P' Q = true ->
             engine_getValueByPath (setValueByPath r P v) (Some Q)
             = Found VUndefined)
         /\ (clobbers r P' Q = false -> inherit_free Q = true ->
             engine_getValueByPath (setValueByPath r P v) (Some Q)
             = engine_getValueByPath r (Some Q)
             /\ getValueByPath (setValueByPath r P v) (Some Q)
                = getValueByPath r (Some Q))).
Proof.
  intros Hr Hv. pose proof (heap_setValueByPath_extends h root P value) as Hext.
  split; [exact Hext|]. split; [now apply (reify_extends _ _ Hext)|].
  split; [|split].
  - intros Hw. split.
    + now apply engine_setValueByPath_agrees.
    + now apply (heap_setValueByPath_sim h root value r v n m).
  - intros P' Q -> Hp Hb Hd. split.
    + now apply engine_setValueByPath_present.
    + now apply engine_get_set_present.
  - intros P' Q -> Hw Hd.
    split; [now apply engine_setValueByPath_agrees|]. split.
    + intros Hc. now apply engine_get_set_clobbered.
    + intros Hc HQ.
      pose proof (get_set_unclobbered r v P' Q Hd Hc) as E.
      split; [|exact E].
      rewrite !engine_getValueByPath_agrees by assumption. now rewrite E.
Qed.

Lemma setValueByPath_frame_witness :
  let h := [CArr [HNum 1; HRef 1]; CObj [("a", HNum 3)]] in
  let r := VArr [VNum 1; VObj [("a", VNum 3)]] in
  let P := Some [SNum 1; SKey "b"] in
  (reify 2 h (HRef 0) = Some r /\ reify 0 h (HNum 7) = Some (VNum 7))
  /\ reify 2 (fst (heap_setValueByPath h (HRef 0) P (HNum 7))) (HRef 0) = Some r
  /\ engine_setValueByPath r P (VNum 7)
     = Some (VArr [VNum 1; VObj [("a", VNum 3); ("b", VNum 7)]])
  /\ engine_getValueByPath (setValueByPath r P (VNum 7))
       (Some [SNum 1; SKey "a"])
     = Found (VNum 3)
  /\ getValueByPath (setValueByPath r P (VNum 7)) (Some [SKey "c"])
     = VUndefined.
Proof.
  intros h r P. split; [split; reflexivity|].
  destruct (setValueByPath_frame h (HRef 0) (HNum 7) r (VNum 7) 2 0 P
              eq_refl eq_refl) as (_ & Hroot & Hval & _ & Hframe).
  split; [exact Hroot|]. split; [|split].
  - exact (eq_trans (proj1 (Hval eq_refl)) eq_refl).
  - destruct (Hframe [SNum 1; SKey "b"] [SNum 1; SKey "a"]
                eq_refl eq_refl eq_refl) as (_ & _ & Hsame).
    exact (eq_trans (proj1 (Hsame eq_refl eq_refl)) eq_refl).
  - destruct (Hframe [SNum 1; SKey "b"] [SKey "c"]
                eq_refl eq_refl eq_refl) as (_ & _ & Hsame).
    exact (eq_trans (proj2 (Hsame eq_refl eq_refl)) eq_refl).
Defined.

(* ================================================================= *)
(** ** pathsEqual *)

Lemma strict_neq_false (x y : option segment) :
  strict_neq x y = false <-> x = y.
Proof.
  destruct x as [[n|s]|], y as [[m|t]|]; simpl; split; intros H;
    try discriminate; try reflexivity; try (inversion H; subst).
  - apply negb_false_iff, Nat.eqb_eq in H. now subst.
  - now rewrite Nat.eqb_refl.
  - apply negb_false_iff, String.eqb_eq in H. now subst.
  - now rewrite String.eqb_refl.
Qed.

Lemma pathsEqual_loop_true (a b : Path) (n : nat) :
  forall i,
    pathsEqual_loop a b i n = true <->
    (forall j, i <= j < i + n -> nth_error a j = nth_error b j).
Proof.
  induction n as [|n IH]; intros i; cbn [pathsEqual_loop].
  - split; [intros _ j Hj; lia|reflexivity].
  - destruct (strict_neq (nth_error a i) (nth_error b i)) eqn:E.
    + split; [discriminate|]. intros H.
      rewrite (proj2 (strict_neq_false _ _) (H i ltac:(lia))) in E.
      discriminate.
    + apply strict_neq_false in E. rewrite IH. split; intros H j Hj.
      * destruct (Nat.eq_dec j i) as [->|Hne]; [exact E|]. apply H. lia.
      * apply H. lia.
Qed.

Lemma same_reference_eq (a b : option path_ref) :
  same_reference a b = true -> a = b.
Proof.
  destruct a, b; simpl; intros H; try discriminate; [|reflexivity].
  apply Nat.eqb_eq in H. now subst.
Qed.

(** On two arrays, [pathsEqual] decides equality of their contents. *)
Lemma pathsEqual_contents (st : path_store) (a b : path_ref) :
  pathsEqual st (Some a) (Some b) = true <-> st a = st b.
Proof.
  unfold pathsEqual. destruct (same_reference (Some a) (Some b)) eqn:Er.
  - apply same_reference_eq in Er. inversion Er. subst. tauto.
  - destruct (List.length (st a) =? List.length (st b))%nat eqn:El;
      cbn [negb].
    + apply Nat.eqb_eq in El. rewrite pathsEqual_loop_true. split.
      * intros H. apply nth_error_ext. intros j.
        destruct (Nat.lt_ge_cases j (List.length (st a))) as [Hj|Hj].
        -- apply H. lia.
        -- rewrite (proj2 (nth_error_None _ _) Hj).
           symmetry. apply nth_error_None. lia.
      * intros -> j _. reflexivity.
    + apply Nat.eqb_neq in El. split; [discriminate|].
      intros H. now rewrite H in El.
Qed.

Lemma equal_by_value_eq (p q : segment) : equal_by_value p q <-> p = q.
Proof.
  destruct p, q; simpl; split; intros H; try contradiction;
    try discriminate; try (inversion H; reflexivity); now subst.
Qed.

Lemma elementwise_equal (A B : Path) :
  A = B <->
  (List.length A = List.length B
   /\ forall i p q, nth_error A i = Some p -> nth_error B i = Some q ->
                    equal_by_value p q).
Proof.
  split.
  - intros ->. split; [reflexivity|]. intros i p q Hp Hq.
    apply equal_by_value_eq. congruence.
  - intros [Hlen H]. apply nth_error_ext. intros j.
    destruct (nth_error A j) as [p|] eqn:Ep, (nth_error B j) as [q|] eqn:Eq.
    + f_equal. apply equal_by_value_eq. eapply H; eassumption.
    + apply nth_error_None in Eq.
      assert (j < List.length A) by (apply nth_error_Some; congruence). lia.
    + apply nth_error_None in Ep.
      assert (j < List.length B) by (apply nth_error_Some; congruence). lia.
    + reflexivity.
Qed.

(** C7.  On two paths, [pathsEqual] holds exactly when they have the
    same length and, position by position, segments equal by value; a
    number is never equal to a string, whatever their texts.  Hence
    [pathsEqual(P, P)] holds for every [P] (the same array, or another
    array with the same contents) and [pathsEqual([1], ["1"])] is
    false. *)
Theorem pathsEqual_by_value (st : path_store) (a b : path_ref) :
  (pathsEqual st (Some a) (Some b) = true <->
   (List.length (st a) = List.length (st b)
    /\ forall i p q, nth_error (st a) i = Some p -> nth_error (st b) i = Some q ->
                     equal_by_value p q))
  /\ (forall n s, ~ equal_by_value (SNum n) (SKey s))
  /\ pathsEqual st (Some a) (Some a) = true
  /\ (st a = st b -> pathsEqual st (Some a) (Some b) = true)
  /\ (st a = [SNum 1] -> st b = [SKey "1"] ->
      pathsEqual st (Some a) (Some b) = false).
Proof.
  split; [|split; [|split; [|split]]].
  - rewrite pathsEqual_contents. apply elementwise_equal.
  - intros n s H. exact H.
  - now apply pathsEqual_contents.
  - apply pathsEqual_contents.
  - intros Ha Hb. destruct (pathsEqual st (Some a) (Some b)) eqn:E;
      [|reflexivity].
    apply pathsEqual_contents in E. congruence.
Qed.

Lemma pathsEqual_by_value_witness :
  let st : path_store := fun l => if (l =? 0)%nat then [SNum 1] else [SKey "1"] in
  (st 0 = [SNum 1] /\ st 1 = [SKey "1"] /\ st 1 = st 2)
  /\ pathsEqual st (Some 0) (Some 1) = false
  /\ pathsEqual st (Some 1) (Some 2) = true.
Proof.
  intros st. split; [repeat split|]. split.
  - apply (pathsEqual_by_value st 0 1); reflexivity.
  - apply (pathsEqual_by_value st 1 2); reflexivity.
Defined.

(** C10.  [pathsEqual] is false as soon as exactly one argument is
    absent, even against an empty path: [pathsEqual(undefined,
    undefined)] and [pathsEqual([], [])] hold, [pathsEqual(undefined,
    [])] does not, although [getValueByPath] reads the whole document
    through the absent path and through the empty one. *)
Theorem pathsEqual_absent (st : path_store) (a b : path_ref) :
  pathsEqual st None None = true
  /\ pathsEqual st None (Some b) = false
  /\ pathsEqual st (Some a) None = false
  /\ (st a = [] -> st b = [] ->
      pathsEqual st (Some a) (Some b) = true
      /\ forall R, getValueByPath R None = getValueByPath R (Some (st b))).
Proof.
  split; [reflexivity|]. split; [reflexivity|]. split; [reflexivity|].
  intros Ha Hb. split.
  - apply pathsEqual_contents. congruence.
  - intros R. now rewrite Hb.
Qed.

Lemma pathsEqual_absent_witness :
  let st : path_store := fun _ => [] in
  (st 0 = [] /\ st 1 = [])
  /\ pathsEqual st (Some 0) (Some 1) = true
  /\ pathsEqual st None (Some 1) = false.
Proof.
  intros st. split; [split; reflexivity|]. split.
  - apply (proj2 (proj2 (proj2 (pathsEqual_absent st 0 1))));
      reflexivity.
  - apply (pathsEqual_absent st 0 1).
Defined.

(* ================================================================= *)
(** ** jsonPathToString *)

Lemma string_app_assoc (a b c : string) : (a ++ b) ++ c = a ++ (b ++ c).
Proof. induction a as [|x a IH]; simpl; [reflexivity|now rewrite IH]. Qed.

Lemma string_app_nil_r (a : string) : a ++ "" = a.
Proof. induction a as [|x a IH]; simpl; [reflexivity|now rewrite IH]. Qed.

Lemma bracketed_text (seg : segment) :
  bracketed seg = "[" ++ join_elem (path_segment_text seg) ++ "]".
Proof.
  destruct seg as [n|s]; cbn [bracketed path_segment_text join_elem to_string].
  - reflexivity.
  - now rewrite !string_app_assoc.
Qed.

Lemma joined_segments (p : Path) :
  forall seg,
    "[" ++ array_join "][" (map path_segment_text (seg :: p)) ++ "]"
    = bracketed_segments (seg :: p).
Proof.
  induction p as [|seg' p IH]; intros seg.
  - cbn [map array_join bracketed_segments].
    now rewrite bracketed_text, string_app_nil_r.
  - change (bracketed_segments (seg :: seg' :: p))
      with (bracketed seg ++ bracketed_segments (seg' :: p)).
    rewrite <- IH, bracketed_text.
    change (array_join "][" (map path_segment_text (seg :: seg' :: p)))
      with (join_elem (path_segment_text seg) ++ "]["
            ++ array_join "][" (map path_segment_text (seg' :: p))).
    rewrite !string_app_assoc. reflexivity.
Qed.

(** C9.  [jsonPathToString] renders the absent path and the empty path
    as ["$"], and any other path as ["$"] followed by one bracketed
    segment per element, in order: an integer as a bare number, a string
    between double quotes.  [jsonPathToString(undefined)] is ["$"] and
    [jsonPathToString(["customer", 0])] is [$["customer"][0]]. *)
Theorem jsonPathToString_render :
  jsonPathToString None = "$"
  /\ jsonPathToString (Some []) = "$"
  /\ (forall p : Path, jsonPathToString (Some p) = "$" ++ bracketed_segments p)
  /\ jsonPathToString (Some [SKey "customer"; SNum 0])
     = "$[" ++ dquote ++ "customer" ++ dquote ++ "][0]".
Proof.
  split; [reflexivity|]. split; [reflexivity|]. split; [|reflexivity].
  intros [|seg p]; [reflexivity|].
  cbn [jsonPathToString List.length Nat.eqb].
  rewrite <- joined_segments. reflexivity.
Qed.

(* ================================================================= *)
(** ** normalizeNodeData *)

Lemma normalize_step_kept (obj : list (string * jsval)) (row : NodeRow) :
  normalize_step obj row
  = if row_kept row then overwrite obj (row_entry row) else obj.
Proof.
  unfold normalize_step, row_kept, overwrite, row_entry.
  destruct (type row =? "array"), (type row =? "object"),
    (key_truthy (key row)); reflexivity.
Qed.

Lemma normalize_loop_filter (rows : list NodeRow) :
  forall acc,
    fold_left normalize_step rows acc
    = fold_left overwrite (map row_entry (filter row_kept rows)) acc.
Proof.
  induction rows as [|row rows IH]; intros acc; [reflexivity|].
  cbn [fold_left filter]. rewrite normalize_step_kept, IH.
  now destruct (row_kept row).
Qed.

Lemma obj_lookup_fresh (o : list (string * jsval)) (k : string) :
  ~ In k (map fst o) -> obj_lookup o k = None.
Proof.
  induction o as [|[k' v] o IH]; intros H; [reflexivity|].
  cbn [obj_lookup]. destruct (String.eqb_spec k' k) as [->|Hne].
  - exfalso. apply H. now left.
  - apply IH. intros Hin. apply H. now right.
Qed.

(** Distinct keys that are not array indices are laid out in insertion
    order. *)
Lemma overwrite_in_order (entries : list (string * jsval)) :
  forall acc,
    NoDup (map fst (acc ++ entries)) ->
    (forall k, In k (map fst entries) -> array_index k = None) ->
    fold_left overwrite entries acc = (acc ++ entries)%list.
Proof.
  induction entries as [|[k v] entries IH]; intros acc Hnd Hidx.
  - now rewrite app_nil_r.
  - cbn [fold_left]. unfold overwrite at 2. cbn [fst snd].
    assert (Hfresh : obj_lookup acc k = None).
    { apply obj_lookup_fresh. rewrite map_app in Hnd. cbn [map fst] in Hnd.
      apply NoDup_remove_2 in Hnd. intros Hin. apply Hnd.
      apply in_or_app. now left. }
    unfold obj_set. rewrite Hfresh, (Hidx k) by now left.
    replace (acc ++ (k, v) :: entries)%list
      with ((acc ++ [(k, v)]) ++ entries)%list
      by now rewrite <- app_assoc.
    apply IH.
    + now rewrite <- app_assoc.
    + intros k' Hin. apply Hidx. now right.
Qed.

Lemma kept_is_listed (rows : list NodeRow) :
  (forall row, In row rows -> key row <> Some "") ->
  filter row_kept rows = filter row_listed rows.
Proof.
  intros H. apply filter_ext_in. intros row Hin.
  unfold row_kept, row_listed, key_truthy. specialize (H row Hin).
  destruct (key row) as [s|]; [|reflexivity].
  destruct (String.eqb_spec s "") as [->|Hne]; [congruence|reflexivity].
Qed.

(** C6, as stated, fails: the output is not in row order when a key is
    an array index.  The rows [b: 1] and [1: 2] are serialised with the
    key [1] first, as the engine lists it. *)
Lemma normalize_lists_index_keys_first :
  ~ (forall rows : list NodeRow,
        rows <> [] ->
        (forall row, rows = [row] -> key row <> None) ->
        engine_normalizeNodeData (Some rows)
        = Some (JSON_stringify_object
                  (map row_entry (filter row_listed rows)) 2)).
Proof.
  intros H.
  specialize (H [mkRow (Some "b") (VNum 1) "number";
                 mkRow (Some "1") (VNum 2) "number"]).
  assert (E : engine_normalizeNodeData
                (Some [mkRow (Some "b") (VNum 1) "number";
                       mkRow (Some "1") (VNum 2) "number"])
              = Some (JSON_stringify_object
                        (map row_entry
                           (filter row_listed
                              [mkRow (Some "b") (VNum 1) "number";
                               mkRow (Some "1") (VNum 2) "number"])) 2)).
  { apply H; [discriminate|]. intros row Hrow. discriminate. }
  vm_compute in E. discriminate.
Qed.

Lemma kept_key_not_proto (rows : list NodeRow) :
  (forall row, In row rows -> key row <> Some "__proto__") ->
  forall kv, In kv (map row_entry (filter row_kept rows)) ->
             fst kv <> "__proto__".
Proof.
  intros H kv Hin. apply in_map_iff in Hin. destruct Hin as (row & <- & Hin).
  apply filter_In in Hin. destruct Hin as [Hin _]. specialize (H row Hin).
  unfold row_entry. cbn [fst]. destruct (key row) as [s|]; cbn [key_string].
  - congruence.
  - discriminate.
Qed.

(** Without a row of key [__proto__] the engine builds the object of
    the JSON reading. *)
Lemma engine_normalize_agrees (rows : list NodeRow) :
  (forall row, In row rows -> key row <> Some "__proto__") ->
  engine_normalizeNodeData (Some rows) = Some (normalizeNodeData (Some rows)).
Proof.
  intros H.
  assert (E : fold_left engine_normalize_step rows (Some [])
              = Some (fold_left normalize_step rows [])).
  { rewrite engine_normalize_loop_filter, normalize_loop_filter.
    apply engine_overwrite_agrees. now apply kept_key_not_proto. }
  unfold engine_normalizeNodeData, normalizeNodeData. rewrite E.
  destruct rows as [|row [|row' rows]]; cbn [List.length Nat.eqb option_map];
    try reflexivity.
  now destruct (negb (key_truthy (key row))).
Qed.

(** C6, amended.  [normalizeNodeData] yields ["{}"] for an absent or
    empty row list; the row's value rendered as text for a single row
    without a key; and otherwise the 2-space-indented JSON text of the
    object obtained by assigning, in row order, the value of every row
    that has a key and is not tagged array or object to its key: a later
    row with the same key overwrites the value in place, and the engine
    lists keys that are array indices first.  When the keys of those
    rows are distinct and none is an array index, the text lists them in
    row order.  Rows with the empty key or the key [__proto__], numbers
    above 2^53 in magnitude and, for the single row, an object that
    hides [toString] are left out.  The three examples of the
    specification hold. *)
Theorem normalizeNodeData_cases :
  engine_normalizeNodeData None = Some "{}"
  /\ engine_normalizeNodeData (Some []) = Some "{}"
  /\ (forall row, key row = None -> text_safe (value row) = true ->
                  engine_normalizeNodeData (Some [row])
                  = Some (to_string (value row)))
  /\ (forall rows,
         rows <> [] ->
         (forall row, rows = [row] -> key row <> None) ->
         (forall row, In row rows ->
                      key row <> Some "" /\ key row <> Some "__proto__"
                      /\ safe_value (value row) = true) ->
         engine_normalizeNodeData (Some rows)
         = Some (JSON_stringify_object (listed_object rows) 2)
         /\ normalizeNodeData (Some rows)
            = JSON_stringify_object (listed_object rows) 2
         /\ (NoDup (map fst (map row_entry (filter row_listed rows))) ->
             (forall row, In row rows -> row_listed row = true ->
                          array_index (key_string (key row)) = None) ->
             listed_object rows = map row_entry (filter row_listed rows)))
  /\ engine_normalizeNodeData (Some [mkRow None (VNum 42) "primitive"])
     = Some "42"
  /\ engine_normalizeNodeData
       (Some [mkRow (Some "a") (VNum 1) "primitive";
              mkRow (Some "b") (VArr []) "array"])
     = Some ("{" ++ newline ++ "  " ++ dquote ++ "a" ++ dquote ++ ": 1"
             ++ newline ++ "}").
Proof.
  split; [reflexivity|]. split; [reflexivity|]. split; [|split].
  - intros row H _. cbn [engine_normalizeNodeData List.length Nat.eqb].
    unfold key_truthy. now rewrite H.
  - intros rows Hne Hkey Hrows.
    assert (Hk : filter row_kept rows = filter row_listed rows).
    { apply kept_is_listed. intros row Hin. now destruct (Hrows row Hin). }
    assert (Htext : normalizeNodeData (Some rows)
                    = JSON_stringify_object (listed_object rows) 2).
    { unfold listed_object. rewrite <- Hk, <- normalize_loop_filter.
      destruct rows as [|row [|row' rows]]; [congruence| |reflexivity].
      cbn [normalizeNodeData List.length Nat.eqb].
      assert (Ht : key_truthy (key row) = true).
      { destruct (Hrows row (or_introl eq_refl)) as (He & _).
        specialize (Hkey row eq_refl). unfold key_truthy.
        destruct (key row) as [s|]; [|congruence].
        destruct (String.eqb_spec s "") as [->|Hs];
          [congruence|reflexivity]. }
      now rewrite Ht. }
    split; [|split; [exact Htext|]].
    + rewrite engine_normalize_agrees, Htext; [reflexivity|].
      intros row Hin. now destruct (Hrows row Hin) as (_ & Hp & _).
    + intros Hnd Hidx. unfold listed_object.
      rewrite overwrite_in_order; [reflexivity|exact Hnd|].
      intros k Hin. rewrite map_map in Hin. apply in_map_iff in Hin.
      destruct Hin as (row & <- & Hrow). apply filter_In in Hrow.
      destruct Hrow as [Hrow Hl]. now apply Hidx.
  - split; reflexivity.
Qed.

Lemma normalizeNodeData_cases_witness :
  let rows := [mkRow (Some "b") (VNum 1) "number";
               mkRow (Some "c") (VObj []) "object";
               mkRow (Some "a") (VStr "x") "string"] in
  engine_normalizeNodeData (Some [mkRow None (VBool true) "boolean"])
  = Some "true"
  /\ engine_normalizeNodeData (Some rows)
     = Some (JSON_stringify_object (listed_object rows) 2)
  /\ listed_object rows = [("b", VNum 1); ("a", VStr "x")].
Proof.
  intros rows.
  destruct normalizeNodeData_cases as (_ & _ & Hone & Hmany & _).
  assert (Hrows : forall row, In row rows ->
                    key row <> Some "" /\ key row <> Some "__proto__"
                    /\ safe_value (value row) = true).
  { intros row [<-|[<-|[<-|[]]]]; repeat split; discriminate. }
  destruct (Hmany rows ltac:(discriminate)
              ltac:(intros row H; discriminate) Hrows)
    as (Htext & _ & Horder).
  split; [|split].
  - apply (Hone (mkRow None (VBool true) "boolean")); reflexivity.
  - exact Htext.
  - apply Horder.
    + repeat constructor; simpl; intuition discriminate.
    + intros row [<-|[<-|[<-|[]]]] H; reflexivity.
Defined.

(* ================================================================= *)
(** ** The Save handler *)

Lemma isPrimitiveNode_single_keyless (nodeData : NodeData) :
  isPrimitiveNode nodeData = single_keyless_row nodeData.
Proof.
  unfold isPrimitiveNode, single_keyless_row.
  destruct (text nodeData) as [[|row [|row' rows]]|]; reflexivity.
Qed.

Lemma object_guard (parsed : jsval) :
  negb (truthy parsed) || negb (typeof parsed =? "object")
  || Array_isArray parsed = negb (plain_object parsed).
Proof.
  destruct parsed as [| |[|]|n|s|l|o]; try reflexivity.
  - simpl. now destruct (n =? 0)%Z.
  - simpl. now destruct (s =? "").
Qed.

Lemma alert_aborted (msg : string) (w : World) : aborted w (alert msg w).
Proof. unfold aborted, alert. cbn. repeat split. now exists msg. Qed.

Section SaveHandlerFacts.
Variable JSON_parse : string -> parse_result.
Variable pipeline :
  option string -> list NodeData * path_store -> list NodeData * path_store.

Lemma save_rejects_shape (w : World) (nodeData : NodeData)
  (root parsed : jsval) :
  selectedNode w = Some nodeData ->
  JSON_parse (contents_text (contents w)) = Parsed root ->
  JSON_parse (draft w) = Parsed parsed ->
  shape_mismatch nodeData parsed = true ->
  exists msg, save_onClick JSON_parse pipeline w = alert msg w.
Proof.
  intros Hsel Hdoc Hdraft Hshape. unfold save_onClick.
  rewrite Hsel, Hdoc, Hdraft, isPrimitiveNode_single_keyless,
    container_guard, object_guard.
  unfold shape_mismatch in Hshape.
  destruct (single_keyless_row nodeData); rewrite Hshape; eauto.
Qed.

Lemma save_rejects_document (w : World) (nodeData : NodeData)
  (message : string) :
  selectedNode w = Some nodeData ->
  JSON_parse (contents_text (contents w)) = SyntaxError message ->
  exists msg, save_onClick JSON_parse pipeline w = alert msg w.
Proof.
  intros Hsel Hdoc. unfold save_onClick. rewrite Hsel, Hdoc. eauto.
Qed.

(** X28.  When the document of the store fails to parse, or the parsed
    draft has the wrong shape for the node kind as the handler tells it
    (a node whose single row has an absent or empty key, given a
    non-null object or an array; any other node given an array or a
    non-object), the save aborts: [setContents] is not called, the
    document is unchanged, and the session stays in the state it was
    in, [Editing], with its draft. *)
Theorem save_aborts (w : World) (nodeData : NodeData) :
  selectedNode w = Some nodeData ->
  isEditing w = true ->
  (exists message,
      JSON_parse (contents_text (contents w)) = SyntaxError message)
  \/ (exists root parsed,
         JSON_parse (contents_text (contents w)) = Parsed root
         /\ JSON_parse (draft w) = Parsed parsed
         /\ shape_mismatch nodeData parsed = true) ->
  aborted w (save_onClick JSON_parse pipeline w)
  /\ isEditing (save_onClick JSON_parse pipeline w) = true.
Proof.
  intros Hsel Hedit H.
  assert (Hmsg : exists msg, save_onClick JSON_parse pipeline w = alert msg w).
  { destruct H as [[message Hdoc]|(root & parsed & Hdoc & Hdraft & Hshape)].
    - now apply (save_rejects_document w nodeData message).
    - now apply (save_rejects_shape w nodeData root parsed). }
  destruct Hmsg as [msg ->]. split; [apply alert_aborted|exact Hedit].
Qed.
End SaveHandlerFacts.

(** C5.  The save is not refused for an object-like node whose single
    row has the empty key.  On the document [{"a":{"":1}}], the node at
    [["a"]] with the one row of key [""] and the draft [5], the handler
    takes the node for a primitive one (its test is [!key], which the
    empty key passes, though its comment says "single row with no
    key"), accepts the non-object draft and hands the store
    [{"a":5}]. *)
Theorem save_commits_on_empty_key :
  let nodeData := mkNode (Some [mkRow (Some "") (VNum 1) "number"]) (Some 0) in
  let doc := "{" ++ quoted "a" ++ ":{" ++ quoted "" ++ ":1}}" in
  let w := mkWorld (Some doc) false [nodeData] (Some nodeData)
             (fun _ => [SKey "a"]) true "5" [] [] in
  let w' := save_onClick read_json (fun _ g => g) w in
  read_json doc = Parsed (VObj [("a", VObj [("", VNum 1)])])
  /\ read_json "5" = Parsed (VNum 5)
  /\ setContents_calls w'
     = [(JSON_stringify (VObj [("a", VNum 5)]) 2, true)]
  /\ contents w' = JSON_stringify (VObj [("a", VNum 5)]) 2
  /\ alerts w' = []
  /\ isEditing w' = false.
Proof. vm_compute. repeat split. Qed.

(** The rejected case of the specification: an object-like node and the
    draft [[1,2,3]]. *)
Lemma save_aborts_witness :
  let nodeData :=
    mkNode (Some [mkRow (Some "x") (VNum 1) "number";
                  mkRow (Some "y") (VArr []) "array"]) (Some 0) in
  let w := mkWorld (Some "{}") false [nodeData] (Some nodeData)
             (fun _ => [SKey "a"]) true "[1,2,3]" [] [] in
  let w' := save_onClick read_json (fun _ g => g) w in
  shape_mismatch nodeData (VArr [VNum 1; VNum 2; VNum 3]) = true
  /\ setContents_calls w' = []
  /\ contents w' = Some "{}"
  /\ draft w' = "[1,2,3]"
  /\ isEditing w' = true.
Proof.
  intros nodeData w w'. split; [reflexivity|].
  destruct (save_aborts read_json (fun _ g => g) w nodeData eq_refl eq_refl)
    as [(Hcalls & Hdoc & _ & _ & Hdraft & _) Hedit].
  - right. exists (VObj []), (VArr [VNum 1; VNum 2; VNum 3]).
    repeat split.
  - repeat split; assumption.
Defined.

(* ================================================================= *)
(** ** The handler at work

    The two end-to-end runs of the specification, on the JSON reader. *)

(** Document [{"a":{"x":1,"y":[1,2]}}], object-like node at [["a"]],
    draft [{"x":5,"z":9}]: the store receives the text of
    [{"a":{"x":5,"y":[1,2],"z":9}}] and the session leaves edit mode. *)
Example save_merges_object_node :
  let nodeData :=
    mkNode (Some [mkRow (Some "x") (VNum 1) "number";
                  mkRow (Some "y") (VArr []) "array"]) (Some 0) in
  let doc := "{" ++ quoted "a" ++ ":{" ++ quoted "x" ++ ":1,"
                 ++ quoted "y" ++ ":[1,2]}}" in
  let w := mkWorld (Some doc) false [nodeData] (Some nodeData)
             (fun _ => [SKey "a"]) true
             ("{" ++ quoted "x" ++ ":5," ++ quoted "z" ++ ":9}") [] [] in
  let w' := save_onClick read_json (fun _ g => g) w in
  contents w'
  = JSON_stringify
      (VObj [("a", VObj [("x", VNum 5); ("y", VArr [VNum 1; VNum 2]);
                         ("z", VNum 9)])]) 2
  /\ setContents_calls w' = [(contents w', true)]
  /\ isEditing w' = false
  /\ alerts w' = [].
Proof. vm_compute. repeat split. Qed.

(** Primitive node at [["a","x"]], draft ["hello"] (quoted): [a.x]
    becomes the string and its sibling is unchanged. *)
Example save_replaces_primitive_node :
  let nodeData := mkNode (Some [mkRow None (VNum 1) "number"]) (Some 0) in
  let doc := "{" ++ quoted "a" ++ ":{" ++ quoted "x" ++ ":1,"
                 ++ quoted "y" ++ ":[1,2]}}" in
  let w := mkWorld (Some doc) false [nodeData] (Some nodeData)
             (fun _ => [SKey "a"; SKey "x"]) true (quoted "hello") [] [] in
  let w' := save_onClick read_json (fun _ g => g) w in
  option_map read_json (contents w')
  = Some (Parsed (VObj [("a", VObj [("x", VStr "hello");
                                    ("y", VArr [VNum 1; VNum 2])])]))
  /\ isEditing w' = false.
Proof. vm_compute. repeat split. Qed.

(* ================================================================= *)
(** * Further properties *)

(** ** How reads and writes compose *)

Lemma getValueByPath_loop (R : jsval) (p : Path) :
  getValueByPath R (Some p) = get_loop R p.
Proof. now destruct p. Qed.

Lemma setValueByPath_cons (R V : jsval) (p : segment) (rest : Path) :
  setValueByPath R (Some (p :: rest)) V = setAt V R p rest.
Proof. reflexivity. Qed.

(** A read through a segment reads the element or property of the
    container of that kind, or of none. *)
Lemma get_loop_num (node : jsval) (n : nat) (rest : Path) :
  get_loop node (SNum n :: rest)
  = get_loop (arr_get VUndefined (spread_elems node) n) rest.
Proof.
  destruct node; try (rewrite get_loop_not_arr by reflexivity);
    cbn [spread_elems]; rewrite ?arr_get_nil, ?get_loop_undefined;
    reflexivity.
Qed.

Lemma get_loop_key (node : jsval) (k : string) (rest : Path) :
  get_loop node (SKey k :: rest)
  = get_loop (obj_get VUndefined (object_or_empty node) k) rest.
Proof.
  destruct node; try (rewrite get_loop_not_obj by reflexivity);
    cbn [object_or_empty]; unfold obj_get; cbn [obj_lookup];
    rewrite ?get_loop_undefined; reflexivity.
Qed.

Lemma get_loop_app (P Q : Path) :
  forall cur, get_loop cur (P ++ Q)%list = get_loop (get_loop cur P) Q.
Proof.
  induction P as [|[n|k] P IH]; intros cur; [reflexivity| |];
    cbn [app]; rewrite ?get_loop_num, ?get_loop_key; apply IH.
Qed.

Lemma setAt_app (v : jsval) (q : segment) (Q' : Path) :
  forall (P' : Path) (p : segment) (node : jsval),
    setAt v node p (P' ++ q :: Q')%list
    = setAt (setAt v (get_loop node (p :: P')) q Q') node p P'.
Proof.
  induction P' as [|p' P'' IH]; intros [i|k] node;
    rewrite ?setAt_num, ?setAt_key, ?get_loop_num, ?get_loop_key;
    cbn [app setAt_stored get_loop]; rewrite ?IH; reflexivity.
Qed.

Section OverwriteFacts.
Context {A : Type}.
Variable undef : A.

Lemma arr_set_set (l : list A) (i : nat) (x y : A) :
  arr_set undef (arr_set undef l i x) i y = arr_set undef l i y.
Proof.
  revert l. induction i as [|i IH]; intros [|e t]; cbn [arr_set];
    rewrite ?IH; reflexivity.
Qed.

Lemma arr_set_length (l : list A) (i : nat) (x : A) :
  List.length (arr_set undef l i x) = Nat.max (List.length l) (S i).
Proof.
  revert l. induction i as [|i IH]; intros [|e t]; cbn [arr_set List.length];
    rewrite ?IH; cbn [List.length]; lia.
Qed.

Lemma arr_set_same_value (l : list A) (i : nat) :
  i < List.length l -> arr_set undef l i (arr_get undef l i) = l.
Proof.
  unfold arr_get. revert l.
  induction i as [|i IH]; intros [|e t] H; cbn [List.length] in H;
    try lia; cbn [arr_set nth]; [reflexivity|].
  rewrite IH by lia. reflexivity.
Qed.

Lemma obj_replace_replace (o : list (string * A)) (k : string) (x y : A) :
  obj_replace (obj_replace o k x) k y = obj_replace o k y.
Proof.
  induction o as [|[k' v] o IH]; [reflexivity|]. cbn [obj_replace].
  destruct (k' =? k) eqn:E; cbn [obj_replace].
  - now rewrite String.eqb_refl.
  - now rewrite E, IH.
Qed.

Lemma obj_replace_insert (o : list (string * A)) (n : N) (k : string)
  (x y : A) :
  obj_lookup o k = None ->
  obj_replace (obj_insert_index o n k x) k y = obj_insert_index o n k y.
Proof.
  induction o as [|[k' v] o IH]; cbn [obj_lookup obj_insert_index]; intros H.
  - cbn [obj_replace]. now rewrite String.eqb_refl.
  - destruct (k' =? k) eqn:E; [discriminate|].
    destruct (array_index k') as [n'|]; [destruct (n' <? n)%N|];
      cbn [obj_replace]; rewrite ?E, ?String.eqb_refl, ?IH; auto.
Qed.

Lemma obj_replace_app (o : list (string * A)) (k : string) (x y : A) :
  obj_lookup o k = None ->
  obj_replace (o ++ [(k, x)])%list k y = (o ++ [(k, y)])%list.
Proof.
  induction o as [|[k' v] o IH]; cbn [obj_lookup app]; intros H.
  - cbn [obj_replace]. now rewrite String.eqb_refl.
  - destruct (k' =? k) eqn:E; [discriminate|].
    cbn [obj_replace]. now rewrite E, IH.
Qed.

Lemma obj_set_set (o : list (string * A)) (k : string) (x y : A) :
  obj_set (obj_set o k x) k y = obj_set o k y.
Proof.
  unfold obj_set at 1. rewrite obj_lookup_set_same.
  unfold obj_set. destruct (obj_lookup o k) eqn:E.
  - apply obj_replace_replace.
  - destruct (array_index k).
    + now apply obj_replace_insert.
    + now apply obj_replace_app.
Qed.

Lemma obj_replace_same_value (o : list (string * A)) (k : string) (v : A) :
  obj_lookup o k = Some v -> obj_replace o k v = o.
Proof.
  induction o as [|[k' v'] o IH]; cbn [obj_lookup obj_replace]; intros H;
    [reflexivity|].
  destruct (String.eqb_spec k' k) as [->|Hne].
  - now inversion H.
  - now rewrite IH.
Qed.

Lemma obj_set_same_value (o : list (string * A)) (k : string) (v : A) :
  obj_lookup o k = Some v -> obj_set o k v = o.
Proof.
  intros H. unfold obj_set. rewrite H. now apply obj_replace_same_value.
Qed.
End OverwriteFacts.

Lemma setAt_setAt (v1 v2 : jsval) :
  forall (rest : Path) (p : segment) (node : jsval),
    setAt v2 (setAt v1 node p rest) p rest = setAt v2 node p rest.
Proof.
  induction rest as [|h r IH]; intros [i|k] node;
    rewrite (setAt_num v1), (setAt_num v2) || rewrite (setAt_key v1), (setAt_key v2);
    rewrite ?setAt_num, ?setAt_key;
    cbn [spread_elems object_or_empty];
    rewrite ?arr_set_set, ?obj_set_set, ?arr_get_set_same, ?obj_get_set_same;
    cbn [setAt_stored]; rewrite ?IH; reflexivity.
Qed.

Lemma setAt_read_back :
  forall (rest : Path) (p : segment) (node : jsval),
    path_present node (p :: rest) = true ->
    setAt (get_loop node (p :: rest)) node p rest = node.
Proof.
  induction rest as [|h r IH]; intros [i|k] node H;
    cbn [path_present] in H.
  - destruct node; try discriminate.
    apply andb_true_iff in H. destruct H as [Hi _]. apply Nat.ltb_lt in Hi.
    rewrite setAt_num, get_loop_num. cbn [spread_elems setAt_stored get_loop].
    now rewrite arr_set_same_value.
  - destruct node; try discriminate.
    destruct (obj_lookup fields k) as [v|] eqn:E; [|discriminate].
    rewrite setAt_key, get_loop_key.
    cbn [object_or_empty setAt_stored get_loop].
    unfold obj_get. rewrite E. now rewrite obj_set_same_value.
  - destruct node; try discriminate.
    apply andb_true_iff in H. destruct H as [Hi Hrest].
    apply Nat.ltb_lt in Hi.
    rewrite setAt_num, get_loop_num. cbn [spread_elems setAt_stored].
    rewrite (IH _ _ Hrest). now rewrite arr_set_same_value.
  - destruct node; try discriminate.
    destruct (obj_lookup fields k) as [v|] eqn:E; [|discriminate].
    rewrite setAt_key, get_loop_key. cbn [object_or_empty setAt_stored].
    unfold obj_get. rewrite E. rewrite (IH _ _ H).
    now rewrite obj_set_same_value.
Qed.

Lemma get_loop_absent :
  forall (p : Path) (node : jsval),
    path_present node p = false -> get_loop node p = VUndefined.
Proof.
  induction p as [|[i|k] rest IH]; intros node H; cbn [path_present] in H;
    [discriminate| |].
  - rewrite get_loop_num. destruct node;
      cbn [spread_elems]; rewrite ?arr_get_nil, ?get_loop_undefined;
      try reflexivity.
    destruct (i <? List.length elems)%nat eqn:Ei; cbn [andb] in H.
    + now apply IH.
    + apply Nat.ltb_ge in Ei. unfold arr_get.
      rewrite nth_overflow by assumption. apply get_loop_undefined.
  - rewrite get_loop_key. destruct node; cbn [object_or_empty];
      unfold obj_get; cbn [obj_lookup]; rewrite ?get_loop_undefined;
      try reflexivity.
    destruct (obj_lookup fields k) as [v|]; [now apply IH|].
    apply get_loop_undefined.
Qed.

Lemma path_present_arr (l : list jsval) (n : nat) (rest : Path) :
  path_present (VArr l) (SNum n :: rest)
  = (n <? List.length l)%nat && path_present (arr_get VUndefined l n) rest.
Proof. reflexivity. Qed.

Lemma path_present_obj (o : list (string * jsval)) (k : string) (rest : Path) :
  path_present (VObj o) (SKey k :: rest)
  = match obj_lookup o k with
    | Some v => path_present v rest
    | None => false
    end.
Proof. reflexivity. Qed.

Lemma setAt_present (v : jsval) :
  forall (rest : Path) (p : segment) (node : jsval),
    path_present (setAt v node p rest) (p :: rest) = true.
Proof.
  induction rest as [|h r IH]; intros [i|k] node;
    rewrite ?setAt_num, ?setAt_key, ?path_present_arr, ?path_present_obj,
      ?arr_set_length, ?arr_get_set_same, ?obj_lookup_set_same;
    cbn [setAt_stored]; rewrite ?IH; try reflexivity;
    rewrite ?andb_true_r; try (apply Nat.ltb_lt; lia).
Qed.

(** X1.  Reading through a concatenated path is reading through its
    first part and then, from what was found, through its second part;
    once a read has failed it stays [undefined]. *)
Theorem read_compose (R : jsval) (P Q : Path) :
  getValueByPath R (Some (P ++ Q)%list)
  = getValueByPath (getValueByPath R (Some P)) (Some Q).
Proof. rewrite !getValueByPath_loop. apply get_loop_app. Qed.

(** X2.  After a write at a path [P] that has no segment [__proto__]
    and whose integers are array indices, a read at [P] returns the
    written value and a read below [P] reads inside it; so it is in the
    engine, inherited members included, and in the JSON reading. *)
Theorem read_below_write (R V : jsval) (P Q : Path) :
  writable P = true ->
  engine_setValueByPath R (Some P) V = Some (setValueByPath R (Some P) V)
  /\ engine_getValueByPath (setValueByPath R (Some P) V) (Some P) = Found V
  /\ engine_getValueByPath (setValueByPath R (Some P) V) (Some (P ++ Q)%list)
     = engine_getValueByPath V (Some Q)
  /\ getValueByPath (setValueByPath R (Some P) V) (Some (P ++ Q)%list)
     = getValueByPath V (Some Q).
Proof.
  intros Hw. split; [now apply (engine_setValueByPath_agrees R V (Some P))|].
  split; [apply engine_get_set_roundtrip|]. split.
  - rewrite !engine_getValueByPath_loop, engine_get_loop_app.
    rewrite <- (engine_getValueByPath_loop _ P).
    now rewrite engine_get_set_roundtrip.
  - rewrite !getValueByPath_loop, get_loop_app.
    rewrite <- (getValueByPath_loop _ P). now rewrite get_set_roundtrip.
Qed.

Lemma read_below_write_witness :
  let R := VArr [VNum 1] in
  let P := [SKey "toString"; SNum 1] in
  let V := VObj [("b", VNum 7)] in
  engine_setValueByPath R (Some P) V
  = Some (VObj [("toString", VArr [VUndefined; V])])
  /\ engine_getValueByPath (setValueByPath R (Some P) V)
       (Some [SKey "toString"; SNum 1; SKey "b"])
     = Found (VNum 7)
  /\ engine_getValueByPath (setValueByPath R (Some P) V)
       (Some [SKey "toString"; SNum 1; SKey "valueOf"])
     = Inherited "valueOf".
Proof.
  intros R P V. split; [|split].
  - exact (eq_trans (proj1 (read_below_write R V P [] eq_refl)) eq_refl).
  - exact (eq_trans
             (proj1 (proj2 (proj2 (read_below_write R V P [SKey "b"] eq_refl))))
             eq_refl).
  - exact (eq_trans
             (proj1 (proj2 (proj2
                (read_below_write R V P [SKey "valueOf"] eq_refl))))
             eq_refl).
Defined.

(** X3.  A deep write is a write, at a prefix of the path, of the
    subtree found there with the rest of the write done in it. *)
Theorem write_compose (R V : jsval) (P Q : Path) :
  setValueByPath R (Some (P ++ Q)%list) V
  = setValueByPath R (Some P)
      (setValueByPath (getValueByPath R (Some P)) (Some Q) V).
Proof.
  destruct Q as [|q Q'].
  - now rewrite app_nil_r.
  - destruct P as [|p P']; [reflexivity|].
    rewrite getValueByPath_loop. cbn [app].
    rewrite !setValueByPath_cons. apply setAt_app.
Qed.

(** X4.  Of two writes at the same path the last one wins: the first
    leaves no trace. *)
Theorem last_write_wins (R V1 V2 : jsval) (P : option Path) :
  setValueByPath (setValueByPath R P V1) P V2 = setValueByPath R P V2.
Proof.
  destruct P as [[|p rest]|]; try reflexivity. apply setAt_setAt.
Qed.

(** X5.  Writing back at an existing path the value read there returns
    the document itself. *)
Theorem write_back_read (R : jsval) (P : Path) :
  path_present R P = true ->
  setValueByPath R (Some P) (getValueByPath R (Some P)) = R.
Proof.
  intros H. destruct P as [|p rest]; [reflexivity|].
  now apply setAt_read_back.
Qed.

Lemma write_back_read_witness :
  let R := VObj [("a", VArr [VNum 1; VObj [("b", VNull)]])] in
  let P := [SKey "a"; SNum 1; SKey "b"] in
  path_present R P = true
  /\ setValueByPath R (Some P) (getValueByPath R (Some P)) = R.
Proof.
  intros R P. split; [reflexivity|]. apply (write_back_read R P).
  reflexivity.
Defined.

(** X6.  A path that does not exist in the document (a segment meets a
    value of the wrong kind, an index past the end, a missing key) reads
    as [undefined], when none of its string segments names a member
    inherited from [Object.prototype]. *)
Theorem absent_reads_undefined (R : jsval) (P : Path) :
  inherit_free P = true -> path_present R P = false ->
  engine_getValueByPath R (Some P) = Found VUndefined
  /\ getValueByPath R (Some P) = VUndefined.
Proof.
  intros Hfree H.
  assert (E : getValueByPath R (Some P) = VUndefined)
    by (rewrite getValueByPath_loop; now apply get_loop_absent).
  split; [|exact E].
  rewrite engine_getValueByPath_agrees by assumption. now rewrite E.
Qed.

Lemma absent_reads_undefined_witness :
  let R := VObj [("a", VArr [VNum 1; VNum 2])] in
  engine_getValueByPath R (Some [SKey "a"; SNum 2]) = Found VUndefined
  /\ engine_getValueByPath R (Some [SKey "a"; SKey "0"]) = Found VUndefined
  /\ engine_getValueByPath R (Some [SKey "b"; SNum 0; SKey "c"])
     = Found VUndefined.
Proof.
  intros R. split; [|split].
  - apply (absent_reads_undefined R [SKey "a"; SNum 2]); reflexivity.
  - apply (absent_reads_undefined R [SKey "a"; SKey "0"]); reflexivity.
  - apply (absent_reads_undefined R [SKey "b"; SNum 0; SKey "c"]);
      reflexivity.
Defined.

(** X7.  Whatever the root was, after a write at [P] the path [P]
    exists in the result: the missing containers have been created and
    the arrays extended; this for a path whose integers are array
    indices (below 2^32 - 1) and that has no segment [__proto__]. *)
Theorem write_creates_path (R V : jsval) (P : Path) :
  writable P = true ->
  exists R',
    engine_setValueByPath R (Some P) V = Some R'
    /\ path_present R' P = true.
Proof.
  intros Hw. exists (setValueByPath R (Some P) V). split.
  - now apply (engine_setValueByPath_agrees R V (Some P)).
  - destruct P as [|p rest]; [reflexivity|]. apply setAt_present.
Qed.

Lemma write_creates_path_witness :
  exists R',
    engine_setValueByPath (VNum 0) (Some [SKey "a"; SNum 2; SKey "b"]) VNull
    = Some R'
    /\ path_present R' [SKey "a"; SNum 2; SKey "b"] = true.
Proof.
  apply (write_creates_path (VNum 0) VNull [SKey "a"; SNum 2; SKey "b"]).
  reflexivity.
Defined.

(** X8.  A write through an integer segment treats anything that is not
    an array as the empty array, and a write through a string segment
    treats anything that is not a plain object as the empty object: what
    was there is dropped. *)
Theorem write_coerces (R V : jsval) (rest : Path) :
  (forall n, Array_isArray R = false ->
             setValueByPath R (Some (SNum n :: rest)) V
             = setValueByPath (VArr []) (Some (SNum n :: rest)) V)
  /\ (forall k, plain_object R = false ->
                setValueByPath R (Some (SKey k :: rest)) V
                = setValueByPath (VObj []) (Some (SKey k :: rest)) V).
Proof.
  split; intros x H; rewrite !setValueByPath_cons.
  - rewrite !setAt_num. now destruct R.
  - rewrite !setAt_key. now destruct R.
Qed.

Lemma write_coerces_witness :
  setValueByPath (VObj [("a", VNum 1)]) (Some [SNum 1]) (VNum 7)
  = VArr [VUndefined; VNum 7]
  /\ setValueByPath (VArr [VNum 1; VNum 2]) (Some [SKey "k"; SKey "j"]) VNull
     = VObj [("k", VObj [("j", VNull)])].
Proof.
  split.
  - rewrite (proj1 (write_coerces (VObj [("a", VNum 1)]) (VNum 7) []) 1
               eq_refl).
    reflexivity.
  - rewrite (proj2 (write_coerces (VArr [VNum 1; VNum 2]) VNull [SKey "j"])
               "k" eq_refl).
    reflexivity.
Defined.

(** ** The fresh spine *)

Lemma heap_setAt_spine (value : hval) :
  forall (rest : Path) (h : heap) (node : hval) (head : segment),
    snd (heap_setAt value h node head rest) = HRef (List.length h)
    /\ List.length (fst (heap_setAt value h node head rest))
       = List.length h + S (List.length rest).
Proof.
  induction rest as [|head' rest' IH]; intros h node [idx|key];
    cbn [heap_setAt alloc].
  - cbn [fst snd]. unfold heap_arr_set.
    rewrite heap_store_length, length_app. cbn [List.length]. split; [reflexivity|lia].
  - cbn [fst snd]. unfold heap_obj_set.
    rewrite heap_store_length, length_app. cbn [List.length]. split; [reflexivity|lia].
  - match goal with
    | |- context [heap_setAt value ?h1 ?n head' rest'] =>
        destruct (IH h1 n head') as [_ Hlen];
        destruct (heap_setAt value h1 n head' rest') as [h2 x]
    end.
    cbn [fst snd] in *. unfold heap_arr_set.
    rewrite heap_store_length, Hlen, length_app. cbn [List.length].
    split; [reflexivity|lia].
  - match goal with
    | |- context [heap_setAt value ?h1 ?n head' rest'] =>
        destruct (IH h1 n head') as [_ Hlen];
        destruct (heap_setAt value h1 n head' rest') as [h2 x]
    end.
    cbn [fst snd] in *. unfold heap_obj_set.
    rewrite heap_store_length, Hlen, length_app. cbn [List.length].
    split; [reflexivity|lia].
Qed.

(** X9.  For a non-empty path, [setValueByPath] returns a reference that
    did not exist before the call, never its root argument, and
    allocates exactly one container per segment of the path; for the
    absent or empty path it allocates nothing and returns the value. *)
Theorem write_allocates_spine (h : heap) (root value : hval) (P : Path) :
  (P <> [] ->
   snd (heap_setValueByPath h root (Some P) value) = HRef (List.length h)
   /\ nth_error h (List.length h) = None)
  /\ List.length (fst (heap_setValueByPath h root (Some P) value))
     = List.length h + List.length P
  /\ heap_setValueByPath h root None value = (h, value)
  /\ heap_setValueByPath h root (Some []) value = (h, value).
Proof.
  split; [|split; [|split; reflexivity]].
  - intros HP. destruct P as [|p rest]; [congruence|].
    cbn [heap_setValueByPath]. split; [apply heap_setAt_spine|].
    apply nth_error_None. lia.
  - destruct P as [|p rest]; cbn [heap_setValueByPath fst List.length];
      [lia|]. now rewrite (proj2 (heap_setAt_spine value rest h root p)).
Qed.

Lemma write_allocates_spine_witness :
  let h := [CArr [HNum 1; HRef 1]; CObj [("a", HNum 3)]] in
  snd (heap_setValueByPath h (HRef 0) (Some [SNum 1; SKey "b"]) (HNum 7))
  = HRef 2
  /\ List.length
       (fst (heap_setValueByPath h (HRef 0) (Some [SNum 1; SKey "b"]) (HNum 7)))
     = 4.
Proof.
  intros h.
  destruct (write_allocates_spine h (HRef 0) (HNum 7) [SNum 1; SKey "b"])
    as (Hres & Hlen & _).
  split; [apply Hres; discriminate|exact Hlen].
Defined.

(* ================================================================= *)
(** ** What the merge writes *)

Lemma overwrite_lookup (es : list (string * jsval)) (k : string) :
  forall acc,
    obj_lookup (fold_left overwrite es acc) k
    = match obj_lookup (rev es) k with
      | Some v => Some v
      | None => obj_lookup acc k
      end.
Proof.
  induction es as [|[k' v'] es IH]; intros acc; [reflexivity|].
  cbn [fold_left rev]. rewrite IH, obj_lookup_app.
  destruct (obj_lookup (rev es) k); [reflexivity|].
  unfold overwrite. cbn [fst snd].
  destruct (String.eqb_spec k' k) as [->|Hne].
  - apply obj_lookup_set_same.
  - now apply obj_lookup_set_other.
Qed.

Lemma merge_loop_applies (M : list (string * jsval)) (k : string) (v : jsval) :
  NoDup (map fst M) -> In (k, v) M -> is_container v = false ->
  forall base, obj_lookup (fold_left merge_step M base) k = Some v.
Proof.
  induction M as [|[k' v'] M IH]; intros Hnd Hin Hv base; [contradiction|].
  cbn [map fst] in Hnd. inversion Hnd as [|? ? Hfresh Hnd']. subst.
  cbn [fold_left]. destruct Hin as [E|Hin].
  - inversion E. subst. rewrite merge_step_assign by assumption.
    rewrite merge_loop_skips.
    + apply obj_lookup_set_same.
    + intros v0 Hin0. exfalso. apply Hfresh.
      change k with (fst (k, v0)). now apply in_map.
  - now apply IH.
Qed.

Lemma merge_loop_fixed (M : list (string * jsval)) (o : list (string * jsval)) :
  (forall k v, In (k, v) M -> is_container v = false ->
               obj_lookup o k = Some v) ->
  fold_left merge_step M o = o.
Proof.
  induction M as [|[k v] M IH]; intros H; [reflexivity|].
  cbn [fold_left]. destruct (is_container v) eqn:E.
  - rewrite merge_step_skip by assumption.
    apply IH. intros k0 v0 Hin. apply H. now right.
  - rewrite merge_step_assign by assumption.
    rewrite obj_set_same_value by (apply H; [now left|assumption]).
    apply IH. intros k0 v0 Hin. apply H. now right.
Qed.

(** X10.  After a merge, a field of the object at [P], other than
    [__proto__], holds the last value of the proposal for its key that
    is not an object or array; a key for which the proposal has no such
    value keeps what it had, or stays absent.  When the value at [P] was
    not a plain object, the proposal's primitive entries are therefore
    all that is left there.  This for a path without segment
    [__proto__] whose integers are array indices, and a proposal without
    the entry [__proto__: null], which would replace the prototype of
    the merged object. *)
Theorem merge_fields (R : jsval) (P : option Path) (M : list (string * jsval))
  (k : string) :
  path_writable P = true -> ~ In ("__proto__", VNull) M ->
  k <> "__proto__" ->
  exists R',
    engine_mergePrimitivesAtPath R P M = Some R'
    /\ field_at R' P k
       = match obj_lookup (rev (assigned M)) k with
         | Some v => Some v
         | None => field_at R P k
         end.
Proof.
  intros HP HM Hk.
  destruct (engine_overwrite_total (assigned M)
              (assigned_not_null_proto M HM)
              (object_or_empty (getValueByPath R P))) as [merged Hm].
  rewrite <- engine_merge_loop_filter in Hm.
  exists (setValueByPath R P (VObj merged)).
  split; [now apply engine_merge_result|].
  unfold field_at at 1. rewrite get_set_roundtrip, field_at_current.
  rewrite engine_merge_loop_filter in Hm.
  rewrite (engine_overwrite_lookup k Hk (assigned M) _ _ merged eq_refl Hm).
  apply overwrite_lookup.
Qed.

Lemma merge_fields_witness :
  let R := VObj [("a", VArr [VNum 1])] in
  let M := [("x", VNum 1); ("__proto__", VNum 5); ("y", VObj []);
            ("x", VNull)] in
  exists R',
    engine_mergePrimitivesAtPath R (Some [SKey "a"]) M = Some R'
    /\ field_at R' (Some [SKey "a"]) "x" = Some VNull.
Proof.
  intros R M.
  apply (merge_fields R (Some [SKey "a"]) M "x" eq_refl).
  - intros [E|[E|[E|[E|[]]]]]; discriminate.
  - discriminate.
Defined.

(** X11.  When the keys of the proposal are distinct, as the keys of an
    object are, every proposed value that is not an object or array is
    the value of its field after the merge; this for every key but
    [__proto__], a path without segment [__proto__] whose integers are
    array indices, and a proposal without the entry
    [__proto__: null]. *)
Theorem merge_applies (R : jsval) (P : option Path) (M : list (string * jsval))
  (k : string) (v : jsval) :
  path_writable P = true -> ~ In ("__proto__", VNull) M ->
  k <> "__proto__" ->
  NoDup (map fst M) -> In (k, v) M -> is_container v = false ->
  exists R',
    engine_mergePrimitivesAtPath R P M = Some R'
    /\ field_at R' P k = Some v.
Proof.
  intros HP HM Hk Hnd Hin Hv.
  destruct (engine_overwrite_total (assigned M)
              (assigned_not_null_proto M HM)
              (object_or_empty (getValueByPath R P))) as [merged Hm].
  exists (setValueByPath R P (VObj merged)). split.
  - apply engine_merge_result; [assumption|].
    now rewrite engine_merge_loop_filter.
  - unfold field_at. rewrite get_set_roundtrip.
    rewrite (engine_overwrite_lookup k Hk (assigned M) _ _ merged eq_refl Hm).
    unfold assigned. rewrite <- merge_loop_filter.
    now apply merge_loop_applies.
Qed.

Lemma merge_applies_witness :
  let R := VObj [("a", VArr [VNum 1])] in
  let M := [("x", VNull); ("y", VArr []); ("z", VStr "s")] in
  (exists R',
      engine_mergePrimitivesAtPath R (Some [SKey "a"]) M = Some R'
      /\ field_at R' (Some [SKey "a"]) "x" = Some VNull)
  /\ (exists R',
         engine_mergePrimitivesAtPath R (Some [SKey "a"]) M = Some R'
         /\ field_at R' (Some [SKey "a"]) "z" = Some (VStr "s")).
Proof.
  intros R M.
  assert (Hnd : NoDup (map fst M))
    by (repeat constructor; simpl; intuition discriminate).
  assert (HM : ~ In ("__proto__", VNull) M)
    by (intros [E|[E|[E|[]]]]; discriminate).
  split.
  - apply (merge_applies R (Some [SKey "a"]) M "x" VNull eq_refl HM
             ltac:(discriminate) Hnd);
      [now left|reflexivity].
  - apply (merge_applies R (Some [SKey "a"]) M "z" (VStr "s") eq_refl HM
             ltac:(discriminate) Hnd);
      [right; right; now left|reflexivity].
Defined.

(** X12.  On an existing object, a proposal that brings nothing new
    (only objects and arrays, or primitive values the fields already
    have; in particular the empty proposal) returns the document
    itself. *)
Theorem merge_nothing_new (R : jsval) (P : Path) (M : list (string * jsval))
  (o : list (string * jsval)) :
  path_present R P = true ->
  getValueByPath R (Some P) = VObj o ->
  (forall k v, In (k, v) M -> is_container v = false ->
               obj_lookup o k = Some v) ->
  mergePrimitivesAtPath R (Some P) M = R.
Proof.
  intros Hp Hget HM. rewrite merge_unfold, Hget. cbn [object_or_empty].
  rewrite merge_loop_fixed by assumption. rewrite <- Hget.
  destruct P as [|p rest]; [reflexivity|]. now apply setAt_read_back.
Qed.

Lemma merge_nothing_new_witness :
  let R := VObj [("a", VObj [("x", VNum 1); ("y", VArr [VNum 1; VNum 2])])] in
  mergePrimitivesAtPath R (Some [SKey "a"]) [("y", VObj []); ("x", VNum 1)] = R
  /\ mergePrimitivesAtPath R (Some [SKey "a"]) [] = R.
Proof.
  intros R. split.
  - apply (merge_nothing_new R [SKey "a"] [("y", VObj []); ("x", VNum 1)]
             [("x", VNum 1); ("y", VArr [VNum 1; VNum 2])]);
      try reflexivity.
    intros k v [E|[E|[]]] Hv; inversion E; subst; try discriminate.
    reflexivity.
  - apply (merge_nothing_new R [SKey "a"] []
             [("x", VNum 1); ("y", VArr [VNum 1; VNum 2])]);
      try reflexivity.
    intros k v [].
Defined.

(** X13.  Merging the same proposal a second time changes nothing, when
    the keys of the proposal are distinct. *)
Theorem merge_idempotent (R : jsval) (P : option Path)
  (M : list (string * jsval)) :
  NoDup (map fst M) ->
  mergePrimitivesAtPath (mergePrimitivesAtPath R P M) P M
  = mergePrimitivesAtPath R P M.
Proof.
  intros Hnd. rewrite (merge_unfold R).
  set (B := fold_left merge_step M (object_or_empty (getValueByPath R P))).
  assert (HB : fold_left merge_step M B = B).
  { apply merge_loop_fixed. intros k v Hin Hv.
    now apply merge_loop_applies. }
  rewrite merge_unfold, get_set_roundtrip. cbn [object_or_empty].
  rewrite HB. destruct P as [[|p rest]|]; try reflexivity.
  apply setAt_setAt.
Qed.

Lemma merge_idempotent_witness :
  let R := VArr [VNum 1] in
  let M := [("x", VNum 5); ("y", VArr [])] in
  mergePrimitivesAtPath (mergePrimitivesAtPath R (Some [SNum 2]) M)
    (Some [SNum 2]) M
  = VArr [VNum 1; VUndefined; VObj [("x", VNum 5)]].
Proof.
  intros R M.
  refine (eq_trans (merge_idempotent R (Some [SNum 2]) M _) eq_refl).
  repeat constructor; simpl; intuition discriminate.
Defined.

(** X14.  Merging a single field whose value is not an object or array
    is writing that value at the path extended by the field's key;
    merging a single field whose value is an object or array writes
    nothing but still replaces a non-object at the path by the empty
    object. *)
Theorem merge_single_field (R : jsval) (P : Path) (k : string) (v : jsval) :
  (is_container v = false ->
   mergePrimitivesAtPath R (Some P) [(k, v)]
   = setValueByPath R (Some (P ++ [SKey k])%list) v)
  /\ (is_container v = true ->
      mergePrimitivesAtPath R (Some P) [(k, v)]
      = setValueByPath R (Some P)
          (VObj (object_or_empty (getValueByPath R (Some P))))).
Proof.
  split; intros Hv; rewrite merge_unfold; cbn [fold_left].
  - rewrite merge_step_assign by assumption.
    destruct P as [|p rest].
    + cbn [app]. rewrite setValueByPath_cons, setAt_key. reflexivity.
    + cbn [app]. rewrite !setValueByPath_cons, setAt_app, setAt_key.
      now rewrite getValueByPath_loop.
  - now rewrite merge_step_skip.
Qed.

Lemma merge_single_field_witness :
  let R := VObj [("a", VNum 0)] in
  mergePrimitivesAtPath R (Some [SKey "a"]) [("x", VBool true)]
  = setValueByPath R (Some [SKey "a"; SKey "x"]) (VBool true)
  /\ mergePrimitivesAtPath R (Some [SKey "a"]) [("x", VArr [])]
     = VObj [("a", VObj [])].
Proof.
  intros R. split.
  - apply (proj1 (merge_single_field R [SKey "a"] "x" (VBool true))).
    reflexivity.
  - exact (eq_trans
             (proj2 (merge_single_field R [SKey "a"] "x" (VArr [])) eq_refl)
             eq_refl).
Defined.

(** X29.  Away from the key [__proto__] the merge is a write of the
    merged object.  When the path has no segment [__proto__] (and its
    integers are array indices) and no entry of the proposal that is
    assigned has the key [__proto__], [mergePrimitivesAtPath] returns
    what [setValueByPath] returns for the copy of the current value at
    the path (the empty object when that value is absent or not a plain
    object) in which the entries of the proposal whose value is not an
    object or array overwrite their field, in order, the other entries
    being skipped. *)
Theorem merge_as_write (R : jsval) (P : option Path)
  (M : list (string * jsval)) :
  path_writable P = true ->
  (forall k v, In (k, v) M -> is_container v = false -> k <> "__proto__") ->
  engine_mergePrimitivesAtPath R P M
  = engine_setValueByPath R P
      (VObj (merged_object (as_node (engine_getValueByPath R P)) M))
  /\ engine_mergePrimitivesAtPath R P M
     = Some (setValueByPath R P
               (VObj (merged_object (getValueByPath R P) M))).
Proof.
  intros HP HM.
  assert (E : engine_mergePrimitivesAtPath R P M
              = Some (setValueByPath R P
                        (VObj (merged_object (getValueByPath R P) M)))).
  { rewrite engine_merge_agrees, merge_unfold by assumption.
    unfold merged_object. now rewrite merge_loop_filter. }
  split; [|exact E].
  rewrite E, engine_target_agrees by now apply path_writable_proto_free.
  symmetry. now apply engine_setValueByPath_agrees.
Qed.

(** The example of the specification: document
    [{"a":{"x":1,"y":[1,2]}}], path [["a"]], proposal [{"x":5,"z":9}]. *)
Lemma merge_as_write_witness :
  engine_mergePrimitivesAtPath
    (VObj [("a", VObj [("x", VNum 1); ("y", VArr [VNum 1; VNum 2])])])
    (Some [SKey "a"])
    [("x", VNum 5); ("z", VNum 9)]
  = Some (VObj [("a", VObj [("x", VNum 5); ("y", VArr [VNum 1; VNum 2]);
                            ("z", VNum 9)])]).
Proof.
  refine (eq_trans
            (proj2 (merge_as_write
                      (VObj [("a", VObj [("x", VNum 1);
                                         ("y", VArr [VNum 1; VNum 2])])])
                      (Some [SKey "a"])
                      [("x", VNum 5); ("z", VNum 9)] eq_refl _))
            eq_refl).
  intros k v [E|[E|[]]] _; inversion E; discriminate.
Defined.

(* ================================================================= *)
(** ** pathsEqual as a relation *)

Lemma pathsEqual_iff (st : path_store) (a b : option path_ref) :
  pathsEqual st a b = true <-> option_map st a = option_map st b.
Proof.
  destruct a as [la|], b as [lb|].
  - rewrite pathsEqual_contents. cbn [option_map].
    split; intros H; [now rewrite H|now inversion H].
  - split; discriminate.
  - split; discriminate.
  - split; reflexivity.
Qed.

Lemma pathsEqual_sym (st : path_store) (a b : option path_ref) :
  pathsEqual st a b = pathsEqual st b a.
Proof.
  destruct (pathsEqual st a b) eqn:E1, (pathsEqual st b a) eqn:E2;
    try reflexivity.
  - apply pathsEqual_iff in E1. symmetry in E1.
    apply pathsEqual_iff in E1. congruence.
  - apply pathsEqual_iff in E2. symmetry in E2.
    apply pathsEqual_iff in E2. congruence.
Qed.

Lemma pathsEqual_trans (st : path_store) (a b c : option path_ref) :
  pathsEqual st a b = true -> pathsEqual st b c = true ->
  pathsEqual st a c = true.
Proof. rewrite !pathsEqual_iff. congruence. Qed.

(** X15.  [pathsEqual] is symmetric and transitive on optional paths
    (it is reflexive by its first line): it is an equivalence, so the
    node found by path does not depend on which of two equal paths is
    used for the search. *)
Theorem pathsEqual_equivalence (st : path_store) (a b c : option path_ref) :
  pathsEqual st a a = true
  /\ pathsEqual st a b = pathsEqual st b a
  /\ (pathsEqual st a b = true -> pathsEqual st b c = true ->
      pathsEqual st a c = true)
  /\ (pathsEqual st a b = true ->
      forall ns : list NodeData,
        find (fun n => pathsEqual st (path n) a) ns
        = find (fun n => pathsEqual st (path n) b) ns).
Proof.
  split; [now apply pathsEqual_iff|]. split; [apply pathsEqual_sym|].
  split; [apply pathsEqual_trans|].
  intros Hab ns. induction ns as [|n ns IH]; [reflexivity|].
  cbn [find]. rewrite IH.
  replace (pathsEqual st (path n) b) with (pathsEqual st (path n) a);
    [reflexivity|].
  destruct (pathsEqual st (path n) a) eqn:E1,
           (pathsEqual st (path n) b) eqn:E2; try reflexivity.
  - rewrite (pathsEqual_trans st _ a b E1 Hab) in E2. discriminate.
  - rewrite pathsEqual_sym in Hab.
    rewrite (pathsEqual_trans st _ b a E2 Hab) in E1. discriminate.
Qed.

Lemma pathsEqual_equivalence_witness :
  let st : path_store :=
    fun l => if (l <? 2)%nat then [SKey "a"; SNum 0] else [SKey "b"] in
  pathsEqual st (Some 0) (Some 1) = true
  /\ find (fun n => pathsEqual st (path n) (Some 0))
          [mkNode None (Some 2); mkNode None (Some 1)]
     = Some (mkNode None (Some 1)).
Proof.
  intros st.
  destruct (pathsEqual_equivalence st (Some 1) (Some 0) (Some 1))
    as (_ & Hsym & _ & Hfind).
  assert (H10 : pathsEqual st (Some 1) (Some 0) = true) by reflexivity.
  split.
  - rewrite <- Hsym. exact H10.
  - rewrite <- (Hfind H10). reflexivity.
Defined.

(* ================================================================= *)
(** ** The text of a path and of a row list *)

Lemma jsonPathToString_segments (p : Path) :
  jsonPathToString (Some p) = "$" ++ bracketed_segments p.
Proof.
  destruct p as [|seg p]; [reflexivity|].
  cbn [jsonPathToString List.length Nat.eqb].
  rewrite <- joined_segments. reflexivity.
Qed.

Lemma bracketed_segments_app (P Q : Path) :
  bracketed_segments (P ++ Q)%list
  = bracketed_segments P ++ bracketed_segments Q.
Proof.
  induction P as [|seg P IH]; [reflexivity|].
  cbn [app bracketed_segments]. now rewrite IH, string_app_assoc.
Qed.

(** X16.  The text of a path extends the text of each of its prefixes:
    the text of a child node's path is the text of its parent's path
    followed by the bracketed last segment. *)
Theorem jsonPathToString_extends (P Q : Path) (seg : segment) :
  jsonPathToString (Some (P ++ Q)%list)
  = jsonPathToString (Some P) ++ bracketed_segments Q
  /\ jsonPathToString (Some (P ++ [seg])%list)
     = jsonPathToString (Some P) ++ bracketed seg.
Proof.
  rewrite !jsonPathToString_segments, !bracketed_segments_app.
  cbn [bracketed_segments]. rewrite string_app_nil_r.
  split; now rewrite <- string_app_assoc.
Qed.

Lemma filter_none {A : Type} (f : A -> bool) (l : list A) :
  (forall x, In x l -> f x = false) -> filter f l = [].
Proof.
  induction l as [|x l IH]; intros H; [reflexivity|].
  cbn [filter]. rewrite (H x) by now left.
  apply IH. intros y Hy. apply H. now right.
Qed.

(** X17.  A row list in which no row is kept (every row is tagged array
    or object, or has no key), other than a single keyless row,
    normalises to ["{}"], like the empty list. *)
Theorem normalize_nothing_kept (rows : list NodeRow) :
  (forall row, In row rows -> row_kept row = false) ->
  (forall row, rows = [row] -> key_truthy (key row) = true) ->
  normalizeNodeData (Some rows) = "{}".
Proof.
  intros Hnone Hkey.
  assert (E : fold_left normalize_step rows [] = []).
  { rewrite normalize_loop_filter, filter_none by assumption. reflexivity. }
  destruct rows as [|row [|row' rows]]; [reflexivity| |].
  - cbn [normalizeNodeData List.length Nat.eqb].
    rewrite (Hkey row eq_refl). cbn [negb]. now rewrite E.
  - cbn [normalizeNodeData List.length Nat.eqb]. now rewrite E.
Qed.

Lemma normalize_nothing_kept_witness :
  normalizeNodeData
    (Some [mkRow (Some "items") (VArr []) "array";
           mkRow (Some "owner") (VObj []) "object"]) = "{}"
  /\ normalizeNodeData (Some [mkRow (Some "items") (VArr []) "array"]) = "{}".
Proof.
  split; apply normalize_nothing_kept.
  - intros row [<-|[<-|[]]]; reflexivity.
  - intros row H. discriminate.
  - intros row [<-|[]]. reflexivity.
  - intros row H. inversion H. reflexivity.
Defined.

(** X18.  In the object that [normalizeNodeData] serialises, a key other
    than [__proto__] holds the value of the last kept row with that key
    (a row is kept when its key is truthy and it is not tagged array or
    object), and a key of no kept row is absent; this when no kept row
    replaces the prototype of the object (key [__proto__] with the value
    [null] or an object). *)
Theorem normalize_last_row_wins (rows : list NodeRow) (k : string) :
  k <> "__proto__" ->
  (forall row, In row rows -> row_kept row = true ->
               replaces_prototype (row_entry row) = false) ->
  exists obj,
    fold_left engine_normalize_step rows (Some []) = Some obj
    /\ obj_lookup obj k
       = obj_lookup (rev (map row_entry (filter row_kept rows))) k.
Proof.
  intros Hk Hrows.
  destruct (engine_overwrite_total (map row_entry (filter row_kept rows)))
    with (b := @nil (string * jsval)) as [obj Hobj].
  { intros kv Hin. apply in_map_iff in Hin. destruct Hin as (row & <- & Hin).
    apply filter_In in Hin. destruct Hin as [Hin Hkept]. now apply Hrows. }
  exists obj. split; [now rewrite engine_normalize_loop_filter|].
  rewrite (engine_overwrite_lookup k Hk _ [] [] obj eq_refl Hobj).
  rewrite overwrite_lookup.
  now destruct (obj_lookup (rev (map row_entry (filter row_kept rows))) k).
Qed.

Lemma normalize_last_row_wins_witness :
  let rows := [mkRow (Some "a") (VNum 1) "number";
               mkRow (Some "__proto__") (VNum 0) "number";
               mkRow (Some "b") (VArr []) "array";
               mkRow (Some "a") (VNum 2) "number"] in
  exists obj,
    fold_left engine_normalize_step rows (Some []) = Some obj
    /\ obj_lookup obj "a" = Some (VNum 2).
Proof.
  intros rows. apply (normalize_last_row_wins rows "a").
  - discriminate.
  - intros row [<-|[<-|[<-|[<-|[]]]]] H; reflexivity.
Defined.

(* ================================================================= *)
(** ** What a save does *)

Lemma setSelectedNode_same (n : NodeData) (w : World) :
  selectedNode w = Some n -> setSelectedNode n w = w.
Proof. destruct w. cbn. now intros ->. Qed.

Section SaveFacts.
Variable JSON_parse : string -> parse_result.
Variable pipeline :
  option string -> list NodeData * path_store -> list NodeData * path_store.

(** What a committed save leaves behind. *)
Lemma save_commit_effect (nodeData : NodeData) (newRoot : jsval) (w : World) :
  let w' := save_commit pipeline nodeData newRoot w in
  contents w' = JSON_stringify newRoot 2
  /\ hasChanges w' = true
  /\ setContents_calls w'
     = (setContents_calls w ++ [(JSON_stringify newRoot 2, true)])%list
  /\ isEditing w' = false
  /\ draft w' = draft w
  /\ alerts w' = alerts w
  /\ (selectedNode w' = selectedNode w
      \/ exists matched,
           selectedNode w' = Some matched
           /\ In matched (nodes w')
           /\ pathsEqual (paths w') (path matched) (path nodeData) = true).
Proof.
  cbn zeta. unfold save_commit, setContents.
  destruct (pipeline (JSON_stringify newRoot 2) (nodes w, paths w))
    as [nodes' paths'].
  cbn [setIsEditing nodes paths contents hasChanges setContents_calls
       isEditing draft alerts selectedNode].
  match goal with
  | |- context [find ?f nodes'] => destruct (find f nodes') as [m|] eqn:E
  end; cbn; repeat split; auto.
  apply find_some in E. right. exists m. tauto.
Qed.

Lemma save_accepts (w : World) (nodeData : NodeData) (root parsed : jsval) :
  selectedNode w = Some nodeData ->
  JSON_parse (contents_text (contents w)) = Parsed root ->
  JSON_parse (draft w) = Parsed parsed ->
  shape_mismatch nodeData parsed = false ->
  save_onClick JSON_parse pipeline w
  = save_commit pipeline nodeData (committed_root w nodeData root parsed) w.
Proof.
  intros Hsel Hdoc Hdraft Hshape. unfold save_onClick, committed_root.
  rewrite Hsel, Hdoc, Hdraft, isPrimitiveNode_single_keyless,
    container_guard, object_guard.
  unfold shape_mismatch in Hshape.
  destruct (single_keyless_row nodeData); now rewrite Hshape.
Qed.

Lemma save_onClick_cases (w : World) :
  save_onClick JSON_parse pipeline w = w
  \/ (exists msg, save_onClick JSON_parse pipeline w = alert msg w)
  \/ (exists nodeData newRoot,
         selectedNode w = Some nodeData
         /\ save_onClick JSON_parse pipeline w
            = save_commit pipeline nodeData newRoot w).
Proof.
  destruct (selectedNode w) as [nodeData|] eqn:Hsel;
    [|left; unfold save_onClick; now rewrite Hsel].
  right.
  destruct (JSON_parse (contents_text (contents w))) as [root|m] eqn:Hdoc;
    [|left; unfold save_onClick; rewrite Hsel, Hdoc; eauto].
  destruct (JSON_parse (draft w)) as [parsed|m] eqn:Hdraft;
    [|left; unfold save_onClick; rewrite Hsel, Hdoc, Hdraft; eauto].
  destruct (shape_mismatch nodeData parsed) eqn:Hshape.
  - left. now apply (save_rejects_shape _ _ w nodeData root parsed).
  - right. exists nodeData, (committed_root w nodeData root parsed).
    split; [reflexivity|]. now apply save_accepts.
Qed.

(** X19.  When the document parses but the draft does not, the save
    aborts like the other rejections: one message, no call to
    [setContents], document, edit mode and draft unchanged. *)
Theorem save_rejects_draft (w : World) (nodeData : NodeData) (root : jsval)
  (message : string) :
  selectedNode w = Some nodeData ->
  JSON_parse (contents_text (contents w)) = Parsed root ->
  JSON_parse (draft w) = SyntaxError message ->
  save_onClick JSON_parse pipeline w
  = alert ("Invalid JSON in editor: " ++ message) w
  /\ aborted w (save_onClick JSON_parse pipeline w).
Proof.
  intros Hsel Hdoc Hdraft.
  assert (E : save_onClick JSON_parse pipeline w
              = alert ("Invalid JSON in editor: " ++ message) w)
    by (unfold save_onClick; now rewrite Hsel, Hdoc, Hdraft).
  split; [exact E|]. rewrite E. apply alert_aborted.
Qed.

(** X20.  A save has one of two outcomes.  Either it leaves the store
    and the session as they were, showing at most one message; or it
    calls [setContents] exactly once, with [hasChanges] set, leaves edit
    mode and shows no message.  It never changes the draft. *)
Theorem save_outcomes (w : World) :
  (setContents_calls (save_onClick JSON_parse pipeline w) = setContents_calls w
   /\ contents (save_onClick JSON_parse pipeline w) = contents w
   /\ hasChanges (save_onClick JSON_parse pipeline w) = hasChanges w
   /\ isEditing (save_onClick JSON_parse pipeline w) = isEditing w
   /\ draft (save_onClick JSON_parse pipeline w) = draft w
   /\ (alerts (save_onClick JSON_parse pipeline w) = alerts w
       \/ exists msg,
            alerts (save_onClick JSON_parse pipeline w)
            = (alerts w ++ [msg])%list))
  \/ (exists c,
         setContents_calls (save_onClick JSON_parse pipeline w)
         = (setContents_calls w ++ [(c, true)])%list
         /\ contents (save_onClick JSON_parse pipeline w) = c
         /\ hasChanges (save_onClick JSON_parse pipeline w) = true
         /\ isEditing (save_onClick JSON_parse pipeline w) = false
         /\ draft (save_onClick JSON_parse pipeline w) = draft w
         /\ alerts (save_onClick JSON_parse pipeline w) = alerts w).
Proof.
  destruct (save_onClick_cases w) as [->|[[msg ->]|(nd & newRoot & _ & ->)]].
  - left. repeat split. now left.
  - left. cbn. repeat split. right. now exists msg.
  - right. exists (JSON_stringify newRoot 2).
    destruct (save_commit_effect nd newRoot w)
      as (Hc & Hh & Hcalls & He & Hd & Ha & _).
    repeat split; assumption.
Qed.
End SaveFacts.

Lemma save_rejects_draft_witness :
  let nodeData := mkNode (Some [mkRow (Some "x") (VNum 1) "number"]) (Some 0) in
  let w := mkWorld (Some "{}") false [nodeData] (Some nodeData)
             (fun _ => [SKey "a"]) true "{" [] [] in
  alerts (save_onClick read_json (fun _ g => g) w)
  = ["Invalid JSON in editor: Unexpected token in JSON"]
  /\ contents (save_onClick read_json (fun _ g => g) w) = Some "{}"
  /\ isEditing (save_onClick read_json (fun _ g => g) w) = true.
Proof.
  intros nodeData w.
  destruct (save_rejects_draft read_json (fun _ g => g) w nodeData (VObj [])
              "Unexpected token in JSON" eq_refl eq_refl eq_refl)
    as [E (_ & Hdoc & _ & Hedit & _)].
  split; [|split].
  - exact (f_equal alerts E).
  - exact Hdoc.
  - exact Hedit.
Defined.

Section CommitFacts.
Variable JSON_parse : string -> parse_result.
Variable pipeline :
  option string -> list NodeData * path_store -> list NodeData * path_store.

Lemma committed_frame (w : World) (nodeData : NodeData) (root parsed : jsval)
  (P Q : Path) :
  node_path w nodeData = Some P -> diverges P Q = true ->
  path_present root P = true
  \/ (inherit_free Q = true /\ clobbers root P Q = false) ->
  engine_getValueByPath (committed_root w nodeData root parsed) (Some Q)
  = engine_getValueByPath root (Some Q).
Proof.
  intros HP Hd HQ. unfold committed_root. rewrite HP.
  destruct (single_keyless_row nodeData).
  - now apply engine_frame.
  - rewrite merge_unfold. now apply engine_frame.
Qed.

(** X21.  A successful save of a primitive node, at a path without
    segment [__proto__] whose integers are array indices and with
    numbers up to 2^53 in magnitude, hands the store the text of the
    document that [setValueByPath] returns in the engine.  In it the node's path reads as the parsed draft.  A path
    that parts from the node's path reads as it did in the parsed
    document when the node's path exists in that document; and
    otherwise when it names no member inherited from [Object.prototype]
    and the write replaces no container that it reads through. *)
Theorem save_replaces_leaf (w : World) (nodeData : NodeData)
  (root parsed : jsval) :
  selectedNode w = Some nodeData ->
  JSON_parse (contents_text (contents w)) = Parsed root ->
  JSON_parse (draft w) = Parsed parsed ->
  single_keyless_row nodeData = true ->
  is_container parsed = false ->
  path_writable (node_path w nodeData) = true ->
  safe_value root = true -> safe_value parsed = true ->
  exists newRoot,
    engine_setValueByPath root (node_path w nodeData) parsed = Some newRoot
    /\ contents (save_onClick JSON_parse pipeline w) = JSON_stringify newRoot 2
    /\ isEditing (save_onClick JSON_parse pipeline w) = false
    /\ engine_getValueByPath newRoot (node_path w nodeData) = Found parsed
    /\ (forall P Q, node_path w nodeData = Some P ->
                    diverges P Q = true ->
                    path_present root P = true
                    \/ (inherit_free Q = true /\ clobbers root P Q = false) ->
                    engine_getValueByPath newRoot (Some Q)
                    = engine_getValueByPath root (Some Q)).
Proof.
  intros Hsel Hdoc Hdraft Hleaf Hprim Hw _ _.
  exists (committed_root w nodeData root parsed).
  rewrite (save_accepts JSON_parse pipeline w nodeData root parsed)
    by (try assumption; unfold shape_mismatch; now rewrite Hleaf).
  destruct (save_commit_effect pipeline nodeData
              (committed_root w nodeData root parsed) w)
    as (Hc & _ & _ & He & _).
  split; [|split; [exact Hc|split; [exact He|split]]].
  - unfold committed_root. rewrite Hleaf.
    now apply engine_setValueByPath_agrees.
  - unfold committed_root. rewrite Hleaf. apply engine_get_set_roundtrip_opt.
  - intros P Q. apply committed_frame.
Qed.

(** X22.  A successful save of an object-like node, at a path without
    segment [__proto__] whose integers are array indices, with numbers
    up to 2^53 in magnitude and with a draft in which no entry that is
    assigned has the key [__proto__], hands the store the text of the document that
    [mergePrimitivesAtPath] returns in the engine.  In it each field of
    the object at the node's path holds the last value of the draft for
    its key that is not an object or array, or else what it held in the
    parsed document.  A path that parts from the node's path reads as it
    did in the parsed document when the node's path exists in that
    document; and otherwise when it names no member inherited from
    [Object.prototype] and the write replaces no container that it reads
    through. *)
Theorem save_merges_fields (w : World) (nodeData : NodeData)
  (root : jsval) (fields : list (string * jsval)) :
  selectedNode w = Some nodeData ->
  JSON_parse (contents_text (contents w)) = Parsed root ->
  JSON_parse (draft w) = Parsed (VObj fields) ->
  single_keyless_row nodeData = false ->
  path_writable (node_path w nodeData) = true ->
  safe_value root = true -> safe_value (VObj fields) = true ->
  (forall k v, In (k, v) fields -> is_container v = false ->
               k <> "__proto__") ->
  exists newRoot,
    engine_mergePrimitivesAtPath root (node_path w nodeData) fields
    = Some newRoot
    /\ contents (save_onClick JSON_parse pipeline w) = JSON_stringify newRoot 2
    /\ isEditing (save_onClick JSON_parse pipeline w) = false
    /\ (forall k,
           field_at newRoot (node_path w nodeData) k
           = match obj_lookup (rev (assigned fields)) k with
             | Some v => Some v
             | None => field_at root (node_path w nodeData) k
             end)
    /\ (forall P Q, node_path w nodeData = Some P ->
                    diverges P Q = true ->
                    path_present root P = true
                    \/ (inherit_free Q = true /\ clobbers root P Q = false) ->
                    engine_getValueByPath newRoot (Some Q)
                    = engine_getValueByPath root (Some Q)).
Proof.
  intros Hsel Hdoc Hdraft Hobj Hw _ _ Hfields.
  exists (committed_root w nodeData root (VObj fields)).
  rewrite (save_accepts JSON_parse pipeline w nodeData root (VObj fields))
    by (try assumption; unfold shape_mismatch; now rewrite Hobj).
  destruct (save_commit_effect pipeline nodeData
              (committed_root w nodeData root (VObj fields)) w)
    as (Hc & _ & _ & He & _).
  split; [|split; [exact Hc|split; [exact He|split]]].
  - unfold committed_root. rewrite Hobj. cbn [spread_props].
    now apply engine_merge_agrees.
  - intros k. unfold committed_root. rewrite Hobj. cbn [spread_props].
    rewrite field_at_merge, field_at_current, merge_loop_filter.
    apply overwrite_lookup.
  - intros P Q. apply committed_frame.
Qed.

(** X23.  After a save the selected node is the one selected before, or
    a node of the rebuilt graph whose path has the same segments as the
    path of the node that was saved. *)
Theorem save_reselects (w : World) :
  selectedNode (save_onClick JSON_parse pipeline w) = selectedNode w
  \/ exists nodeData matched,
       selectedNode w = Some nodeData
       /\ selectedNode (save_onClick JSON_parse pipeline w) = Some matched
       /\ In matched (nodes (save_onClick JSON_parse pipeline w))
       /\ pathsEqual (paths (save_onClick JSON_parse pipeline w))
            (path matched) (path nodeData) = true.
Proof.
  destruct (save_onClick_cases JSON_parse pipeline w)
    as [->|[[msg ->]|(nd & newRoot & Hsel & ->)]]; try (now left).
  destruct (save_commit_effect pipeline nd newRoot w)
    as (_ & _ & _ & _ & _ & _ & [H|(m & Hm & Hin & Hp)]); [now left|].
  right. exists nd, m. auto.
Qed.
End CommitFacts.

Lemma save_replaces_leaf_witness :
  let nodeData := mkNode (Some [mkRow None (VNum 1) "number"]) (Some 0) in
  let w := mkWorld (Some "[1,[2,3]]") false [nodeData] (Some nodeData)
             (fun _ => [SNum 1; SNum 0]) true "null" [] [] in
  exists newRoot,
    contents (save_onClick read_json (fun _ g => g) w) = JSON_stringify newRoot 2
    /\ engine_getValueByPath newRoot (Some [SNum 1; SNum 0]) = Found VNull
    /\ engine_getValueByPath newRoot (Some [SNum 1; SNum 1]) = Found (VNum 3)
    /\ engine_getValueByPath newRoot (Some [SKey "toString"])
       = Found VUndefined.
Proof.
  intros nodeData w.
  destruct (save_replaces_leaf read_json (fun _ g => g) w nodeData
              (VArr [VNum 1; VArr [VNum 2; VNum 3]]) VNull
              eq_refl eq_refl eq_refl eq_refl eq_refl eq_refl eq_refl eq_refl)
    as (newRoot & _ & Hc & _ & Hread & Hframe).
  exists newRoot. split; [exact Hc|]. split; [exact Hread|]. split.
  - exact (eq_trans
             (Hframe [SNum 1; SNum 0] [SNum 1; SNum 1] eq_refl eq_refl
                (or_introl eq_refl))
             eq_refl).
  - exact (eq_trans
             (Hframe [SNum 1; SNum 0] [SKey "toString"] eq_refl eq_refl
                (or_introl eq_refl))
             eq_refl).
Defined.

Lemma save_merges_fields_witness :
  let nodeData :=
    mkNode (Some [mkRow (Some "x") (VNum 1) "number";
                  mkRow (Some "y") (VArr []) "array"]) (Some 0) in
  let doc := "[{" ++ quoted "x" ++ ":1," ++ quoted "y" ++ ":[1]}]" in
  let edited := "{" ++ quoted "x" ++ ":5," ++ quoted "z" ++ ":null}" in
  let w := mkWorld (Some doc) false [nodeData] (Some nodeData)
             (fun _ => [SNum 0]) true edited [] [] in
  exists newRoot,
    contents (save_onClick read_json (fun _ g => g) w) = JSON_stringify newRoot 2
    /\ field_at newRoot (Some [SNum 0]) "x" = Some (VNum 5)
    /\ field_at newRoot (Some [SNum 0]) "y" = Some (VArr [VNum 1])
    /\ field_at newRoot (Some [SNum 0]) "z" = Some VNull.
Proof.
  intros nodeData doc edited w.
  destruct (save_merges_fields read_json (fun _ g => g) w nodeData
              (VArr [VObj [("x", VNum 1); ("y", VArr [VNum 1])]])
              [("x", VNum 5); ("z", VNull)]
              eq_refl eq_refl eq_refl eq_refl eq_refl eq_refl eq_refl)
    as (newRoot & _ & Hc & _ & Hfields & _).
  { intros k v [E|[E|[]]] _; inversion E; discriminate. }
  exists newRoot. split; [exact Hc|]. split; [|split].
  - exact (eq_trans (Hfields "x") eq_refl).
  - exact (eq_trans (Hfields "y") eq_refl).
  - exact (eq_trans (Hfields "z") eq_refl).
Defined.

(* ================================================================= *)
(** ** Which nodes can be edited *)

Lemma only_containers_false (rows : list NodeRow) :
  forallb (fun r => (type r =? "array") || (type r =? "object")) rows = false
  <-> exists row, In row rows
                  /\ type row <> "array" /\ type row <> "object".
Proof.
  induction rows as [|r rows IH]; cbn [forallb].
  - split; [discriminate|]. intros (row & [] & _).
  - rewrite andb_false_iff, IH, orb_false_iff, !String.eqb_neq. split.
    + intros [[Ha Ho]|(row & Hin & H)].
      * exists r. split; [now left|auto].
      * exists row. split; [now right|auto].
    + intros (row & [<-|Hin] & H); [now left|].
      right. now exists row.
Qed.

(** X24.  A node can be edited exactly when it has a non-empty path and
    at least one row that is tagged neither array nor object; the
    document root, a node without rows and a node of containers only
    cannot, and a click on Edit then changes nothing. *)
Theorem isEditable_iff (st : path_store) (nodeData : option NodeData) :
  (isEditable st nodeData = true <->
   exists nd l rows row,
     nodeData = Some nd /\ path nd = Some l /\ st l <> []
     /\ text nd = Some rows /\ In row rows
     /\ type row <> "array" /\ type row <> "object")
  /\ (forall w, paths w = st -> selectedNode w = nodeData ->
                isEditable st nodeData = false -> edit_onClick w = w).
Proof.
  split.
  - unfold isEditable. split.
    + destruct nodeData as [nd|]; [|discriminate].
      destruct (path nd) as [l|] eqn:Hp; [|discriminate].
      destruct (st l) as [|seg segs] eqn:Hl; [discriminate|].
      destruct (text nd) as [rows|] eqn:Ht; [|discriminate].
      cbn [List.length Nat.eqb].
      destruct (List.length rows =? 0)%nat; [discriminate|].
      destruct (forallb _ rows) eqn:Hc; [discriminate|]. intros _.
      apply only_containers_false in Hc. destruct Hc as (row & Hin & Ha & Ho).
      exists nd, l, rows, row. rewrite Hl. repeat split; auto. discriminate.
    + intros (nd & l & rows & row & -> & Hp & Hl & Ht & Hin & Ha & Ho).
      rewrite Hp, Ht.
      destruct (st l) as [|seg segs]; [congruence|].
      destruct rows as [|r rows]; [contradiction|].
      cbn [List.length Nat.eqb].
      assert (Hc : forallb (fun r => (type r =? "array") || (type r =? "object"))
                     (r :: rows) = false)
        by (apply only_containers_false; eauto).
      now rewrite Hc.
  - intros w Hst Hsel H. unfold edit_onClick. now rewrite Hst, Hsel, H.
Qed.

Lemma isEditable_iff_witness :
  let st : path_store := fun l => if (l =? 0)%nat then [] else [SKey "a"] in
  let rows := [mkRow (Some "x") (VNum 1) "number";
               mkRow (Some "y") (VArr []) "array"] in
  isEditable st (Some (mkNode (Some rows) (Some 1))) = true
  /\ edit_onClick
       (mkWorld None false [] (Some (mkNode (Some rows) (Some 0))) st false
          "{}" [] [])
     = mkWorld None false [] (Some (mkNode (Some rows) (Some 0))) st false
         "{}" [] [].
Proof.
  intros st rows. split.
  - apply (proj1 (isEditable_iff st (Some (mkNode (Some rows) (Some 1))))).
    exists (mkNode (Some rows) (Some 1)), 1, rows,
      (mkRow (Some "x") (VNum 1) "number").
    repeat split; try discriminate. now left.
  - apply (proj2 (isEditable_iff st (Some (mkNode (Some rows) (Some 0)))));
      reflexivity.
Defined.

(* ================================================================= *)
(** ** Keeping the selection in sync *)

Lemma find_equal_paths (st : path_store) (a b : option path_ref)
  (ns : list NodeData) :
  pathsEqual st a b = true ->
  find (fun n => pathsEqual st (path n) a) ns
  = find (fun n => pathsEqual st (path n) b) ns.
Proof.
  intros Hab. induction ns as [|n ns IH]; [reflexivity|].
  cbn [find]. rewrite IH.
  replace (pathsEqual st (path n) b) with (pathsEqual st (path n) a);
    [reflexivity|].
  destruct (pathsEqual st (path n) a) eqn:E1,
           (pathsEqual st (path n) b) eqn:E2; try reflexivity.
  - rewrite (pathsEqual_trans st _ a b E1 Hab) in E2. discriminate.
  - rewrite pathsEqual_sym in Hab.
    rewrite (pathsEqual_trans st _ b a E2 Hab) in E1. discriminate.
Qed.

Section SyncFacts.
Variable same_node : NodeData -> NodeData -> bool.
Variable rows_text : list NodeRow -> string.
(** Two references to the same node hold the same node. *)
Hypothesis same_node_sound : forall a b, same_node a b = true -> a = b.

(** The effect selects the first node of the graph whose path equals
    the selected node's path, when there is one. *)
Lemma sync_selection_find (w : World) (nodeData : NodeData) (l : path_ref) :
  selectedNode w = Some nodeData -> path nodeData = Some l ->
  sync_selection same_node rows_text w
  = match find (fun n => pathsEqual (paths w) (path n) (Some l)) (nodes w) with
    | Some matched => setSelectedNode matched w
    | None => w
    end.
Proof.
  intros Hsel Hp. unfold sync_selection. rewrite Hsel, Hp.
  destruct (nodes w) as [|n ns] eqn:Hn; [reflexivity|].
  cbn [List.length Nat.eqb].
  destruct (find _ (n :: ns)) as [m|]; [|reflexivity].
  destruct (same_node nodeData m) eqn:Es; cbn [negb orb]; [|reflexivity].
  apply same_node_sound in Es. subst m.
  destruct (negb _); [reflexivity|]. symmetry.
  now apply setSelectedNode_same.
Qed.

(** X25.  The effect that follows the graph changes nothing but the
    selection; the node it selects belongs to the graph and its path
    has the same segments as the path of the node selected before; and
    running it again changes nothing more. *)
Theorem sync_selection_stable (w : World) :
  sync_selection same_node rows_text (sync_selection same_node rows_text w)
  = sync_selection same_node rows_text w
  /\ (selectedNode (sync_selection same_node rows_text w) = selectedNode w
      \/ exists nodeData matched,
           selectedNode w = Some nodeData
           /\ selectedNode (sync_selection same_node rows_text w)
              = Some matched
           /\ In matched (nodes w)
           /\ pathsEqual (paths w) (path matched) (path nodeData) = true)
  /\ contents (sync_selection same_node rows_text w) = contents w
  /\ draft (sync_selection same_node rows_text w) = draft w
  /\ isEditing (sync_selection same_node rows_text w) = isEditing w
  /\ nodes (sync_selection same_node rows_text w) = nodes w
  /\ setContents_calls (sync_selection same_node rows_text w)
     = setContents_calls w.
Proof.
  destruct (selectedNode w) as [nodeData|] eqn:Hsel;
    [|unfold sync_selection; rewrite Hsel; cbn; rewrite Hsel; tauto].
  destruct (path nodeData) as [l|] eqn:Hp;
    [|unfold sync_selection; rewrite Hsel, Hp; cbn; rewrite Hsel, Hp; tauto].
  rewrite (sync_selection_find w nodeData l Hsel Hp).
  destruct (find _ (nodes w)) as [m|] eqn:Hfind.
  - pose proof (find_some _ _ Hfind) as [Hin Hm].
    split; [|cbn; repeat split; auto; right; exists nodeData, m;
             rewrite Hp; auto].
    destruct (path m) as [lm|] eqn:Hpm; [|discriminate].
    rewrite (sync_selection_find (setSelectedNode m w) m lm eq_refl Hpm).
    cbn [setSelectedNode paths nodes].
    rewrite (find_equal_paths (paths w) (Some lm) (Some l) (nodes w) Hm), Hfind.
    now apply setSelectedNode_same.
  - split; [|cbn; tauto].
    now rewrite (sync_selection_find w nodeData l Hsel Hp), Hfind.
Qed.
End SyncFacts.

Lemma sync_selection_stable_witness :
  let stale := mkNode (Some [mkRow (Some "x") (VNum 1) "number"]) (Some 0) in
  let fresh := mkNode (Some [mkRow (Some "x") (VNum 5) "number"]) (Some 1) in
  let w := mkWorld (Some "{}") true [mkNode None (Some 2); fresh] (Some stale)
             (fun l => if (l <? 2)%nat then [SKey "a"] else []) false "" [] [] in
  selectedNode
    (sync_selection (fun _ _ => false) (fun _ => "")
       (sync_selection (fun _ _ => false) (fun _ => "") w))
  = Some fresh.
Proof.
  intros stale fresh w.
  rewrite (proj1 (sync_selection_stable (fun _ _ => false) (fun _ => "")
                    (fun a b H => False_ind (a = b) (Bool.diff_false_true H))
                    w)).
  reflexivity.
Defined.

(* ================================================================= *)
(** ** A session of clicks and edits *)

Lemma last_cons_default {A : Type} (l : list A) (x d : A) :
  last (x :: l) d = last l x.
Proof.
  revert x d. induction l as [|y l IH]; intros x d; [reflexivity|].
  change (last (x :: y :: l) d) with (last (y :: l) d).
  now rewrite !IH.
Qed.

Lemma last_app_default {A : Type} (l1 l2 : list A) (d : A) :
  last (l1 ++ l2) d = last l2 (last l1 d).
Proof.
  revert d. induction l1 as [|x l1 IH]; intros d; [reflexivity|].
  cbn [app]. now rewrite !last_cons_default, IH.
Qed.

Section SessionFacts.
Variable JSON_parse : string -> parse_result.
Variable pipeline :
  option string -> list NodeData * path_store -> list NodeData * path_store.
Variable trim : string -> string.
Variable same_node : NodeData -> NodeData -> bool.
Variable rows_text : list NodeRow -> string.

Lemma sync_selection_session (w : World) :
  setContents_calls (sync_selection same_node rows_text w) = setContents_calls w
  /\ contents (sync_selection same_node rows_text w) = contents w
  /\ alerts (sync_selection same_node rows_text w) = alerts w.
Proof.
  unfold sync_selection.
  destruct (selectedNode w) as [nd|]; [|auto].
  destruct (path nd); [|auto].
  destruct (List.length (nodes w) =? 0)%nat; [auto|].
  destruct (find _ (nodes w)); [|auto].
  destruct (negb _ || negb _); cbn; auto.
Qed.

Lemma step_summary_refl (w : World) (budget : nat) : step_summary w w budget.
Proof.
  exists [], []. rewrite !app_nil_r.
  split; [reflexivity|]. split; [cbn; lia|]. split; [constructor|].
  split; [reflexivity|]. split; [reflexivity|constructor].
Qed.

Lemma step_summary_session (w w' : World) (budget : nat) :
  setContents_calls w' = setContents_calls w -> contents w' = contents w ->
  alerts w' = alerts w -> step_summary w w' budget.
Proof.
  intros Hc Hd Ha. exists [], []. rewrite !app_nil_r.
  split; [exact Hc|]. split; [cbn; lia|]. split; [constructor|].
  split; [exact Hd|]. split; [exact Ha|constructor].
Qed.

Lemma save_enabled_parses (w : World) :
  save_disabled JSON_parse trim w = false ->
  exists parsed, JSON_parse (draft w) = Parsed parsed.
Proof.
  unfold save_disabled, isDraftParseable. intros H.
  apply orb_false_iff in H. destruct H as [_ H].
  apply negb_false_iff in H.
  destruct (negb (isDraftNonEmpty trim w)); [discriminate|].
  destruct (JSON_parse (draft w)) as [parsed|]; [eauto|discriminate].
Qed.

Lemma alert_summary (msg : string) (w : World) (budget : nat) :
  ~ draft_message msg -> step_summary w (alert msg w) budget.
Proof.
  intros Hmsg. exists [], [msg]. cbn. rewrite !app_nil_r.
  split; [reflexivity|]. split; [lia|]. split; [constructor|].
  split; [reflexivity|]. split; [reflexivity|]. now repeat constructor.
Qed.

Lemma save_step_summary (w : World) :
  save_disabled JSON_parse trim w = false ->
  step_summary w (save_onClick JSON_parse pipeline w) 1.
Proof.
  intros Hen. destruct (save_enabled_parses w Hen) as [parsed Hdraft].
  destruct (selectedNode w) as [nodeData|] eqn:Hsel;
    [|unfold save_onClick; rewrite Hsel; apply step_summary_refl].
  destruct (JSON_parse (contents_text (contents w))) as [root|m] eqn:Hdoc.
  - destruct (shape_mismatch nodeData parsed) eqn:Hshape.
    + unfold save_onClick.
      rewrite Hsel, Hdoc, Hdraft, isPrimitiveNode_single_keyless,
        container_guard, object_guard.
      unfold shape_mismatch in Hshape.
      destruct (single_keyless_row nodeData); rewrite Hshape;
        apply alert_summary; intros [message H]; discriminate.
    + rewrite (save_accepts JSON_parse pipeline w nodeData root parsed)
        by assumption.
      destruct (save_commit_effect pipeline nodeData
                  (committed_root w nodeData root parsed) w)
        as (Hc & _ & Hcalls & _ & _ & Ha & _).
      exists [(JSON_stringify (committed_root w nodeData root parsed) 2, true)],
        [].
      rewrite Hcalls, Hc, Ha, app_nil_r. cbn.
      split; [reflexivity|]. split; [lia|].
      split; [now repeat constructor|].
      split; [reflexivity|]. split; [reflexivity|constructor].
  - unfold save_onClick. rewrite Hsel, Hdoc.
    apply alert_summary. intros [message H]. discriminate.
Qed.

Lemma handle_summary (w : World) (ev : ui_event) :
  step_summary w (handle JSON_parse pipeline trim same_node rows_text w ev)
    (if is_save ev then 1 else 0).
Proof.
  destruct ev as [| |text_value| | |]; cbn [handle is_save].
  - destruct (isEditing w); [apply step_summary_refl|].
    unfold edit_onClick.
    destruct (isEditable _ _); [|apply step_summary_refl].
    now apply step_summary_session.
  - destruct (isEditing w); [|apply step_summary_refl].
    now apply step_summary_session.
  - destruct (isEditing w); [|apply step_summary_refl].
    now apply step_summary_session.
  - destruct (isEditing w); cbn [andb]; [|apply step_summary_refl].
    destruct (save_disabled JSON_parse trim w) eqn:Hd; cbn [negb];
      [apply step_summary_refl|].
    now apply save_step_summary.
  - now apply step_summary_session.
  - destruct (sync_selection_session w) as (Hc & Hd & Ha).
    now apply step_summary_session.
Qed.

Lemma step_summary_trans (w1 w2 w3 : World) (b1 b2 : nat) :
  step_summary w1 w2 b1 -> step_summary w2 w3 b2 ->
  step_summary w1 w3 (b1 + b2).
Proof.
  intros (c1 & m1 & Hc1 & Hl1 & Ht1 & Hd1 & Ha1 & Hm1)
         (c2 & m2 & Hc2 & Hl2 & Ht2 & Hd2 & Ha2 & Hm2).
  exists (c1 ++ c2)%list, (m1 ++ m2)%list.
  rewrite Hc2, Hc1, Ha2, Ha1, Hd2, Hd1, <- !app_assoc, map_app,
    last_app_default, length_app.
  split; [reflexivity|]. split; [lia|].
  split; [apply Forall_app; auto|].
  split; [reflexivity|]. split; [reflexivity|apply Forall_app; auto].
Qed.

Lemma run_summary (evs : list ui_event) :
  forall w,
    step_summary w (run JSON_parse pipeline trim same_node rows_text evs w)
      (List.length (filter is_save evs)).
Proof.
  induction evs as [|ev evs IH]; intros w; [apply step_summary_refl|].
  cbn [run fold_left filter].
  replace (List.length (if is_save ev then ev :: filter is_save evs
                        else filter is_save evs))
    with ((if is_save ev then 1 else 0) + List.length (filter is_save evs))
    by (destruct (is_save ev); reflexivity).
  eapply step_summary_trans; [apply handle_summary|apply IH].
Qed.

(** X26.  Over any sequence of clicks, edits and runs of the two
    effects, the component calls [setContents] at most once per click on
    Save and always with [hasChanges] set, and it leaves in the store
    the contents of its last call, or the initial document when it made
    none: no other callback writes the document. *)
Theorem session_writes (evs : list ui_event) (w : World) :
  exists calls,
    setContents_calls (run JSON_parse pipeline trim same_node rows_text evs w)
    = (setContents_calls w ++ calls)%list
    /\ List.length calls <= List.length (filter is_save evs)
    /\ Forall (fun cb => snd cb = true) calls
    /\ contents (run JSON_parse pipeline trim same_node rows_text evs w)
       = last (map fst calls) (contents w).
Proof.
  destruct (run_summary evs w) as (calls & msgs & H1 & H2 & H3 & H4 & _).
  exists calls. auto.
Qed.

(** X27.  The Save button is disabled while the draft does not parse,
    so over any sequence of clicks, edits and runs of the effects the
    message for an unparseable draft is never shown: that branch of the
    handler is reached by no event. *)
Theorem session_never_shows_draft_error (evs : list ui_event) (w : World) :
  exists msgs,
    alerts (run JSON_parse pipeline trim same_node rows_text evs w) = (alerts w ++ msgs)%list
    /\ Forall (fun msg => ~ draft_message msg) msgs.
Proof.
  destruct (run_summary evs w) as (calls & msgs & _ & _ & _ & _ & H5 & H6).
  exists msgs. auto.
Qed.
End SessionFacts.
